(** * Path ORAM (cbrl/Path-ORAM, [src/path_oram.h], [src/main.cpp]): model
      and properties

    The class template [PathORAM<HeightL, BlockSizeB, BucketSizeZ>] is
    embedded as pure functions over an explicit engine state.  Machine
    integers ([size_t], [uint64_t]) are integers of [Z] with the 64-bit
    wrap-around written out; [std::vector] and [std::array] are lists read
    and updated by index; the stash, a [std::map<size_t, Block>], is a
    finite map that is iterated in ascending key order.

    [operator[]] of a vector or an array does not check its index.  Here a
    read out of range gives a default value and a write out of range does
    nothing; the invariant [PathORAM.wf] of the reachable states keeps every
    index the engine uses in range (lemma [access_in_bounds]), so neither
    happens.

    The randomness of the engine is the sequence of values its
    distribution [leaf_dist] returns.  A generator is the stream of these
    values, and probabilities are counted over the finite sample space
    [PathORAM.tapes] of the draws, uniform by the contract of
    [std::uniform_int_distribution]. *)

From Stdlib Require Import ZArith Lia List.
From Stdlib.Strings Require Import Byte Ascii.
From stdpp Require Import base tactics option list numbers gmap sorting.
From stdpp Require Import strings pretty.

Local Open Scope Z_scope.

(** ** Machine integers *)

Definition wrap64 (x : Z) : Z := x mod 2 ^ 64.

(** ** Blocks, buckets, operations *)

(** [using Block = std::array<uint8_t, BlockSizeB>] *)
Abbreviation Block := (list byte).

Module IDBlock.
(** [static constexpr uint64_t invalid_block = numeric_limits<uint64_t>::max()] *)
Definition invalid_block : Z := 2 ^ 64 - 1.

(** [struct IDBlock { uint64_t id; Block data; }] *)
Record t := mk { id : Z; data : Block }.
End IDBlock.

(** [using Bucket = std::array<IDBlock, BucketSizeZ>] *)
Abbreviation Bucket := (list IDBlock.t).

(** [enum class Op : uint8_t { Read = 0, Write = 1 }] *)
Inductive Op := Read | Write.

(** What a call does as seen by its caller: it returns, or it throws
    [std::out_of_range]. *)
Inductive Outcome (A : Type) :=
| Returned (a : A)
| Throw_out_of_range.
Arguments Returned {A} a.
Arguments Throw_out_of_range {A}.

(** ** Side effects of an access, in program order

    The engine state carries a log of the side effects the spec lists for an
    access: the rewrite of a position-map entry with a fresh draw
    ([position_map[blk] = randomPath()]), each read of a bucket of the tree
    ([buckets[...]] in [readPath]) and each write of one
    ([buckets[node] = ...] in [writePath]). *)
Inductive Event :=
| Remap (blk : Z)
| BucketRead (node : Z)
| BucketWrite (node : Z).

(** The bucket indices an observer of the storage array sees. *)
Definition touched (e : Event) : list Z :=
  match e with
  | Remap _ => []
  | BucketRead node => [node]
  | BucketWrite node => [node]
  end.

(** ** The random generator

    [std::mt19937 mt] with [std::uniform_int_distribution<size_t> leaf_dist]
    belongs to the C++ library.  A generator state is represented by the
    values [leaf_dist(mt)] returns from that state on: value [k] of the
    stream is the result of the call number [k] from now. *)
Abbreviation Generator := (nat → Z).

Definition leaf_dist (mt : Generator) : Z * Generator :=
  (mt 0%nat, λ k, mt (S k)).

(** ** The engine state: the data members of [PathORAM] *)
Record ORAM := mkORAM {
  buckets : list Bucket;          (* std::vector<Bucket> buckets *)
  position_map : list Z;          (* std::array<size_t, block_count_N> *)
  stash : gmap Z Block;           (* std::map<size_t, Block> stash *)
  mt : Generator;                 (* std::mt19937 mt, through leaf_dist *)
  trace : list Event              (* side effects so far, oldest first *)
}.

(** ** The stash: [std::map<size_t, Block>] *)

(** Iteration visits the keys in ascending order. *)
Definition stash_keys (s : gmap Z Block) : list Z :=
  merge_sort Z.le (map_to_list s).*1.

(** [stash.emplace(k, v)]: inserts only when [k] is absent. *)
Definition stash_emplace (k : Z) (v : Block) (s : gmap Z Block) : gmap Z Block :=
  match s !! k with
  | Some _ => s
  | None => <[k := v]> s
  end.

Module PathORAM.
Section Params.

(** [template<uint8_t HeightL, size_t BlockSizeB, uint8_t BucketSizeZ = 4>] *)
Variables (HeightL BlockSizeB BucketSizeZ : Z).

(** [static constexpr uint64_t bucket_count = (1ull << (HeightL + 1)) - 1] *)
Definition bucket_count : Z := wrap64 (Z.shiftl 1 (HeightL + 1) - 1).

(** [static constexpr uint64_t block_count_N = BucketSizeZ * bucket_count] *)
Definition block_count_N : Z := wrap64 (BucketSizeZ * bucket_count).

(** The spec's derived constant [leaf_count = 2^L]; the source has no
    constant of this name and writes [bucket_count / 2] for [2^L - 1]. *)
Definition leaf_count : Z := 2 ^ HeightL.

(** [Block data = {0}] *)
Definition zero_block : Block := replicate (Z.to_nat BlockSizeB) x00.

(** A default-initialised [IDBlock]: [id = invalid_block], [data = {0}]. *)
Definition default_IDBlock : IDBlock.t :=
  IDBlock.mk IDBlock.invalid_block zero_block.

(** A default-initialised [Bucket]. *)
Definition default_Bucket : Bucket :=
  replicate (Z.to_nat BucketSizeZ) default_IDBlock.

(** [stash[k]]: [std::map::operator[]] creates a value-initialised (zero)
    element when [k] is absent, and gives the element at [k]. *)
Definition stash_index (s : gmap Z Block) (k : Z) : Block * gmap Z Block :=
  match s !! k with
  | Some v => (v, s)
  | None => (zero_block, <[k := zero_block]> s)
  end.

(** *** [getNodeOnPath]

    [leaf += bucket_count / 2], then the loop
    [for (int16_t l = HeightL - 1; l >= height; --l)], whose body
    [leaf = ((leaf + 1) / 2) - 1] runs [HeightL - height] times (no time
    when [height >= HeightL]). *)
Definition parent_step (leaf : Z) : Z :=
  wrap64 (wrap64 (leaf + 1) / 2 - 1).

Definition getNodeOnPath (leaf height : Z) : Z :=
  Nat.iter (Z.to_nat (HeightL - height)) parent_step
           (wrap64 (leaf + bucket_count / 2)).

(** *** [randomPath]: [return leaf_dist(mt)] *)
Definition randomPath (st : ORAM) : Z * ORAM :=
  let '(leaf, g) := leaf_dist (mt st) in
  (leaf, mkORAM (buckets st) (position_map st) (stash st) g (trace st)).

(** The bounds of [leaf_dist]: [leaf_dist{0, bucket_count/2}]. *)
Definition leaf_dist_min : Z := 0.
Definition leaf_dist_max : Z := bucket_count / 2.

(** *** The constructor [PathORAM()]

    [buckets(bucket_count)] value-initialises every bucket; the stash is
    empty; the loop assigns [position_map[i] = randomPath()] for
    [i = 0 .. block_count_N - 1].  The constructor has no parameter: the
    argument here is the generator as [mt(rd())] leaves it, seeded from
    [std::random_device].  The array [position_map] starts uninitialised
    (zeros here) and the loop assigns every entry; the log of side effects
    starts empty. *)
Definition new_entry (st : ORAM) (i : nat) : ORAM :=
  let '(leaf, st1) := randomPath st in
  mkORAM (buckets st1) (<[i := leaf]> (position_map st1)) (stash st1)
         (mt st1) (trace st1).

Definition new (rd_mt : Generator) : ORAM :=
  foldl new_entry
        (mkORAM (replicate (Z.to_nat bucket_count) default_Bucket)
                (replicate (Z.to_nat block_count_N) 0)
                ∅ rd_mt [])
        (seq 0 (Z.to_nat block_count_N)).

(** *** [readPath] *)

(** The inner loop: copy the valid blocks of one bucket to the stash. *)
Definition read_bucket (bucket : Bucket) (s : gmap Z Block) : gmap Z Block :=
  foldl (λ s block,
           if decide (IDBlock.id block ≠ IDBlock.invalid_block)
           then stash_emplace (IDBlock.id block) (IDBlock.data block) s
           else s)
        s bucket.

Definition readPath_level (pos : Z) (st : ORAM) (l : Z) : ORAM :=
  let node := getNodeOnPath pos l in
  let bucket := buckets st !!! Z.to_nat node in
  mkORAM (buckets st) (position_map st) (read_bucket bucket (stash st))
         (mt st) (trace st ++ [BucketRead node]).

(** [for (uint8_t l = 0; l <= HeightL; ++l)] *)
Definition readPath (pos : Z) (st : ORAM) : ORAM :=
  foldl (readPath_level pos) st (seqZ 0 (HeightL + 1)).

(** *** [getIntersectingBlocks] *)
Definition getIntersectingBlocks (leaf height : Z) (st : ORAM) : list Z :=
  let node := getNodeOnPath leaf height in
  filter (λ block_id,
            getNodeOnPath (position_map st !!! Z.to_nat block_id) height = node)
         (stash_keys (stash st)).

(** *** [writePath] *)

(** The first inner loop, from slot [z] on: [block.id = valid_blocks[z]],
    [block.data = stash[block.id]], [stash.erase(block.id)]. *)
Fixpoint fill_bucket (valid_blocks : list Z) (z : nat)
         (bucket : Bucket) (s : gmap Z Block) : Bucket * gmap Z Block :=
  match valid_blocks with
  | [] => (bucket, s)
  | block_id :: rest =>
      let '(d, s1) := stash_index s block_id in
      fill_bucket rest (S z) (<[z := IDBlock.mk block_id d]> bucket)
                  (delete block_id s1)
  end.

(** The second inner loop: [block.id = invalid_block] for the slots
    [valid_blocks.size() <= z < BucketSizeZ]. *)
Definition invalidate_from (n : nat) (bucket : Bucket) : Bucket :=
  imap (λ z block,
          if decide (n ≤ z)%nat
          then IDBlock.mk IDBlock.invalid_block (IDBlock.data block)
          else block)
       bucket.

Definition writePath_level (pos : Z) (st : ORAM) (l : Z) : ORAM :=
  let node := getNodeOnPath pos l in
  let valid_blocks := getIntersectingBlocks pos l st in
  let '(bucket, s) :=
    fill_bucket (take (Z.to_nat BucketSizeZ) valid_blocks) 0
                default_Bucket (stash st) in
  let bucket := invalidate_from (length valid_blocks) bucket in
  mkORAM (<[Z.to_nat node := bucket]> (buckets st)) (position_map st) s
         (mt st) (trace st ++ [BucketWrite node]).

(** [for (int16_t l = HeightL; l >= 0; --l)] *)
Definition writePath (pos : Z) (st : ORAM) : ORAM :=
  foldl (writePath_level pos) st (reverse (seqZ 0 (HeightL + 1))).

(** *** [access], [read], [write] *)

(** [position_map[blk] = randomPath()] *)
Definition remap (blk : Z) (st : ORAM) : ORAM :=
  let '(leaf, st1) := randomPath st in
  mkORAM (buckets st1) (<[Z.to_nat blk := leaf]> (position_map st1))
         (stash st1) (mt st1) (trace st1 ++ [Remap blk]).

(** The [switch (op)]: [b = stash[blk]] or [stash[blk] = b]. *)
Definition apply_op (op : Op) (blk : Z) (b : Block) (st : ORAM) : Block * ORAM :=
  let '(d, s) := stash_index (stash st) blk in
  match op with
  | Read =>
      (d, mkORAM (buckets st) (position_map st) s (mt st) (trace st))
  | Write =>
      (b, mkORAM (buckets st) (position_map st) (<[blk := b]> s) (mt st)
                 (trace st))
  end.

Definition access (op : Op) (blk : Z) (b : Block) (st : ORAM)
  : Outcome Block * ORAM :=
  if decide (block_count_N ≤ blk) then (Throw_out_of_range, st)
  else
    let pos := position_map st !!! Z.to_nat blk in
    let st := remap blk st in
    let st := readPath pos st in
    let '(b, st) := apply_op op blk b st in
    let st := writePath pos st in
    (Returned b, st).

(** [Block b; access(Op::Read, blk, b); return b;] -- whatever [b] holds
    before the call is overwritten. *)
Definition read (blk : Z) (st : ORAM) : Outcome Block * ORAM :=
  access Read blk zero_block st.

(** [access(Op::Write, blk, const_cast<Block&>(b))] *)
Definition write (blk : Z) (b : Block) (st : ORAM) : Outcome unit * ORAM :=
  match access Write blk b st with
  | (Returned _, st') => (Returned tt, st')
  | (Throw_out_of_range, st') => (Throw_out_of_range, st')
  end.

(** *** Sequences of calls

    One public call: [access(op, blk, b)]; [read(blk)] is the call with
    [op = Read], [write(blk, b)] the one with [op = Write]. *)
Record Call := mkCall { call_op : Op; call_blk : Z; call_data : Block }.

Definition call (st : ORAM) (c : Call) : ORAM :=
  (access (call_op c) (call_blk c) (call_data c) st).2.

(** The caller goes on after a call that threw. *)
Definition run (calls : list Call) (st : ORAM) : ORAM :=
  foldl call st calls.

(** ** Notions the properties are stated with *)

(** The contract of [uniform_int_distribution{a, b}]: every value it
    returns lies in [[a, b]]. *)
Definition generator_ok (g : Generator) : Prop :=
  ∀ k, leaf_dist_min ≤ g k ≤ leaf_dist_max.

(** The values [leaf_dist] can return; the distribution is uniform, so
    each value of this list is as likely as any other. *)
Definition leaf_dist_support : list Z :=
  seqZ leaf_dist_min (leaf_dist_max - leaf_dist_min + 1).

(** Slot [z] of the bucket at index [node] holds block [k] with data [v]. *)
Definition slot_holds (bs : list Bucket) (node z : nat) (k : Z) (v : Block)
  : Prop :=
  ∃ bucket, bs !! node = Some bucket
            ∧ bucket !! z = Some (IDBlock.mk k v)
            ∧ k ≠ IDBlock.invalid_block.

(** The engine stores block [k] with data [v], in the stash or in the tree. *)
Definition holds (st : ORAM) (k : Z) (v : Block) : Prop :=
  stash st !! k = Some v ∨ ∃ node z, slot_holds (buckets st) node z k v.

(** The valid blocks of a bucket, in slot order. *)
Definition bucket_blocks (bucket : Bucket) : list (Z * Block) :=
  omap (λ block,
          if decide (IDBlock.id block ≠ IDBlock.invalid_block)
          then Some (IDBlock.id block, IDBlock.data block)
          else None)
       bucket.

(** The heights of a path, root first. *)
Definition levels : list Z := seqZ 0 (HeightL + 1).

(** The index in [buckets] of the node of the path to [pos] at a height. *)
Definition path_node (pos l : Z) : nat := Z.to_nat (getNodeOnPath pos l).

(** The valid blocks on the path to [pos], root first. *)
Definition path_blocks (pos : Z) (bs : list Bucket) : list (Z * Block) :=
  l ← levels; bucket_blocks (bs !!! path_node pos l).

(** The side effects of one access whose block was mapped to [pos]. *)
Definition access_events (blk pos : Z) : list Event :=
  Remap blk
  :: ((λ l, BucketRead (getNodeOnPath pos l)) <$> levels)
  ++ ((λ l, BucketWrite (getNodeOnPath pos l)) <$> reverse levels).

(** The blocks a sequence of calls has written, with the data of the most
    recent write; a call with an id out of range writes nothing. *)
Definition written_step (m : gmap Z Block) (c : Call) : gmap Z Block :=
  match call_op c with
  | Write =>
      if decide (block_count_N ≤ call_blk c) then m
      else <[call_blk c := call_data c]> m
  | Read => m
  end.

Definition written (calls : list Call) : gmap Z Block :=
  foldl written_step ∅ calls.

(** What the loop of [writePath] has done to a state [st] when it has
    written the nodes of the path to [pos] at the heights [ls]. *)
Record path_written (pos : Z) (ls : list Z) (st st' : ORAM) : Prop := {
  pw_position_map : position_map st' = position_map st;
  pw_mt : mt st' = mt st;
  pw_trace :
    trace st' = trace st ++ ((λ l, BucketWrite (getNodeOnPath pos l)) <$> ls);
  pw_length : length (buckets st') = length (buckets st);
  pw_frame : ∀ n, (∀ l, l ∈ ls → n ≠ path_node pos l) →
    buckets st' !! n = buckets st !! n;
  pw_stash_sub : ∀ k v, stash st' !! k = Some v → stash st !! k = Some v;
  pw_placed : ∀ l z k v, l ∈ ls →
    slot_holds (buckets st') (path_node pos l) z k v →
    stash st !! k = Some v ∧ stash st' !! k = None
    ∧ getNodeOnPath (position_map st !!! Z.to_nat k) l = getNodeOnPath pos l;
  pw_kept : ∀ k v, stash st !! k = Some v →
    stash st' !! k = Some v
    ∨ ∃ l z, l ∈ ls ∧ slot_holds (buckets st') (path_node pos l) z k v;
  pw_unique : ∀ l z l' z' k v v', l ∈ ls → l' ∈ ls →
    slot_holds (buckets st') (path_node pos l) z k v →
    slot_holds (buckets st') (path_node pos l') z' k v' →
    l = l' ∧ z = z'
}.

(** The calls of a sequence of writes [(id, v)], and the calls of a
    sequence of reads. *)
Definition writes (W : list (Z * Block)) : list Call :=
  (λ w, mkCall Write w.1 w.2) <$> W.

Definition reads (R : list Z) : list Call :=
  (λ k, mkCall Read k zero_block) <$> R.

(** The payload of the most recent write to [id] in [W]. *)
Definition last_write (W : list (Z * Block)) (id : Z) : option Block :=
  snd <$> last (filter (λ w, w.1 = id) W).

(** *** Randomness

    The sample space of [n] draws of [leaf_dist]: all the sequences of [n]
    values of its support.  The draws are independent and uniform, so the
    sequences of this list are equally likely, and the probability of an
    event is the number of sequences where it holds over their number. *)
Fixpoint tapes (n : nat) : list (list Z) :=
  match n with
  | O => [[]]
  | S n => x ← leaf_dist_support; (cons x) <$> tapes n
  end.

(** The generator that returns the values of a tape, in order. *)
Definition generator_of (tape : list Z) : Generator := λ k, tape !!! k.

(** The bucket indices that a sequence of calls touches on an engine
    constructed with the generator [g], in order. *)
Definition touched_trace (calls : list Call) (g : Generator) : list Z :=
  trace (run calls (new g)) ≫= touched.

(** The number of outcomes of the draws of the constructor and of
    [calls], one draw per call, under which [calls] touches exactly the
    buckets [t]. *)
Definition trace_count (calls : list Call) (t : list Z) : nat :=
  length (filter (λ tape, touched_trace calls (generator_of tape) = t)
                 (tapes (Z.to_nat block_count_N + length calls))).

(** The leaves whose paths accesses to the blocks [ids] walk, from a
    position map and a generator. *)
Fixpoint leaf_trace (ids : list Z) (pm : list Z) (g : Generator) : list Z :=
  match ids with
  | [] => []
  | blk :: ids' =>
      pm !!! Z.to_nat blk
      :: leaf_trace ids' (<[Z.to_nat blk := g 0%nat]> pm) (λ k, g (S k))
  end.

(** The leaves walked on a tape that starts with the position map. *)
Definition tape_leaves (ids : list Z) (tape : list Z) : list Z :=
  leaf_trace ids (take (Z.to_nat block_count_N) tape)
             (generator_of (drop (Z.to_nat block_count_N) tape)).

(** The bucket indices touched on the path to a leaf: down, then up. *)
Definition path_touched (pos : Z) : list Z :=
  (getNodeOnPath pos <$> levels) ++ (getNodeOnPath pos <$> reverse levels).

(** On a tape [pm ++ x :: r], a position map of [n] entries followed by
    the draws to come, an access to entry [i] reveals [pm[i]] and moves
    the draw [x] into the map: [reveal] gives [pm[i] :: pm[i := x] ++ r],
    a one-to-one map of the tapes. *)
Definition reveal (n i : nat) (tape : list Z) : list Z :=
  tape !!! i :: <[i := tape !!! n]> (take n tape) ++ drop (S n) tape.

(** The invariant of the engine state between two calls. *)
Record wf (st : ORAM) : Prop := {
  wf_buckets : length (buckets st) = Z.to_nat bucket_count;
  wf_position_map : length (position_map st) = Z.to_nat block_count_N;
  wf_leaves : ∀ i p, position_map st !! i = Some p → 0 ≤ p < leaf_count;
  wf_mt : generator_ok (mt st);
  wf_stash_ids : ∀ k v, stash st !! k = Some v → 0 ≤ k < block_count_N;
  wf_tree_ids : ∀ node z k v,
    slot_holds (buckets st) node z k v → 0 ≤ k < block_count_N;
  wf_path : ∀ node z k v,
    slot_holds (buckets st) node z k v →
    ∃ h, 0 ≤ h ≤ HeightL
         ∧ node = path_node (position_map st !!! Z.to_nat k) h;
  wf_stash_tree : ∀ node z k v v',
    stash st !! k = Some v → ¬ slot_holds (buckets st) node z k v';
  wf_tree_unique : ∀ node z node' z' k v v',
    slot_holds (buckets st) node z k v →
    slot_holds (buckets st) node' z' k v' →
    node = node' ∧ z = z'
}.

(** *** Construction, as its caller sees it

    [PathORAM()] has an empty parameter list: a caller passes nothing to
    it, which [unit] stands for (the other declared constructors copy or
    move an existing engine and take no seed either).  What decides the
    draws is [rd_mt], the generator as [mt(rd())] leaves it, seeded with the
    value the entropy source [std::random_device] delivers. *)
Definition construct (args : unit) (rd_mt : Generator) : ORAM := new rd_mt.

(** Construction in the words of the interface the spec describes,
    [new(seed?)], to compare [construct] with: given a seed, the generator
    is the one that seed determines, whatever the entropy source delivers;
    given none, it is the one seeded from the entropy source.  A seed is
    represented by what it determines, the stream of draws of a generator
    seeded with it. *)
Definition spec_new (seed : option Generator) (rd_mt : Generator) : ORAM :=
  new (default rd_mt seed).

(** The bucket indices that a sequence of calls touches on an engine, in
    order. *)
Definition touched_by (calls : list Call) (st : ORAM) : list Z :=
  trace (run calls st) ≫= touched.

(** Seeded construction as the spec states it: for every seed there is
    something a caller can pass to the constructor so that the engine
    touches, on every sequence of calls and whatever the entropy source
    delivers, the buckets that the generator of the seed dictates.  Two
    engines so constructed with the same seed then touch the same
    buckets. *)
Definition seeded_construction : Prop :=
  ∀ seed : Generator, generator_ok seed →
    ∃ args : unit, ∀ rd_mt : Generator, generator_ok rd_mt →
      ∀ calls : list Call,
        touched_by calls (construct args rd_mt)
        = touched_by calls (spec_new (Some seed) rd_mt).

(** *** A plain array of blocks, to compare the engine with

    [block_count_N] blocks, all zero at first, read and written by index
    with the bounds check of [access]. *)
Definition plain_access (op : Op) (blk : Z) (b : Block) (m : gmap Z Block)
  : Outcome Block * gmap Z Block :=
  if decide (block_count_N ≤ blk) then (Throw_out_of_range, m)
  else
    match op with
    | Read => (Returned (default zero_block (m !! blk)), m)
    | Write => (Returned b, <[blk := b]> m)
    end.

Fixpoint plain_results (calls : list Call) (m : gmap Z Block)
  : list (Outcome Block) :=
  match calls with
  | [] => []
  | c :: calls' =>
      let '(r, m') := plain_access (call_op c) (call_blk c) (call_data c) m in
      r :: plain_results calls' m'
  end.

(** What the calls of a sequence give back to their caller, in order. *)
Fixpoint results (calls : list Call) (st : ORAM) : list (Outcome Block) :=
  match calls with
  | [] => []
  | c :: calls' =>
      let '(r, st') := access (call_op c) (call_blk c) (call_data c) st in
      r :: results calls' st'
  end.

(** The engine state [st] stores the blocks of the plain array [m]. *)
Definition represents (st : ORAM) (m : gmap Z Block) : Prop :=
  wf st
  ∧ (∀ k v, holds st k v → v = default zero_block (m !! k))
  ∧ (∀ k v, m !! k = Some v → holds st k v).

(** *** The shape of a bucket

    A packed bucket: blocks with ids in range, in ascending order of their
    ids, in the first slots; every other slot is as default-initialised,
    with the invalid id and zero data. *)
Definition bucket_packed (bucket : Bucket) : Prop :=
  ∃ blocks : list IDBlock.t,
    bucket = blocks ++ replicate (Z.to_nat BucketSizeZ - length blocks)
                                 default_IDBlock
    ∧ (length blocks ≤ Z.to_nat BucketSizeZ)%nat
    ∧ Forall (λ x, 0 ≤ IDBlock.id x < block_count_N) blocks
    ∧ StronglySorted (λ x y, IDBlock.id x < IDBlock.id y) blocks.

(** A full bucket: each of its [BucketSizeZ] slots holds a block. *)
Definition bucket_full (bucket : Bucket) : Prop :=
  length bucket = Z.to_nat BucketSizeZ
  ∧ Forall (λ x, IDBlock.id x ≠ IDBlock.invalid_block) bucket.

End Params.
End PathORAM.

(** * The driver: [main] of [src/main.cpp]

    [main] builds an engine, fills an [std::unordered_map] with random
    blocks, writes every entry to the engine, reads every entry back and
    counts the blocks that came back as written.  It is embedded for the
    parameters of any engine; [Main.main] is the instance
    [PathORAM<12, 16>] of the source. *)
Module Main.

(** What [main] takes from its environment: the values [leaf_dist] gives
    the engine, the values [addr_dist(gen)] and [val_dist(gen)] return in
    iteration [i] of the input loop, and the order in which a range-for
    visits the entries of an [std::unordered_map], which the language
    leaves open. *)
Record Env := mkEnv {
  oram_mt : Generator;
  addr_dist : nat → Z;
  val_dist : nat → Z;
  iterate : gmap Z Block → list (Z * Block)
}.

(** [size_t failures = 0; size_t successes = 0;] *)
Record Counters := mkCounters { failures : Z; successes : Z }.

(** [static_cast<uint8_t>(v)] *)
Definition to_uint8 (v : Z) : byte :=
  default x00 (Byte.of_N (Z.to_N (v mod 256))).

(** [block.fill(v)] *)
Definition fill (v : byte) (block : Block) : Block :=
  replicate (length block) v.

(** [oram_data[i]], [entry.second[i]]: both blocks are [std::array]s of
    [BlockSizeB] bytes, and [i] stays below that size. *)
Definition at_index (block : Block) (i : nat) : byte :=
  default x00 (block !! i).

(** The comparison loop: [success] is still [true] at its end when no
    index [i < oram_data.size()] has [oram_data[i] != entry.second[i]]. *)
Definition same_elements (oram_data expected : Block) : bool :=
  forallb (λ i, Byte.eqb (at_index oram_data i) (at_index expected i))
          (seq 0 (length oram_data)).

(** [std::endl], ['\n'] *)
Definition nl : string := String "010"%char EmptyString.

Section Driver.

Variables (HeightL BlockSizeB BucketSizeZ : Z).

(** The contract of the environment: the distributions return values
    within their bounds, [leaf_dist{0, bucket_count/2}],
    [addr_dist{0, block_count_N - 1}] and [val_dist{0, 0xFF}], and an
    iteration visits each entry of the map once. *)
Definition env_ok (e : Env) : Prop :=
  PathORAM.generator_ok HeightL (oram_mt e)
  ∧ (∀ i, 0 ≤ addr_dist e i
          ≤ wrap64 (PathORAM.block_count_N HeightL BucketSizeZ - 1))
  ∧ (∀ i, 0 ≤ val_dist e i ≤ 255)
  ∧ (∀ m, iterate e m ≡ₚ map_to_list m).

(** One iteration of the input loop: [auto& block = input_map[blk_id];
    block.fill(static_cast<uint8_t>(val_dist(gen)));].  [operator[]] of
    the map creates a zero block when the id is new. *)
Definition generate_step (e : Env) (input_map : gmap Z Block) (i : nat)
  : gmap Z Block :=
  let blk_id := addr_dist e i in
  let '(block, input_map) := PathORAM.stash_index BlockSizeB input_map blk_id in
  <[blk_id := fill (to_uint8 (val_dist e i)) block]> input_map.

(** [for (int i = 0; i < ORAM::block_count_N; ++i)]: [block_count_N]
    iterations; the counter is an [int], which holds every index below the
    [block_count_N = 32764] of [main]. *)
Definition generate_inputs (e : Env) : gmap Z Block :=
  foldl (generate_step e) ∅
        (seq 0 (Z.to_nat (PathORAM.block_count_N HeightL BucketSizeZ))).

(** [for (auto& entry : input_map) oram.write(entry.first, entry.second);]
    An exception of [write] ends the loop. *)
Fixpoint write_blocks (entries : list (Z * Block)) (oram : ORAM)
  : Outcome unit * ORAM :=
  match entries with
  | [] => (Returned tt, oram)
  | entry :: rest =>
      match PathORAM.write HeightL BlockSizeB BucketSizeZ
                           entry.1 entry.2 oram with
      | (Returned _, oram) => write_blocks rest oram
      | (Throw_out_of_range, oram) => (Throw_out_of_range, oram)
      end
  end.

(** The validation loop: read the block of each entry, compare, count. *)
Fixpoint read_blocks (entries : list (Z * Block)) (oram : ORAM) (c : Counters)
  : Outcome Counters * ORAM :=
  match entries with
  | [] => (Returned c, oram)
  | entry :: rest =>
      match PathORAM.read HeightL BlockSizeB BucketSizeZ entry.1 oram with
      | (Returned oram_data, oram) =>
          let c :=
            if same_elements oram_data entry.2
            then mkCounters (failures c) (wrap64 (successes c + 1))
            else mkCounters (wrap64 (failures c + 1)) (successes c) in
          read_blocks rest oram c
      | (Throw_out_of_range, oram) => (Throw_out_of_range, oram)
      end
  end.

(** The text [main] prints first. *)
Definition metadata : string :=
  "Height: " +:+ pretty HeightL +:+ nl
  +:+ "Bucket Count: " +:+ pretty (PathORAM.bucket_count HeightL) +:+ nl
  +:+ nl.

(** The last line [main] prints. *)
Definition summary (c : Counters) : string :=
  "Successful tests: " +:+ pretty (successes c) +:+ nl
  +:+ "Failed tests: " +:+ pretty (failures c) +:+ nl.

(** The body of [main] ([print] is [false]): what it returns, or the
    exception that leaves it, and the text written to [std::cout]. *)
Definition run_test (e : Env) : Outcome Z * string :=
  let oram := PathORAM.new HeightL BlockSizeB BucketSizeZ (oram_mt e) in
  let out := metadata in
  let out := out +:+ "Generating inputs" +:+ nl in
  let input_map := generate_inputs e in
  let out := out +:+ "Writing data" +:+ nl in
  match write_blocks (iterate e input_map) oram with
  | (Throw_out_of_range, _) => (Throw_out_of_range, out)
  | (Returned _, oram) =>
      let out := out +:+ "Reading data" +:+ nl in
      match read_blocks (iterate e input_map) oram (mkCounters 0 0) with
      | (Throw_out_of_range, _) => (Throw_out_of_range, out)
      | (Returned c, _) => (Returned 0, out +:+ summary c)
      end
  end.

End Driver.

(** [using ORAM = PathORAM<12, 16>;], with the default [BucketSizeZ = 4]. *)
Definition main : Env → Outcome Z * string := run_test 12 16 4.

(** An environment to run [main] in: every leaf draw is 0, the ids drawn
    are 0, 1, 2, ... and the bytes 0, 1, 2, ... (wrapping), and the map is
    iterated in the order of its list of entries. *)
Definition sample_env : Env :=
  mkEnv (λ _, 0) (λ i, Z.of_nat i mod 32764) (λ i, Z.of_nat i mod 256)
        map_to_list.

End Main.

(** ** A small engine to run: [PathORAM<2, 4, 2>] *)
Module Tiny.
Definition L : Z := 2.
Definition B : Z := 4.
Definition Zc : Z := 2.
(** A generator that returns the leaves 0, 1, 2, 3, 0, 1, ... *)
Definition gen : Generator := λ k, Z.of_nat k mod 4.
(** One that returns 1, 2, 3, 0, 1, 2, ... *)
Definition gen' : Generator := λ k, (Z.of_nat k + 1) mod 4.
(** One that agrees with [gen] on its first 15 values. *)
Definition gen15 : Generator := λ k, if (k <? 15)%nat then gen k else 0.
Definition init : ORAM := PathORAM.new L B Zc gen.
Definition d1 : Block := [x01; x02; x03; x04].
Definition d5 : Block := [x05; x06; x07; x08].
Definition d9 : Block := [x09; x09; x09; x09].
Definition write_0 : PathORAM.Call := PathORAM.mkCall Write 0 d1.
Definition read_0 : PathORAM.Call :=
  PathORAM.mkCall Read 0 (PathORAM.zero_block B).
Definition read_13 : PathORAM.Call :=
  PathORAM.mkCall Read 13 (PathORAM.zero_block B).
(** Three writes, two of them to block 0, and two reads. *)
Definition W : list (Z * Block) := [(0, d1); (13, d9); (0, d5)].
Definition R : list Z := [13; 7].
(** The engine after [write(0, d1)] and [read(13)]. *)
Definition st2 : ORAM := PathORAM.run L B Zc [write_0; read_13] init.

(** A generator that maps every block to leaf 0, and writes that crowd the
    path to that leaf. *)
Definition gen0 : Generator := λ _, 0.
Definition write_d1 (k : Z) : PathORAM.Call := PathORAM.mkCall Write k d1.
Definition write_13 : PathORAM.Call := PathORAM.mkCall Write 13 d9.
Definition two_writes : list PathORAM.Call := [write_d1 0; write_d1 1].
Definition seven_writes : list PathORAM.Call :=
  write_d1 <$> [0; 1; 2; 3; 4; 5; 6].
Definition st_two : ORAM :=
  PathORAM.run L B Zc two_writes (PathORAM.new L B Zc gen0).
End Tiny.

Example tiny_N : PathORAM.block_count_N Tiny.L Tiny.Zc = 14.
Proof. reflexivity. Qed.

Example tiny_scenario :
  let st0 := Tiny.init in
  let '(_, st1) := PathORAM.write Tiny.L Tiny.B Tiny.Zc 0 [x01; x02; x03; x04] st0 in
  let '(_, st2) := PathORAM.write Tiny.L Tiny.B Tiny.Zc 13 [x09; x09; x09; x09] st1 in
  let '(r0, st3) := PathORAM.read Tiny.L Tiny.B Tiny.Zc 0 st2 in
  let '(r13, st4) := PathORAM.read Tiny.L Tiny.B Tiny.Zc 13 st3 in
  let '(r7, st5) := PathORAM.read Tiny.L Tiny.B Tiny.Zc 7 st4 in
  (r0, r13, r7) = (Returned [x01; x02; x03; x04], Returned [x09; x09; x09; x09],
                   Returned [x00; x00; x00; x00]).
Proof. vm_compute. reflexivity. Qed.

(** On [PathORAM<1, 4, 1>], three blocks and two leaves: of the 16 outcomes
    of the four draws, 8 send one access down the path to leaf 0 (buckets
    0, 1, 1, 0) and 8 down the path to leaf 1, whether it reads block 0 or
    writes block 2. *)
Example trace_count_small :
  PathORAM.trace_count 1 4 1 [PathORAM.mkCall Read 0 []] [0; 1; 1; 0] = 8%nat
  ∧ PathORAM.trace_count 1 4 1 [PathORAM.mkCall Write 2 Tiny.d1] [0; 1; 1; 0]
    = 8%nat
  ∧ PathORAM.trace_count 1 4 1 [PathORAM.mkCall Read 0 []] [0; 2; 2; 0] = 8%nat
  ∧ PathORAM.trace_count 1 4 1 [PathORAM.mkCall Read 0 []] [0; 1; 2; 0] = 0%nat.
Proof. by vm_compute. Qed.

(** * Properties *)

Section Properties.

Variables (HeightL BlockSizeB BucketSizeZ : Z).

(** [1ull << (HeightL + 1)] is a constant expression: a height above 62
    does not compile. *)
Hypothesis HeightL_range : 0 ≤ HeightL ≤ 62.

Local Abbreviation bucket_count := (PathORAM.bucket_count HeightL).
Local Abbreviation block_count_N := (PathORAM.block_count_N HeightL BucketSizeZ).
Local Abbreviation leaf_count := (PathORAM.leaf_count HeightL).
Local Abbreviation leaf_dist_max := (PathORAM.leaf_dist_max HeightL).
Local Abbreviation zero_block := (PathORAM.zero_block BlockSizeB).
Local Abbreviation getNodeOnPath := (PathORAM.getNodeOnPath HeightL).
Local Abbreviation PathORAM_new := (PathORAM.new HeightL BlockSizeB BucketSizeZ).
Local Abbreviation readPath := (PathORAM.readPath HeightL).
Local Abbreviation writePath := (PathORAM.writePath HeightL BlockSizeB BucketSizeZ).
Local Abbreviation access := (PathORAM.access HeightL BlockSizeB BucketSizeZ).
Local Abbreviation read := (PathORAM.read HeightL BlockSizeB BucketSizeZ).
Local Abbreviation write := (PathORAM.write HeightL BlockSizeB BucketSizeZ).

Local Abbreviation levels := (PathORAM.levels HeightL).
Local Abbreviation path_node := (PathORAM.path_node HeightL).
Local Abbreviation path_blocks := (PathORAM.path_blocks HeightL).
Local Abbreviation access_events := (PathORAM.access_events HeightL).
Local Abbreviation generator_ok := (PathORAM.generator_ok HeightL).
Local Abbreviation leaf_dist_support := (PathORAM.leaf_dist_support HeightL).
Local Abbreviation run := (PathORAM.run HeightL BlockSizeB BucketSizeZ).
Local Abbreviation written := (PathORAM.written HeightL BucketSizeZ).
Local Abbreviation wf := (PathORAM.wf HeightL BucketSizeZ).
Local Abbreviation tapes := (PathORAM.tapes HeightL).
Local Abbreviation touched_trace :=
  (PathORAM.touched_trace HeightL BlockSizeB BucketSizeZ).
Local Abbreviation trace_count :=
  (PathORAM.trace_count HeightL BlockSizeB BucketSizeZ).
Local Abbreviation path_touched := (PathORAM.path_touched HeightL).
Local Abbreviation tape_leaves := (PathORAM.tape_leaves HeightL BucketSizeZ).

(** ** Arithmetic of the tree layout *)

Lemma leaf_count_bounds : 1 ≤ leaf_count ≤ 2 ^ 62.
Proof.
  unfold PathORAM.leaf_count. split.
  - apply (Z.pow_le_mono_r 2 0 HeightL); lia.
  - apply Z.pow_le_mono_r; lia.
Qed.

Lemma bucket_count_eq : bucket_count = 2 * leaf_count - 1.
Proof.
  pose proof leaf_count_bounds as Hb.
  unfold PathORAM.bucket_count, wrap64.
  rewrite Z.shiftl_1_l, Z.pow_add_r by lia.
  change (2 ^ 1) with 2. fold (leaf_count).
  rewrite Z.mod_small; lia.
Qed.

Lemma leaf_dist_max_eq : leaf_dist_max = leaf_count - 1.
Proof.
  unfold PathORAM.leaf_dist_max. rewrite bucket_count_eq.
  pose proof leaf_count_bounds. symmetry. apply Z.div_unique with (r := 1); lia.
Qed.

Lemma parent_step_succ (y : Z) :
  2 ≤ y < 2 ^ 64 → PathORAM.parent_step (y - 1) = y / 2 - 1.
Proof.
  intros Hy. unfold PathORAM.parent_step, wrap64.
  replace (y - 1 + 1) with y by lia.
  rewrite (Z.mod_small y) by lia.
  assert (1 ≤ y / 2) by (apply Z.div_le_lower_bound; lia).
  assert (y / 2 < 2 ^ 64) by (apply Z.div_lt_upper_bound; lia).
  rewrite Z.mod_small; lia.
Qed.

Lemma iter_parent_step (k : nat) (y : Z) :
  2 ^ Z.of_nat k ≤ y < 2 ^ 64 →
  Nat.iter k PathORAM.parent_step (y - 1) = y / 2 ^ Z.of_nat k - 1.
Proof.
  induction k as [|k IH]; intros Hy.
  - simpl. rewrite Z.div_1_r. done.
  - rewrite Nat2Z.inj_succ, Z.pow_succ_r in * by lia.
    assert (0 < 2 ^ Z.of_nat k) by (apply Z.pow_pos_nonneg; lia).
    simpl. rewrite IH by lia.
    rewrite parent_step_succ.
    + rewrite (Z.mul_comm 2), <- Z.div_div by lia. done.
    + split.
      * apply Z.div_le_lower_bound; lia.
      * apply Z.div_lt_upper_bound; lia.
Qed.

(** The closed form of [getNodeOnPath] on the leaves of the tree. *)
Lemma getNodeOnPath_closed (leaf h : Z) :
  0 ≤ leaf < leaf_count → 0 ≤ h ≤ HeightL →
  getNodeOnPath leaf h = (leaf + leaf_count) / 2 ^ (HeightL - h) - 1.
Proof.
  intros Hleaf Hh. pose proof leaf_count_bounds as Hb.
  unfold PathORAM.getNodeOnPath. fold (leaf_dist_max).
  rewrite leaf_dist_max_eq. unfold wrap64.
  rewrite Z.mod_small by lia.
  replace (leaf + (leaf_count - 1)) with (leaf + leaf_count - 1) by lia.
  rewrite iter_parent_step; rewrite Z2Nat.id by lia; [done|].
  split; [|lia].
  apply Z.le_trans with (m := PathORAM.leaf_count HeightL); [|lia].
  apply Z.pow_le_mono_r; lia.
Qed.

(** A node at height [h] of a path has a heap index of level [h]. *)
Lemma getNodeOnPath_level (leaf h : Z) :
  0 ≤ leaf < leaf_count → 0 ≤ h ≤ HeightL →
  2 ^ h ≤ getNodeOnPath leaf h + 1 < 2 ^ (h + 1).
Proof.
  intros Hleaf Hh. rewrite getNodeOnPath_closed by done.
  assert (0 < 2 ^ (HeightL - h)) by (apply Z.pow_pos_nonneg; lia).
  assert (leaf_count = 2 ^ h * 2 ^ (HeightL - h)) as Hlc.
  { unfold PathORAM.leaf_count. rewrite <- Z.pow_add_r by lia. f_equal. lia. }
  assert (0 < 2 ^ h) by (apply Z.pow_pos_nonneg; lia).
  rewrite Z.pow_add_r by lia. change (2 ^ 1) with 2.
  split.
  - assert (2 ^ h ≤ (leaf + leaf_count) / 2 ^ (HeightL - h)); [|lia].
    apply Z.div_le_lower_bound; lia.
  - assert ((leaf + leaf_count) / 2 ^ (HeightL - h) < 2 ^ h * 2); [|lia].
    apply Z.div_lt_upper_bound; nia.
Qed.

Lemma getNodeOnPath_range (leaf h : Z) :
  0 ≤ leaf < leaf_count → 0 ≤ h ≤ HeightL →
  0 ≤ getNodeOnPath leaf h < bucket_count.
Proof.
  intros Hleaf Hh. pose proof (getNodeOnPath_level leaf h Hleaf Hh) as Hl.
  rewrite bucket_count_eq.
  assert (0 < 2 ^ h) by (apply Z.pow_pos_nonneg; lia).
  assert (2 ^ (h + 1) ≤ 2 ^ (HeightL + 1)) by (apply Z.pow_le_mono_r; lia).
  assert (2 ^ (HeightL + 1) = 2 * leaf_count).
  { unfold PathORAM.leaf_count. rewrite Z.pow_add_r by lia. lia. }
  lia.
Qed.

(** Nodes of different heights differ, whatever the paths. *)
Lemma getNodeOnPath_height_inj (leaf leaf' h h' : Z) :
  0 ≤ leaf < leaf_count → 0 ≤ leaf' < leaf_count →
  0 ≤ h ≤ HeightL → 0 ≤ h' ≤ HeightL →
  getNodeOnPath leaf h = getNodeOnPath leaf' h' → h = h'.
Proof.
  intros Hleaf Hleaf' Hh Hh' Heq.
  pose proof (getNodeOnPath_level leaf h Hleaf Hh) as H1.
  pose proof (getNodeOnPath_level leaf' h' Hleaf' Hh') as H2.
  rewrite Heq in H1.
  destruct (Z.lt_trichotomy h h') as [Hlt|[?|Hlt]]; [|done|].
  - assert (2 ^ (h + 1) ≤ 2 ^ h') by (apply Z.pow_le_mono_r; lia). lia.
  - assert (2 ^ (h' + 1) ≤ 2 ^ h) by (apply Z.pow_le_mono_r; lia). lia.
Qed.

(** C8 (path-index laws): for a leaf [l] of the tree, the node of its path
    at height [HeightL] is the heap index [l + leaf_count - 1] of the leaf,
    the node at height 0 is the root, and below the leaf level the node at
    height [h] is the heap parent [(i - 1) / 2] of the node [i] at height
    [h + 1]. *)
Theorem path_index_laws (leaf h : Z) :
  0 ≤ leaf < leaf_count → 0 ≤ h ≤ HeightL →
  getNodeOnPath leaf HeightL = leaf + leaf_count - 1
  ∧ getNodeOnPath leaf 0 = 0
  ∧ (h < HeightL →
     getNodeOnPath leaf h = (getNodeOnPath leaf (h + 1) - 1) / 2).
Proof.
  intros Hleaf Hh. pose proof leaf_count_bounds as Hb.
  split; [|split].
  - rewrite getNodeOnPath_closed by lia.
    rewrite Z.sub_diag, Z.div_1_r. done.
  - rewrite getNodeOnPath_closed by lia.
    rewrite Z.sub_0_r. fold (leaf_count).
    replace ((leaf + leaf_count) / leaf_count) with 1; [done|].
    apply Z.div_unique with (r := leaf); lia.
  - intros Hlt. rewrite !getNodeOnPath_closed by lia.
    set (y := leaf + leaf_count).
    set (d := 2 ^ (HeightL - (h + 1))).
    assert (0 < d) by (apply Z.pow_pos_nonneg; lia).
    replace (2 ^ (HeightL - h)) with (d * 2).
    2:{ unfold d. replace (HeightL - h) with (Z.succ (HeightL - (h + 1))) by lia.
        rewrite Z.pow_succ_r by lia. lia. }
    rewrite <- Z.div_div by lia.
    replace (y / d - 1 - 1) with (y / d + (-1) * 2) by lia.
    rewrite Z.div_add by lia. lia.
Qed.

(** ** The stash *)

Lemma stash_emplace_union (k : Z) (v : Block) (s : gmap Z Block) :
  stash_emplace k v s = s ∪ {[k := v]}.
Proof.
  unfold stash_emplace. apply map_eq. intros i. rewrite lookup_union.
  destruct (s !! k) as [w|] eqn:Hk.
  - destruct (decide (i = k)) as [->|Hne].
    + rewrite Hk, lookup_singleton_eq. done.
    + rewrite lookup_singleton_ne by done. by destruct (s !! i).
  - destruct (decide (i = k)) as [->|Hne].
    + rewrite lookup_insert_eq, Hk, lookup_singleton_eq. done.
    + rewrite lookup_insert_ne, lookup_singleton_ne by done.
      by destruct (s !! i).
Qed.

Lemma read_bucket_union (bucket : Bucket) (s : gmap Z Block) :
  PathORAM.read_bucket bucket s
  = s ∪ list_to_map (PathORAM.bucket_blocks bucket).
Proof.
  unfold PathORAM.read_bucket, PathORAM.bucket_blocks.
  revert s. induction bucket as [|block bucket IH]; intros s; simpl.
  - by rewrite (right_id_L ∅ (∪)).
  - rewrite IH. destruct (decide _) as [Hv|Hv]; [|done].
    simpl. rewrite stash_emplace_union, insert_union_singleton_l.
    by rewrite (assoc_L (∪)).
Qed.

Lemma elem_of_bucket_blocks (bucket : Bucket) (k : Z) (v : Block) :
  (k, v) ∈ PathORAM.bucket_blocks bucket
  ↔ ∃ z, bucket !! z = Some (IDBlock.mk k v) ∧ k ≠ IDBlock.invalid_block.
Proof.
  unfold PathORAM.bucket_blocks. rewrite list_elem_of_omap. split.
  - intros ([k' v'] & Hin & Hsome). simpl in Hsome.
    destruct (decide _) as [Hv|]; [|done]. injection Hsome as -> ->.
    apply list_elem_of_lookup in Hin as [z Hz]. eauto.
  - intros (z & Hz & Hv). exists (IDBlock.mk k v). split.
    + by eapply list_elem_of_lookup_2.
    + simpl. by rewrite decide_True.
Qed.

(** ** [readPath] *)

Lemma foldl_readPath_level (pos : Z) (ls : list Z) (st : ORAM) :
  let st' := foldl (PathORAM.readPath_level HeightL pos) st ls in
  buckets st' = buckets st
  ∧ position_map st' = position_map st
  ∧ mt st' = mt st
  ∧ trace st' = trace st ++ ((λ l, BucketRead (getNodeOnPath pos l)) <$> ls)
  ∧ stash st' = stash st ∪ list_to_map
      (l ← ls; PathORAM.bucket_blocks (buckets st !!! path_node pos l)).
Proof.
  revert st. induction ls as [|l ls IH]; intros st; simpl.
  - rewrite app_nil_r, (right_id_L ∅ (∪)). done.
  - destruct (IH (PathORAM.readPath_level HeightL pos st l))
      as (Hb & Hp & Hm & Ht & Hs).
    simpl in *. rewrite Hb, Hp, Hm, Ht, Hs. repeat split; [|].
    + by rewrite <- app_assoc.
    + rewrite read_bucket_union, list_to_map_app.
      by rewrite (assoc_L (∪)).
Qed.

(** ** Iteration over the stash *)

Lemma elem_of_stash_keys (s : gmap Z Block) (k : Z) :
  k ∈ stash_keys s ↔ is_Some (s !! k).
Proof.
  unfold stash_keys. rewrite merge_sort_Permutation, list_elem_of_fmap.
  split.
  - intros ([k' v] & -> & Hin). apply elem_of_map_to_list in Hin. eauto.
  - intros [v Hv]. exists (k, v). split; [done|].
    by apply elem_of_map_to_list.
Qed.

Lemma NoDup_stash_keys (s : gmap Z Block) : NoDup (stash_keys s).
Proof.
  unfold stash_keys. rewrite merge_sort_Permutation.
  apply NoDup_fst_map_to_list.
Qed.

Lemma lookup_foldl_delete (sel : list Z) (s : gmap Z Block) (i : Z) :
  foldl (λ s k, delete k s) s sel !! i
  = if decide (i ∈ sel) then None else s !! i.
Proof.
  revert s. induction sel as [|k sel IH]; intros s; simpl.
  - done.
  - rewrite IH. destruct (decide (i ∈ sel)) as [Hin|Hin].
    + rewrite decide_True; [done|]. by right.
    + destruct (decide (i = k)) as [->|Hne].
      * rewrite lookup_delete_eq, decide_True; [done|]. by left.
      * rewrite lookup_delete_ne by done.
        rewrite decide_False; [done|].
        intros [?|?]%elem_of_cons; done.
Qed.

(** ** [writePath]: one bucket *)

Lemma fill_bucket_spec (sel : list Z) (pre : Bucket) (m : nat)
      (d : IDBlock.t) (s : gmap Z Block) :
  NoDup sel → (∀ k, k ∈ sel → is_Some (s !! k)) → (length sel ≤ m)%nat →
  PathORAM.fill_bucket BlockSizeB sel (length pre) (pre ++ replicate m d) s
  = (pre ++ ((λ k, IDBlock.mk k (default [] (s !! k))) <$> sel)
         ++ replicate (m - length sel) d,
     foldl (λ s k, delete k s) s sel).
Proof.
  revert pre m s. induction sel as [|k sel IH]; intros pre m s Hnd Hin Hlen.
  - simpl. by rewrite Nat.sub_0_r.
  - simpl in Hlen. destruct m as [|m]; [lia|].
    apply NoDup_cons in Hnd as [Hk Hnd].
    destruct (Hin k) as [v Hv]; [by left|].
    simpl. unfold PathORAM.stash_index. rewrite Hv. simpl.
    rewrite insert_app_r_alt, Nat.sub_diag by lia. simpl.
    set (x := IDBlock.mk k v).
    replace (pre ++ x :: replicate m d) with ((pre ++ [x]) ++ replicate m d)
      by (by rewrite <- app_assoc).
    replace (S (length pre)) with (length (pre ++ [x]))
      by (rewrite length_app; simpl; lia).
    rewrite IH; [|done| |lia].
    + assert (((λ k', IDBlock.mk k' (default [] (delete k s !! k'))) <$> sel)
              = ((λ k', IDBlock.mk k' (default [] (s !! k'))) <$> sel)) as ->.
      { apply Forall_fmap_ext_1, Forall_forall. intros k' Hk'.
        rewrite lookup_delete_ne; [done|]. by intros ->. }
      rewrite <- !app_assoc. done.
    + intros k' Hk'. rewrite lookup_delete_ne; [|by intros ->].
      apply Hin. by right.
Qed.

Lemma invalidate_from_id (n : nat) (front : Bucket) (m : nat) :
  (length front ≤ n)%nat →
  PathORAM.invalidate_from n
    (front ++ replicate m (PathORAM.default_IDBlock BlockSizeB))
  = front ++ replicate m (PathORAM.default_IDBlock BlockSizeB).
Proof.
  intros Hn. unfold PathORAM.invalidate_from.
  apply list_eq. intros i. rewrite list_lookup_imap.
  destruct ((front ++ _) !! i) as [x|] eqn:Hx; [|done]. simpl.
  destruct (decide _) as [Hle|]; [|done].
  rewrite lookup_app_r in Hx by lia.
  apply lookup_replicate in Hx as [-> _]. done.
Qed.

(** One iteration of the loop of [writePath]: the blocks selected for the
    bucket are distinct blocks of the stash that intersect the path at this
    height; they leave the stash for the slots of a fresh bucket, in
    order, which is stored at the node of the path. *)
Lemma writePath_level_spec (pos l : Z) (st : ORAM) :
  ∃ (sel : list Z) (bucket : Bucket),
    PathORAM.writePath_level HeightL BlockSizeB BucketSizeZ pos st l
    = mkORAM (<[path_node pos l := bucket]> (buckets st)) (position_map st)
             (foldl (λ s k, delete k s) (stash st) sel) (mt st)
             (trace st ++ [BucketWrite (getNodeOnPath pos l)])
    ∧ NoDup sel
    ∧ (∀ k, k ∈ sel →
         is_Some (stash st !! k)
         ∧ getNodeOnPath (position_map st !!! Z.to_nat k) l
           = getNodeOnPath pos l)
    ∧ (∀ z k v, bucket !! z = Some (IDBlock.mk k v) →
         k ≠ IDBlock.invalid_block →
         sel !! z = Some k ∧ stash st !! k = Some v)
    ∧ (∀ z k v, sel !! z = Some k → stash st !! k = Some v →
         bucket !! z = Some (IDBlock.mk k v)).
Proof.
  set (valid := PathORAM.getIntersectingBlocks HeightL pos l st).
  set (m := Z.to_nat BucketSizeZ).
  set (sel := take m valid).
  set (f := λ k, IDBlock.mk k (default [] (stash st !! k))).
  set (d := PathORAM.default_IDBlock BlockSizeB).
  assert (NoDup valid) as Hnd_valid.
  { apply NoDup_filter, NoDup_stash_keys. }
  assert (NoDup sel) as Hnd.
  { apply (sublist_NoDup sel valid); [done|apply sublist_take]. }
  assert (∀ k, k ∈ sel →
            is_Some (stash st !! k)
            ∧ getNodeOnPath (position_map st !!! Z.to_nat k) l
              = getNodeOnPath pos l) as Hsel.
  { intros k Hk. apply elem_of_take in Hk as (i & Hi & _).
    apply list_elem_of_lookup_2 in Hi.
    apply list_elem_of_filter in Hi as [Hnode Hkey].
    split; [by apply elem_of_stash_keys|done]. }
  assert (length sel ≤ m)%nat as Hlen.
  { unfold sel. rewrite length_take. lia. }
  assert (length sel ≤ length valid)%nat as Hlen'.
  { unfold sel. rewrite length_take. lia. }
  exists sel, ((f <$> sel) ++ replicate (m - length sel) d).
  split; [|split; [done|split; [done|split]]].
  - unfold PathORAM.writePath_level, PathORAM.default_Bucket.
    fold valid m sel d.
    pose proof (fill_bucket_spec sel [] m d (stash st) Hnd
                  (λ k Hk, proj1 (Hsel k Hk)) Hlen) as Hfill.
    simpl in Hfill. rewrite Hfill.
    fold f. unfold d. rewrite invalidate_from_id.
    + done.
    + by rewrite length_fmap.
  - intros z k v Hz Hv.
    apply lookup_app_Some in Hz as [Hz|[_ Hz]].
    + rewrite list_lookup_fmap in Hz.
      destruct (sel !! z) as [k'|] eqn:Hk'; [|done].
      simpl in Hz. injection Hz as -> Hdata. split; [done|].
      destruct (Hsel k) as [[w Hw] _].
      { by eapply list_elem_of_lookup_2. }
      rewrite Hw in *. simpl in Hdata. by subst.
    + apply lookup_replicate in Hz as [Hz _].
      unfold d, PathORAM.default_IDBlock in Hz. by injection Hz as Hk _.
  - intros z k v Hz Hv.
    apply lookup_app_Some. left.
    rewrite list_lookup_fmap, Hz. simpl. unfold f. by rewrite Hv.
Qed.

(** ** [writePath]: the loop *)

Lemma foldl_writePath_level (pos : Z) (ls : list Z) (st : ORAM) :
  NoDup ls →
  (∀ l l', l ∈ ls → l' ∈ ls → path_node pos l = path_node pos l' → l = l') →
  (∀ l, l ∈ ls → (path_node pos l < length (buckets st))%nat) →
  (∀ k v, stash st !! k = Some v → k ≠ IDBlock.invalid_block) →
  PathORAM.path_written HeightL pos ls st
    (foldl (PathORAM.writePath_level HeightL BlockSizeB BucketSizeZ pos) st ls).
Proof.
  revert st. induction ls as [|l ls IH]; intros st Hnd Hinj Hlen Hvalid.
  - simpl. split; try done.
    + by rewrite app_nil_r.
    + intros ???? Hin. by apply elem_of_nil in Hin.
    + intros k v Hk. by left.
    + intros ??????? Hin. by apply elem_of_nil in Hin.
  - apply NoDup_cons in Hnd as [Hl Hnd]. simpl.
    destruct (writePath_level_spec pos l st)
      as (sel & bucket & Hstep & Hsel_nd & Hsel & Hbucket1 & Hbucket2).
    set (mid := PathORAM.writePath_level HeightL BlockSizeB BucketSizeZ pos st l)
      in *.
    assert (buckets mid = <[path_node pos l := bucket]> (buckets st)) as Hmb
      by (by rewrite Hstep).
    assert (∀ i, stash mid !! i
                 = if decide (i ∈ sel) then None else stash st !! i) as Hms.
    { intros i. rewrite Hstep. simpl. apply lookup_foldl_delete. }
    assert (position_map mid = position_map st) as Hmp by (by rewrite Hstep).
    assert (∀ l', l' ∈ ls → path_node pos l ≠ path_node pos l') as Hfresh.
    { intros l' Hl' Heq. apply Hinj in Heq; [|by left|by right].
      by subst. }
    destruct (IH mid) as [Hp Hm Ht Hlen' Hfr Hsub Hpl Hkp Hun].
    { done. }
    { intros l1 l2 H1 H2. apply Hinj; by right. }
    { intros l' Hl'. rewrite Hmb, length_insert. apply Hlen. by right. }
    { intros k v. rewrite Hms. case_decide; [done|]. apply Hvalid. }
    set (fin := foldl _ mid ls) in *.
    assert (buckets fin !! path_node pos l = Some bucket) as Hfin_l.
    { rewrite Hfr by (intros l' Hl'; by apply Hfresh).
      rewrite Hmb. apply list_lookup_insert_eq. apply Hlen. by left. }
    assert (∀ z k v, PathORAM.slot_holds (buckets fin) (path_node pos l) z k v →
              sel !! z = Some k ∧ stash st !! k = Some v) as Hat_l.
    { intros z k v (b & Hb & Hz & Hv). rewrite Hfin_l in Hb.
      injection Hb as <-. by apply Hbucket1. }
    assert (∀ k v, stash mid !! k = Some v → stash st !! k = Some v) as Hmid_sub.
    { intros k v. rewrite Hms. by case_decide. }
    split.
    + by rewrite Hp.
    + by rewrite Hm, Hstep.
    + rewrite Ht, Hstep. simpl. by rewrite <- app_assoc.
    + by rewrite Hlen', Hmb, length_insert.
    + intros n Hn. rewrite Hfr.
      * rewrite Hmb. apply list_lookup_insert_ne.
        intros Heq. by apply (Hn l); [left|].
      * intros l' Hl'. apply Hn. by right.
    + intros k v Hk. by apply Hmid_sub, Hsub.
    + intros l' z k v [->|Hl']%elem_of_cons Hslot.
      * destruct (Hat_l z k v Hslot) as [Hz Hv].
        assert (k ∈ sel) as Hksel by (by eapply list_elem_of_lookup_2).
        split; [done|split].
        -- destruct (stash fin !! k) as [w|] eqn:Hw; [|done].
           apply Hsub in Hw. rewrite Hms, decide_True in Hw; done.
        -- by apply Hsel.
      * destruct (Hpl l' z k v Hl' Hslot) as (Hk & Hnone & Hnode).
        split; [by apply Hmid_sub|split; [done|]]. by rewrite <- Hmp.
    + intros k v Hk. destruct (decide (k ∈ sel)) as [Hksel|Hksel].
      * right. apply list_elem_of_lookup in Hksel as [z Hz].
        exists l, z. split; [by left|].
        exists bucket. split; [done|split; [by apply Hbucket2|]].
        by eapply Hvalid.
      * destruct (Hkp k v) as [?|(l' & z & Hl' & Hslot)].
        { rewrite Hms, decide_False; done. }
        { by left. }
        { right. exists l', z. split; [by right|done]. }
    + intros l1 z1 l2 z2 k v v'
             [->|H1]%elem_of_cons [->|H2]%elem_of_cons Hs1 Hs2.
      * split; [done|].
        destruct (Hat_l _ _ _ Hs1) as [Hz1 _].
        destruct (Hat_l _ _ _ Hs2) as [Hz2 _].
        by eapply NoDup_lookup.
      * exfalso. destruct (Hat_l _ _ _ Hs1) as [Hz1 _].
        destruct (Hpl _ _ _ _ H2 Hs2) as (Hk & _).
        rewrite Hms, decide_True in Hk; [done|].
        by eapply list_elem_of_lookup_2.
      * exfalso. destruct (Hat_l _ _ _ Hs2) as [Hz2 _].
        destruct (Hpl _ _ _ _ H1 Hs1) as (Hk & _).
        rewrite Hms, decide_True in Hk; [done|].
        by eapply list_elem_of_lookup_2.
      * by eapply Hun.
Qed.

(** ** The nodes of a path *)

Lemma elem_of_levels (l : Z) : l ∈ levels ↔ 0 ≤ l ≤ HeightL.
Proof. unfold PathORAM.levels. rewrite elem_of_seqZ. lia. Qed.

Lemma NoDup_levels : NoDup levels.
Proof. apply NoDup_seqZ. Qed.

Lemma path_node_lt (pos l : Z) :
  0 ≤ pos < leaf_count → l ∈ levels →
  (path_node pos l < Z.to_nat bucket_count)%nat.
Proof.
  intros Hpos Hl%elem_of_levels. unfold PathORAM.path_node.
  pose proof (getNodeOnPath_range pos l Hpos Hl). lia.
Qed.

Lemma path_node_inj (pos pos' l l' : Z) :
  0 ≤ pos < leaf_count → 0 ≤ pos' < leaf_count →
  0 ≤ l ≤ HeightL → 0 ≤ l' ≤ HeightL →
  path_node pos l = path_node pos' l' →
  l = l' ∧ getNodeOnPath pos l = getNodeOnPath pos' l'.
Proof.
  intros Hpos Hpos' Hl Hl' Heq. unfold PathORAM.path_node in Heq.
  pose proof (getNodeOnPath_range pos l Hpos Hl).
  pose proof (getNodeOnPath_range pos' l' Hpos' Hl').
  apply Z2Nat.inj in Heq; [|lia|lia].
  split; [|done].
  by apply (getNodeOnPath_height_inj pos pos' l l').
Qed.

(** Whether a bucket index lies on the path to [pos]. *)
Lemma on_path_dec (pos : Z) (n : nat) :
  (∃ l, l ∈ levels ∧ n = path_node pos l)
  ∨ (∀ l, l ∈ levels → n ≠ path_node pos l).
Proof.
  destruct (decide (n ∈ path_node pos <$> levels)) as [Hin|Hout].
  - left. apply list_elem_of_fmap in Hin as (l & -> & Hl). eauto.
  - right. intros l Hl ->. apply Hout. by apply list_elem_of_fmap_2.
Qed.

Lemma slot_holds_functional (bs : list Bucket) (n z : nat) k v k' v' :
  PathORAM.slot_holds bs n z k v → PathORAM.slot_holds bs n z k' v' →
  k = k' ∧ v = v'.
Proof.
  intros (b & Hb & Hz & _) (b' & Hb' & Hz' & _).
  rewrite Hb in Hb'. injection Hb' as <-. rewrite Hz in Hz'.
  by injection Hz' as <- <-.
Qed.

Lemma elem_of_path_blocks (pos : Z) (bs : list Bucket) (k : Z) (v : Block) :
  (∀ l, l ∈ levels → (path_node pos l < length bs)%nat) →
  (k, v) ∈ path_blocks pos bs
  ↔ ∃ l z, l ∈ levels ∧ PathORAM.slot_holds bs (path_node pos l) z k v.
Proof.
  intros Hlen. unfold PathORAM.path_blocks. rewrite list_elem_of_bind.
  split.
  - intros (l & Hin & Hl). apply elem_of_bucket_blocks in Hin as (z & Hz & Hv).
    exists l, z. split; [done|]. eexists. split; [|done].
    apply list_lookup_lookup_total_lt. by apply Hlen.
  - intros (l & z & Hl & b & Hb & Hz & Hv). exists l. split; [|done].
    apply elem_of_bucket_blocks. exists z.
    apply list_lookup_total_correct in Hb. by rewrite Hb.
Qed.

Lemma wf_leaf (st : ORAM) (k : Z) :
  wf st → 0 ≤ k < block_count_N →
  0 ≤ position_map st !!! Z.to_nat k < leaf_count.
Proof.
  intros Hwf Hk. eapply (PathORAM.wf_leaves _ _ _ Hwf (Z.to_nat k)).
  apply list_lookup_lookup_total_lt.
  rewrite (PathORAM.wf_position_map _ _ _ Hwf). lia.
Qed.

(** On a state that satisfies the invariant, an access to a block in range
    indexes [position_map] and [buckets] within their bounds. *)
Lemma access_in_bounds (st : ORAM) (blk : Z) :
  wf st → 0 ≤ blk < block_count_N →
  (Z.to_nat blk < length (position_map st))%nat
  ∧ (∀ k v, stash st !! k = Some v →
            (Z.to_nat k < length (position_map st))%nat)
  ∧ (∀ l, l ∈ levels →
          (path_node (position_map st !!! Z.to_nat blk) l
           < length (buckets st))%nat).
Proof.
  intros Hwf Hblk.
  rewrite (PathORAM.wf_position_map _ _ _ Hwf), (PathORAM.wf_buckets _ _ _ Hwf).
  split; [lia|split].
  - intros k v Hk%(PathORAM.wf_stash_ids _ _ _ Hwf). lia.
  - intros l Hl. apply path_node_lt; [|done]. by apply wf_leaf.
Qed.

Lemma block_count_N_lt : block_count_N < 2 ^ 64.
Proof. unfold PathORAM.block_count_N, wrap64. apply Z.mod_pos_bound. lia. Qed.

(** ** [access] *)

Lemma apply_op_spec (op : Op) (blk : Z) (b : Block) (st : ORAM) :
  let newval := match op with
                | Read => default zero_block (stash st !! blk)
                | Write => b
                end in
  PathORAM.apply_op BlockSizeB op blk b st
  = (newval, mkORAM (buckets st) (position_map st)
                    (<[blk := newval]> (stash st)) (mt st) (trace st)).
Proof.
  unfold PathORAM.apply_op, PathORAM.stash_index.
  destruct (stash st !! blk) as [v|] eqn:Hv; destruct op; simpl.
  - by rewrite insert_id.
  - done.
  - done.
  - by rewrite insert_insert_eq.
Qed.

(** The state of an access before [writePath]: the entry of the block is
    remapped, the path is in the stash and the logical operation is done. *)
Lemma logical_op_unfold (op : Op) (blk pos : Z) (b : Block) (st : ORAM) :
  let stash2 := stash st ∪ list_to_map (path_blocks pos (buckets st)) in
  let newval := match op with
                | Read => default zero_block (stash2 !! blk)
                | Write => b
                end in
  PathORAM.apply_op BlockSizeB op blk b
    (readPath pos (PathORAM.remap blk st))
  = (newval,
     mkORAM (buckets st)
            (<[Z.to_nat blk := mt st 0%nat]> (position_map st))
            (<[blk := newval]> stash2)
            (λ k, mt st (S k))
            (trace st ++ Remap blk
               :: ((λ l, BucketRead (getNodeOnPath pos l)) <$> levels))).
Proof.
  intros stash2 newval.
  unfold PathORAM.remap, PathORAM.randomPath, leaf_dist. simpl.
  unfold PathORAM.readPath.
  match goal with
  | |- context [foldl (PathORAM.readPath_level HeightL pos) ?st1 ?ls] =>
      destruct (foldl_readPath_level pos ls st1) as (Hb & Hp & Hm & Ht & Hs);
      set (st2 := foldl (PathORAM.readPath_level HeightL pos) st1 ls) in *
  end.
  simpl in *. rewrite apply_op_spec. rewrite Hb, Hp, Hm, Ht, Hs.
  fold levels. fold (path_blocks pos (buckets st)). fold stash2 newval.
  by rewrite <- app_assoc.
Qed.

Lemma access_unfold (op : Op) (blk : Z) (b : Block) (st : ORAM) :
  blk < block_count_N →
  let pos := position_map st !!! Z.to_nat blk in
  let stash2 := stash st ∪ list_to_map (path_blocks pos (buckets st)) in
  let newval := match op with
                | Read => default zero_block (stash2 !! blk)
                | Write => b
                end in
  access op blk b st
  = (Returned newval,
     writePath pos
       (mkORAM (buckets st)
               (<[Z.to_nat blk := mt st 0%nat]> (position_map st))
               (<[blk := newval]> stash2)
               (λ k, mt st (S k))
               (trace st ++ Remap blk
                  :: ((λ l, BucketRead (getNodeOnPath pos l)) <$> levels)))).
Proof.
  intros Hblk pos stash2 newval. unfold PathORAM.access.
  rewrite decide_False by lia. fold pos.
  by rewrite logical_op_unfold.
Qed.

Lemma slot_holds_ext (bs bs' : list Bucket) (n z : nat) k v :
  bs' !! n = bs !! n →
  PathORAM.slot_holds bs n z k v → PathORAM.slot_holds bs' n z k v.
Proof. intros Heq (b & Hb & Hz). exists b. by rewrite Heq. Qed.

Lemma elem_of_reverse_levels (l : Z) : l ∈ reverse levels ↔ l ∈ levels.
Proof. apply elem_of_reverse. Qed.

(** [writePath] on a state whose stash holds valid ids. *)
Lemma writePath_spec (pos : Z) (st : ORAM) :
  0 ≤ pos < leaf_count →
  length (buckets st) = Z.to_nat bucket_count →
  (∀ k v, stash st !! k = Some v → 0 ≤ k < block_count_N) →
  PathORAM.path_written HeightL pos (reverse levels) st (writePath pos st).
Proof.
  intros Hpos Hlen Hids. apply foldl_writePath_level.
  - rewrite reverse_Permutation. apply NoDup_levels.
  - intros l l' Hl%elem_of_reverse_levels%elem_of_levels
           Hl'%elem_of_reverse_levels%elem_of_levels Heq.
    by apply (path_node_inj pos pos l l').
  - intros l Hl%elem_of_reverse_levels. rewrite Hlen. by apply path_node_lt.
  - intros k v Hk%Hids. pose proof block_count_N_lt.
    unfold IDBlock.invalid_block. lia.
Qed.

(** The main lemma: a call with an id in range returns, keeps the
    invariant, gives the accessed block its new data and leaves the data of
    every other block as it was. *)
Lemma access_spec (op : Op) (blk : Z) (b : Block) (st : ORAM) :
  wf st → 0 ≤ blk < block_count_N →
  ∃ newval st',
    access op blk b st = (Returned newval, st')
    ∧ wf st'
    ∧ match op with
      | Write => newval = b
      | Read => (∃ v, PathORAM.holds st blk v ∧ newval = v)
                ∨ ((∀ v, ¬ PathORAM.holds st blk v) ∧ newval = zero_block)
      end
    ∧ (∀ v, PathORAM.holds st' blk v ↔ v = newval)
    ∧ (∀ k v, k ≠ blk → PathORAM.holds st' k v ↔ PathORAM.holds st k v).
Proof.
  intros Hwf Hblk. rewrite access_unfold by lia. cbv zeta.
  set (pos := position_map st !!! Z.to_nat blk).
  set (stash2 := stash st ∪ list_to_map (path_blocks pos (buckets st))).
  set (newval := match op with
                 | Read => default zero_block (stash2 !! blk)
                 | Write => b
                 end).
  match goal with
  | |- context [writePath pos ?s] => set (st3 := s)
  end.
  set (st4 := writePath pos st3).
  exists newval, st4. split; [done|].
  assert (0 ≤ pos < leaf_count) as Hpos by (by apply wf_leaf).
  assert (0 ≤ mt st 0%nat < leaf_count) as Hdraw.
  { pose proof (PathORAM.wf_mt _ _ _ Hwf 0%nat) as Hg.
    unfold PathORAM.leaf_dist_min in Hg. rewrite leaf_dist_max_eq in Hg. lia. }
  assert (∀ l, l ∈ levels → (path_node pos l < length (buckets st))%nat)
    as Hnodes.
  { intros l Hl. rewrite (PathORAM.wf_buckets _ _ _ Hwf).
    by apply path_node_lt. }
  (* the stash after [readPath] *)
  assert (∀ k v, stash2 !! k = Some v
                 ↔ stash st !! k = Some v
                   ∨ ∃ l z, l ∈ levels
                       ∧ PathORAM.slot_holds (buckets st) (path_node pos l) z k v)
    as Hs2.
  { intros k v. unfold stash2. rewrite lookup_union_Some_raw. split.
    - intros [?|[_ Hk]]; [by left|right].
      apply elem_of_list_to_map_2 in Hk. by apply elem_of_path_blocks in Hk.
    - intros [?|(l & z & Hl & Hslot)]; [by left|right].
      split.
      + destruct (stash st !! k) as [w|] eqn:Hw; [|done].
        by destruct (PathORAM.wf_stash_tree _ _ _ Hwf _ _ _ _ _ Hw Hslot).
      + destruct (list_to_map (path_blocks pos (buckets st)) !! k)
          as [w|] eqn:Hw.
        * pose proof Hw as Hw'. apply elem_of_list_to_map_2 in Hw'.
          apply elem_of_path_blocks in Hw' as (l' & z' & Hl' & Hslot');
            [|done].
          destruct (PathORAM.wf_tree_unique _ _ _ Hwf _ _ _ _ _ _ _
                      Hslot Hslot') as [Hn ->].
          rewrite <- Hn in Hslot'.
          by destruct (slot_holds_functional _ _ _ _ _ _ _ Hslot Hslot')
            as [_ ->].
        * apply not_elem_of_list_to_map in Hw. exfalso. apply Hw.
          apply list_elem_of_fmap. exists (k, v). split; [done|].
          apply elem_of_path_blocks; eauto. }
  (* the stash after the logical operation *)
  assert (∀ k v, stash st3 !! k = Some v
                 ↔ if decide (k = blk) then v = newval
                   else stash2 !! k = Some v) as Hs3.
  { intros k v. simpl. case_decide as Hk.
    - subst k. rewrite lookup_insert_eq.
      split; [by intros [= ->]|by intros ->].
    - by rewrite lookup_insert_ne. }
  assert (∀ k v, stash st3 !! k = Some v → 0 ≤ k < block_count_N) as Hs3_ids.
  { intros k v Hk. apply Hs3 in Hk. case_decide; [by subst|].
    apply Hs2 in Hk as [Hk|(l & z & _ & Hslot)].
    - by eapply PathORAM.wf_stash_ids.
    - by eapply PathORAM.wf_tree_ids. }
  (* the accessed block is nowhere off its old path *)
  assert (∀ n z v, PathORAM.slot_holds (buckets st) n z blk v →
                   ∃ l, l ∈ levels ∧ n = path_node pos l) as Hblk_path.
  { intros n z v Hslot.
    destruct (PathORAM.wf_path _ _ _ Hwf _ _ _ _ Hslot) as (h & Hh & ->).
    exists h. split; [by apply elem_of_levels|done]. }
  assert (∀ k v n z v', stash st3 !! k = Some v →
            (∀ l, l ∈ levels → n ≠ path_node pos l) →
            ¬ PathORAM.slot_holds (buckets st) n z k v') as Hdisj.
  { intros k v n z v' Hk Hoff Hslot. apply Hs3 in Hk. case_decide as Hkb.
    - subst k. destruct (Hblk_path _ _ _ Hslot) as (l & Hl & ->).
      by apply (Hoff l).
    - apply Hs2 in Hk as [Hk|(l & z' & Hl & Hslot')].
      + by apply (PathORAM.wf_stash_tree _ _ _ Hwf _ _ _ _ _ Hk Hslot).
      + destruct (PathORAM.wf_tree_unique _ _ _ Hwf _ _ _ _ _ _ _
                    Hslot Hslot') as [-> _].
        by apply (Hoff l). }
  (* the state after [writePath] *)
  destruct (writePath_spec pos st3 Hpos (PathORAM.wf_buckets _ _ _ Hwf) Hs3_ids)
    as [Hp Hm Ht Hlen Hfr Hsub Hpl Hkp Hun].
  fold st4 in Hp, Hm, Ht, Hlen, Hfr, Hsub, Hpl, Hkp, Hun.
  simpl in Hp, Hm, Hlen, Hfr.
  assert (∀ n z k v, (∀ l, l ∈ levels → n ≠ path_node pos l) →
            PathORAM.slot_holds (buckets st4) n z k v
            ↔ PathORAM.slot_holds (buckets st) n z k v) as Hoff4.
  { intros n z k v Hoff.
    assert (buckets st4 !! n = buckets st !! n) as Heq.
    { apply Hfr. intros l Hl%elem_of_reverse_levels. by apply Hoff. }
    split; by apply slot_holds_ext. }
  assert (∀ l z k v, l ∈ levels →
            PathORAM.slot_holds (buckets st4) (path_node pos l) z k v →
            stash st3 !! k = Some v ∧ stash st4 !! k = None
            ∧ getNodeOnPath (position_map st4 !!! Z.to_nat k) l
              = getNodeOnPath pos l) as Hon4.
  { intros l z k v Hl Hslot. rewrite Hp.
    apply (Hpl l z k v); [by apply elem_of_reverse_levels|done]. }
  assert (∀ k v, PathORAM.holds st4 k v
                 ↔ stash st3 !! k = Some v
                   ∨ ∃ n z, (∀ l, l ∈ levels → n ≠ path_node pos l)
                            ∧ PathORAM.slot_holds (buckets st) n z k v)
    as Hholds4.
  { intros k v. split.
    - intros [Hk|(n & z & Hslot)]; [left; by apply Hsub|].
      destruct (on_path_dec pos n) as [(l & Hl & ->)|Hoff].
      + left. by apply (Hon4 l z k v).
      + right. exists n, z. split; [done|]. by apply Hoff4.
    - intros [Hk|(n & z & Hoff & Hslot)].
      + destruct (Hkp k v Hk) as [?|(l & z & _ & Hslot)]; [by left|].
        right. eauto.
      + right. exists n, z. by apply Hoff4. }
  split; [|split; [|split]].
  - (* the invariant *)
    split.
    + by rewrite Hlen, (PathORAM.wf_buckets _ _ _ Hwf).
    + by rewrite Hp, length_insert, (PathORAM.wf_position_map _ _ _ Hwf).
    + intros i p. rewrite Hp. intros Hi.
      apply list_lookup_insert_Some in Hi as [(_ & <- & _)|[_ Hi]]; [done|].
      by eapply PathORAM.wf_leaves.
    + rewrite Hm. intros k. apply (PathORAM.wf_mt _ _ _ Hwf).
    + intros k v Hk. by eapply Hs3_ids, Hsub.
    + intros n z k v Hslot.
      assert (PathORAM.holds st4 k v) as Hh by (right; eauto).
      apply Hholds4 in Hh as [Hk|(n' & z' & _ & Hslot')].
      * by eapply Hs3_ids.
      * by eapply PathORAM.wf_tree_ids.
    + intros n z k v Hslot.
      destruct (on_path_dec pos n) as [(l & Hl & ->)|Hoff].
      * destruct (Hon4 l z k v Hl Hslot) as (_ & _ & Hnode).
        exists l. split; [by apply elem_of_levels|].
        unfold PathORAM.path_node. by rewrite Hnode.
      * apply Hoff4 in Hslot; [|done].
        destruct (PathORAM.wf_path _ _ _ Hwf _ _ _ _ Hslot) as (h & Hh & Hn).
        exists h. split; [done|]. rewrite Hp.
        pose proof (PathORAM.wf_tree_ids _ _ _ Hwf _ _ _ _ Hslot) as Hk.
        rewrite list_lookup_total_insert_ne; [done|].
        intros Heq. apply Z2Nat.inj in Heq; [|lia|lia]. subst k.
        destruct (Hblk_path _ _ _ Hslot) as (l & Hl & ->).
        by apply (Hoff l).
    + intros n z k v v' Hk Hslot.
      destruct (on_path_dec pos n) as [(l & Hl & ->)|Hoff].
      * destruct (Hon4 l z k v' Hl Hslot) as (_ & Hnone & _). congruence.
      * apply Hoff4 in Hslot; [|done].
        by apply (Hdisj k v n z v' (Hsub _ _ Hk) Hoff).
    + intros n z n' z' k v v' Hslot Hslot'.
      destruct (on_path_dec pos n) as [(l & Hl & ->)|Hoff];
        destruct (on_path_dec pos n') as [(l' & Hl' & ->)|Hoff'].
      * destruct (Hun l z l' z' k v v') as [-> ->];
          [by apply elem_of_reverse_levels|by apply elem_of_reverse_levels
          |done|done|done].
      * exfalso. apply Hoff4 in Hslot'; [|done].
        destruct (Hon4 l z k v Hl Hslot) as (Hk & _).
        by apply (Hdisj k v n' z' v' Hk Hoff').
      * exfalso. apply Hoff4 in Hslot; [|done].
        destruct (Hon4 l' z' k v' Hl' Hslot') as (Hk & _).
        by apply (Hdisj k v' n z v Hk Hoff).
      * apply Hoff4 in Hslot, Hslot'; [|done|done].
        by eapply PathORAM.wf_tree_unique.
  - (* the value returned *)
    destruct op; [|done]. subst newval.
    destruct (stash2 !! blk) as [v|] eqn:Hv.
    + left. exists v. split; [|done].
      apply Hs2 in Hv as [?|(l & z & _ & Hslot)]; [by left|right; eauto].
    + right. split; [|done]. intros v Hheld.
      assert (stash2 !! blk = Some v) as Hv'; [|congruence].
      apply Hs2. destruct Hheld as [?|(n & z & Hslot)]; [by left|right].
      destruct (Hblk_path _ _ _ Hslot) as (l & Hl & ->). eauto.
  - (* the accessed block *)
    intros v. rewrite Hholds4. split.
    + intros [Hk|(n & z & Hoff & Hslot)].
      * apply Hs3 in Hk. by rewrite decide_True in Hk.
      * destruct (Hblk_path _ _ _ Hslot) as (l & Hl & ->).
        by destruct (Hoff l).
    + intros ->. left. apply Hs3. by rewrite decide_True.
  - (* the other blocks *)
    intros k v Hk. rewrite Hholds4. split.
    + intros [Hk3|(n & z & _ & Hslot)]; [|right; eauto].
      apply Hs3 in Hk3. rewrite decide_False in Hk3 by done.
      apply Hs2 in Hk3 as [?|(l & z & _ & Hslot)]; [by left|right; eauto].
    + intros [Hk0|(n & z & Hslot)].
      * left. apply Hs3. rewrite decide_False by done. apply Hs2. by left.
      * destruct (on_path_dec pos n) as [(l & Hl & ->)|Hoff].
        -- left. apply Hs3. rewrite decide_False by done. apply Hs2.
           right. eauto.
        -- right. eauto.
Qed.

(** ** The constructor *)

Lemma foldl_new_entry (n a : nat) (st : ORAM) :
  (a + n ≤ length (position_map st))%nat →
  foldl PathORAM.new_entry st (seq a n)
  = mkORAM (buckets st)
           (take a (position_map st) ++ (mt st <$> seq 0 n)
              ++ drop (a + n) (position_map st))
           (stash st) (λ k, mt st (n + k)%nat) (trace st).
Proof.
  revert a st. induction n as [|n IH]; intros a st Hlen.
  - destruct st as [bs pm s g t]. simpl. f_equal.
    by rewrite Nat.add_0_r, take_drop.
  - simpl seq. simpl foldl. rewrite IH.
    2:{ unfold PathORAM.new_entry. simpl. rewrite length_insert. lia. }
    unfold PathORAM.new_entry, PathORAM.randomPath, leaf_dist. simpl.
    f_equal.
    rewrite (take_S_r _ _ (mt st 0%nat))
      by (apply list_lookup_insert_eq; lia).
    rewrite take_insert_ge, drop_insert_lt by lia.
    rewrite <- fmap_S_seq, <- list_fmap_compose, <- app_assoc.
    simpl. do 3 f_equal. f_equal. lia.
Qed.

Lemma PathORAM_new_eq (g : Generator) :
  PathORAM_new g
  = mkORAM (replicate (Z.to_nat bucket_count)
                      (PathORAM.default_Bucket BlockSizeB BucketSizeZ))
           (g <$> seq 0 (Z.to_nat block_count_N)) ∅
           (λ k, g (Z.to_nat block_count_N + k)%nat) [].
Proof.
  unfold PathORAM.new. rewrite foldl_new_entry.
  - simpl. f_equal. rewrite drop_ge, app_nil_r; [done|].
    by rewrite length_replicate.
  - simpl. by rewrite length_replicate.
Qed.

Lemma PathORAM_new_empty (g : Generator) (n z : nat) (k : Z) (v : Block) :
  ¬ PathORAM.slot_holds (buckets (PathORAM_new g)) n z k v.
Proof.
  rewrite PathORAM_new_eq. simpl. intros (b & Hb & Hz & Hv).
  apply lookup_replicate in Hb as [-> _].
  apply lookup_replicate in Hz as [Hz _].
  unfold PathORAM.default_IDBlock in Hz. by injection Hz as Hk _.
Qed.

Lemma PathORAM_new_wf (g : Generator) : generator_ok g → wf (PathORAM_new g).
Proof.
  intros Hg. split.
  - rewrite PathORAM_new_eq. simpl. by rewrite length_replicate.
  - rewrite PathORAM_new_eq. simpl. by rewrite length_fmap, length_seq.
  - rewrite PathORAM_new_eq. simpl. intros i p Hi.
    rewrite list_lookup_fmap in Hi.
    destruct (seq _ _ !! i) as [j|]; [|done]. injection Hi as <-.
    pose proof (Hg j) as Hj. unfold PathORAM.leaf_dist_min in Hj.
    rewrite leaf_dist_max_eq in Hj. lia.
  - rewrite PathORAM_new_eq. simpl. intros k. apply Hg.
  - rewrite PathORAM_new_eq. simpl. intros k v Hk.
    by rewrite lookup_empty in Hk.
  - intros n z k v Hslot. by apply PathORAM_new_empty in Hslot.
  - intros n z k v Hslot. by apply PathORAM_new_empty in Hslot.
  - intros n z k v v' _ Hslot. by apply PathORAM_new_empty in Hslot.
  - intros n z n' z' k v v' Hslot. by apply PathORAM_new_empty in Hslot.
Qed.

(** ** Sequences of calls *)

Lemma access_out_of_range (op : Op) (blk : Z) (b : Block) (st : ORAM) :
  block_count_N ≤ blk → access op blk b st = (Throw_out_of_range, st).
Proof. intros Hblk. unfold PathORAM.access. by rewrite decide_True. Qed.

Lemma run_snoc (calls : list PathORAM.Call) (c : PathORAM.Call) (st : ORAM) :
  run (calls ++ [c]) st
  = PathORAM.call HeightL BlockSizeB BucketSizeZ (run calls st) c.
Proof. unfold PathORAM.run. by rewrite foldl_snoc. Qed.

Lemma written_snoc (calls : list PathORAM.Call) (c : PathORAM.Call) :
  written (calls ++ [c])
  = PathORAM.written_step HeightL BucketSizeZ (written calls) c.
Proof. unfold PathORAM.written. by rewrite foldl_snoc. Qed.

(** The state after any sequence of calls satisfies the invariant, stores
    every block that was written with the data of its most recent write,
    and stores zeros for the blocks that were only read. *)
Lemma run_spec (g : Generator) (calls : list PathORAM.Call) :
  generator_ok g →
  Forall (λ c, 0 ≤ PathORAM.call_blk c) calls →
  let st := run calls (PathORAM_new g) in
  wf st
  ∧ (∀ k v, PathORAM.holds st k v →
            v = default zero_block (written calls !! k))
  ∧ (∀ k v, written calls !! k = Some v → PathORAM.holds st k v).
Proof.
  intros Hg. induction calls as [|c calls IH] using rev_ind; intros Hcalls.
  - simpl. split; [by apply PathORAM_new_wf|split].
    + intros k v [Hk|(n & z & Hslot)].
      * rewrite PathORAM_new_eq in Hk. simpl in Hk.
        by rewrite lookup_empty in Hk.
      * by apply PathORAM_new_empty in Hslot.
    + intros k v Hk. unfold PathORAM.written in Hk. simpl in Hk.
      by rewrite lookup_empty in Hk.
  - apply Forall_app in Hcalls as [Hcalls Hc].
    apply Forall_inv in Hc.
    destruct (IH Hcalls) as (Hwf & Hzero & Hwritten). clear IH.
    cbv zeta. rewrite run_snoc, written_snoc.
    set (st := run calls (PathORAM_new g)) in *.
    set (m := written calls) in *.
    destruct c as [op blk b]. simpl in Hc.
    unfold PathORAM.call, PathORAM.written_step. simpl.
    destruct (decide (block_count_N ≤ blk)) as [Hout|Hin].
    + rewrite access_out_of_range by done. simpl. by destruct op.
    + destruct (access_spec op blk b st Hwf) as
        (newval & st' & Heq & Hwf' & Hval & Hblk & Hother); [lia|].
      rewrite Heq. simpl. split; [done|].
      destruct op.
      * assert (newval = default zero_block (m !! blk)) as Hnew.
        { destruct Hval as [(w & Hw & ->)|[Hnone ->]]; [by apply Hzero|].
          destruct (m !! blk) as [w|] eqn:Hw; [|done].
          by destruct (Hnone w (Hwritten _ _ Hw)). }
        split.
        -- intros k v Hk. destruct (decide (k = blk)) as [->|Hne].
           ++ by apply Hblk in Hk as ->.
           ++ apply Hother in Hk; [|done]. by apply Hzero.
        -- intros k v Hk. destruct (decide (k = blk)) as [->|Hne].
           ++ apply Hblk. by rewrite Hnew, Hk.
           ++ apply Hother; [done|]. by apply Hwritten.
      * subst newval. split.
        -- intros k v Hk. destruct (decide (k = blk)) as [->|Hne].
           ++ apply Hblk in Hk as ->. by rewrite lookup_insert_eq.
           ++ rewrite lookup_insert_ne by done.
              apply Hother in Hk; [|done]. by apply Hzero.
        -- intros k v Hk. destruct (decide (k = blk)) as [->|Hne].
           ++ rewrite lookup_insert_eq in Hk. injection Hk as <-.
              by apply Hblk.
           ++ rewrite lookup_insert_ne in Hk by done.
              apply Hother; [done|]. by apply Hwritten.
Qed.

Lemma written_reads (calls : list PathORAM.Call) (R : list Z) :
  written (calls ++ PathORAM.reads BlockSizeB R) = written calls.
Proof.
  induction R as [|k R IH] using rev_ind.
  - by rewrite app_nil_r.
  - unfold PathORAM.reads in *. rewrite fmap_app, app_assoc. simpl.
    by rewrite written_snoc, IH.
Qed.

Lemma written_writes (before : list PathORAM.Call)
      (W : list (Z * Block)) (id : Z) :
  Forall (λ w, 0 ≤ w.1 < block_count_N) W →
  written (before ++ PathORAM.writes W) !! id
  = match PathORAM.last_write W id with
    | Some v => Some v
    | None => written before !! id
    end.
Proof.
  unfold PathORAM.last_write.
  induction W as [|[k v] W IH] using rev_ind; intros HW.
  - simpl. by rewrite app_nil_r.
  - apply Forall_app in HW as [HW Hw]. apply Forall_inv in Hw. simpl in Hw.
    unfold PathORAM.writes in *. rewrite fmap_app, app_assoc. simpl.
    rewrite written_snoc. unfold PathORAM.written_step. simpl.
    rewrite decide_False by lia. rewrite filter_app.
    destruct (decide (k = id)) as [->|Hne].
    + rewrite lookup_insert_eq, filter_cons_True by done.
      by rewrite filter_nil, last_snoc.
    + rewrite lookup_insert_ne, filter_cons_False by done.
      rewrite filter_nil, app_nil_r. by apply IH.
Qed.

Lemma last_write_is_Some (W : list (Z * Block)) (id : Z) :
  id ∈ W.*1 → is_Some (PathORAM.last_write W id).
Proof.
  intros Hid. apply list_elem_of_fmap in Hid as ([k v] & -> & Hin).
  unfold PathORAM.last_write.
  destruct (last _) as [w|] eqn:Hlast; [by eexists|].
  apply last_None in Hlast.
  assert ((k, v) ∈ filter (λ w : Z * Block, w.1 = (k, v).1) W) as Hf
    by (by apply list_elem_of_filter).
  rewrite Hlast in Hf. by apply elem_of_nil in Hf.
Qed.

(** A read returns what was last written to the block, or zeros. *)
Lemma read_spec (g : Generator) (calls : list PathORAM.Call) (id : Z) :
  generator_ok g →
  Forall (λ c, 0 ≤ PathORAM.call_blk c) calls →
  0 ≤ id < block_count_N →
  let st := run calls (PathORAM_new g) in
  (read id st).1 = Returned (default zero_block (written calls !! id))
  ∧ PathORAM.holds (read id st).2 id
      (default zero_block (written calls !! id)).
Proof.
  intros Hg Hcalls Hid st.
  destruct (run_spec g calls Hg Hcalls) as (Hwf & Hzero & Hwritten).
  fold st in Hwf, Hzero, Hwritten.
  destruct (access_spec Read id zero_block st Hwf Hid)
    as (newval & st' & Heq & _ & Hval & Hblk & _).
  unfold PathORAM.read. rewrite Heq. simpl.
  assert (newval = default zero_block (written calls !! id)) as <-.
  { destruct Hval as [(w & Hw & ->)|[Hnone ->]]; [by apply Hzero|].
    destruct (written calls !! id) as [w|] eqn:Hw; [|done].
    by destruct (Hnone w (Hwritten _ _ Hw)). }
  split; [done|]. by apply Hblk.
Qed.

(** C1 (functional correctness): after a sequence of writes [W] with ids in
    range, possibly repeated, whatever calls the engine served before [W]
    and whatever reads of ids in range follow it, [read(id)] of an id that
    appears in [W] returns the payload of the most recent write to [id] in
    [W]. *)
Theorem read_returns_last_write
        (g : Generator) (before : list PathORAM.Call)
        (W : list (Z * Block)) (R : list Z) (id : Z) :
  generator_ok g →
  Forall (λ c, 0 ≤ PathORAM.call_blk c) before →
  Forall (λ w, 0 ≤ w.1 < block_count_N) W →
  Forall (λ k, 0 ≤ k < block_count_N) R →
  id ∈ W.*1 →
  ∃ v, PathORAM.last_write W id = Some v
       ∧ (read id (run (before ++ PathORAM.writes W
                          ++ PathORAM.reads BlockSizeB R)
                       (PathORAM_new g))).1 = Returned v.
Proof.
  intros Hg Hbefore HW HR Hid.
  destruct (last_write_is_Some W id Hid) as [v Hv].
  exists v. split; [done|].
  assert (0 ≤ id < block_count_N) as Hrange.
  { apply list_elem_of_fmap in Hid as (w & -> & Hw).
    by apply (proj1 (Forall_forall _ _) HW). }
  destruct (read_spec g (before ++ PathORAM.writes W
                           ++ PathORAM.reads BlockSizeB R) id)
    as [Hread _]; [done| |done|].
  - apply Forall_app. split; [done|]. apply Forall_app. split.
    + unfold PathORAM.writes. apply Forall_fmap.
      eapply Forall_impl; [exact HW|]. simpl. lia.
    + unfold PathORAM.reads. apply Forall_fmap.
      eapply Forall_impl; [exact HR|]. simpl. lia.
  - rewrite Hread, app_assoc, written_reads, written_writes, Hv by done.
    done.
Qed.

Lemma written_never (calls : list PathORAM.Call) (id : Z) :
  (∀ c, c ∈ calls → PathORAM.call_op c = Write → PathORAM.call_blk c ≠ id) →
  written calls !! id = None.
Proof.
  induction calls as [|c calls IH] using rev_ind; intros Hnever.
  - unfold PathORAM.written. simpl. apply lookup_empty.
  - rewrite written_snoc. unfold PathORAM.written_step.
    assert (written calls !! id = None) as Hprev.
    { apply IH. intros c' Hc'. apply Hnever, elem_of_app. by left. }
    destruct (PathORAM.call_op c) eqn:Hop; [done|].
    case_decide; [done|].
    rewrite lookup_insert_ne; [done|].
    apply Hnever; [|done]. apply elem_of_app. right. by left.
Qed.

(** C5 (first touch): after any calls that never wrote [id], [read(id)] of
    an id in range returns (throws nothing) and gives the zero-filled
    payload; the logical operation of the read leaves [id] in the stash
    with a zero payload when the block was absent, and after the read the
    engine stores the block [id] with that payload, like a written block. *)
Theorem first_touch_read
        (g : Generator) (calls : list PathORAM.Call) (id : Z) :
  generator_ok g →
  Forall (λ c, 0 ≤ PathORAM.call_blk c) calls →
  (∀ c, c ∈ calls → PathORAM.call_op c = Write → PathORAM.call_blk c ≠ id) →
  0 ≤ id < block_count_N →
  let st := run calls (PathORAM_new g) in
  let pos := position_map st !!! Z.to_nat id in
  (read id st).1 = Returned zero_block
  ∧ stash (PathORAM.apply_op BlockSizeB Read id zero_block
             (readPath pos (PathORAM.remap id st))).2 !! id
    = Some zero_block
  ∧ PathORAM.holds (read id st).2 id zero_block.
Proof.
  intros Hg Hcalls Hnever Hid st pos.
  destruct (read_spec g calls id Hg Hcalls Hid) as [Hread Hheld].
  fold st in Hread, Hheld.
  rewrite (written_never calls id Hnever) in Hread, Hheld. simpl in *.
  split; [done|split; [|done]].
  rewrite logical_op_unfold. simpl. rewrite lookup_insert_eq. f_equal.
  pose proof (access_unfold Read id zero_block st (proj2 Hid)) as Hacc.
  cbv zeta in Hacc. fold pos in Hacc. unfold PathORAM.read in Hread.
  rewrite Hacc in Hread. simpl in Hread. by injection Hread.
Qed.

(** ** Invariants of the reachable states *)

Lemma level_unique (x h h' : Z) :
  0 ≤ h' →
  2 ^ h ≤ x < 2 ^ (h + 1) → 2 ^ h' ≤ x < 2 ^ (h' + 1) → h = h'.
Proof.
  intros Hh' H1 H2.
  destruct (Z.lt_trichotomy h h') as [Hlt|[?|Hlt]]; [|done|].
  - destruct (decide (0 ≤ h + 1)).
    + assert (2 ^ (h + 1) ≤ 2 ^ h') by (apply Z.pow_le_mono_r; lia). lia.
    + rewrite (Z.pow_neg_r 2 (h + 1)) in H1 by lia.
      assert (0 < 2 ^ h') by (apply Z.pow_pos_nonneg; lia). lia.
  - assert (2 ^ (h' + 1) ≤ 2 ^ h) by (apply Z.pow_le_mono_r; lia). lia.
Qed.

(** C3 (block-path invariant): in the state after any sequence of calls,
    a block [k] stored in a slot of the tree bucket with heap index [node],
    a bucket of level [h], sits on the path to [position_map[k]]:
    [node = getNodeOnPath(position_map[k], h)]. *)
Theorem block_path_invariant
        (g : Generator) (calls : list PathORAM.Call)
        (node z : nat) (k : Z) (v : Block) (h : Z) :
  generator_ok g →
  Forall (λ c, 0 ≤ PathORAM.call_blk c) calls →
  let st := run calls (PathORAM_new g) in
  PathORAM.slot_holds (buckets st) node z k v →
  2 ^ h ≤ Z.of_nat node + 1 < 2 ^ (h + 1) →
  Z.of_nat node = getNodeOnPath (position_map st !!! Z.to_nat k) h.
Proof.
  intros Hg Hcalls st Hslot Hlevel.
  destruct (run_spec g calls Hg Hcalls) as (Hwf & _). fold st in Hwf.
  destruct (PathORAM.wf_path _ _ _ Hwf _ _ _ _ Hslot) as (h' & Hh' & Hnode).
  pose proof (PathORAM.wf_tree_ids _ _ _ Hwf _ _ _ _ Hslot) as Hk.
  pose proof (wf_leaf st k Hwf Hk) as Hleaf.
  pose proof (getNodeOnPath_level _ h' Hleaf Hh') as Hlevel'.
  pose proof (getNodeOnPath_range _ h' Hleaf Hh') as Hrange.
  unfold PathORAM.path_node in Hnode.
  assert (Z.of_nat node = getNodeOnPath (position_map st !!! Z.to_nat k) h')
    as Heq by lia.
  rewrite <- Heq in Hlevel'.
  by rewrite (level_unique _ h h' (proj1 Hh') Hlevel Hlevel').
Qed.

(** C4 (no duplication): in the state after any sequence of calls, an id
    of the stash occupies no slot of the tree, the stash holds each of
    its ids once, and the slots of the tree that hold a given id are one
    slot at most. *)
Theorem no_duplication (g : Generator) (calls : list PathORAM.Call) :
  generator_ok g →
  Forall (λ c, 0 ≤ PathORAM.call_blk c) calls →
  let st := run calls (PathORAM_new g) in
  (∀ k v node z v',
      stash st !! k = Some v → ¬ PathORAM.slot_holds (buckets st) node z k v')
  ∧ NoDup (stash_keys (stash st))
  ∧ (∀ k node z v node' z' v',
        PathORAM.slot_holds (buckets st) node z k v →
        PathORAM.slot_holds (buckets st) node' z' k v' →
        node = node' ∧ z = z').
Proof.
  intros Hg Hcalls st.
  destruct (run_spec g calls Hg Hcalls) as (Hwf & _). fold st in Hwf.
  split; [|split].
  - intros k v node z v'. apply (PathORAM.wf_stash_tree _ _ _ Hwf).
  - apply NoDup_stash_keys.
  - intros k node z v node' z' v'. apply (PathORAM.wf_tree_unique _ _ _ Hwf).
Qed.

(** ** Errors *)

(** C6 (out of range): a call [access], [read] or [write] with
    [blk >= block_count_N] throws [out_of_range] and leaves the whole
    state, generator included, as it was; a call with
    [blk < block_count_N] returns, in particular with
    [blk = block_count_N - 1] when there is a block at all. *)
Theorem out_of_range_calls (op : Op) (blk : Z) (b : Block) (st : ORAM) :
  (block_count_N ≤ blk →
   access op blk b st = (Throw_out_of_range, st)
   ∧ read blk st = (Throw_out_of_range, st)
   ∧ write blk b st = (Throw_out_of_range, st))
  ∧ (blk < block_count_N →
     (∃ b', (access op blk b st).1 = Returned b')
     ∧ (∃ b', (read blk st).1 = Returned b')
     ∧ (write blk b st).1 = Returned tt)
  ∧ (0 < block_count_N →
     (∃ b', (access op (block_count_N - 1) b st).1 = Returned b')
     ∧ (∃ b', (read (block_count_N - 1) st).1 = Returned b')
     ∧ (write (block_count_N - 1) b st).1 = Returned tt).
Proof.
  assert (∀ blk', blk' < block_count_N →
            (∃ b', (access op blk' b st).1 = Returned b')
            ∧ (∃ b', (read blk' st).1 = Returned b')
            ∧ (write blk' b st).1 = Returned tt) as Hin.
  { intros blk' Hblk'. unfold PathORAM.read, PathORAM.write.
    rewrite !access_unfold by done. simpl. eauto. }
  split; [|split].
  - intros Hout. unfold PathORAM.read, PathORAM.write.
    by rewrite !access_out_of_range.
  - apply Hin.
  - intros HN. apply Hin. lia.
Qed.

(** ** Side effects of an access *)

Lemma foldl_writePath_level_effects (pos : Z) (ls : list Z) (st : ORAM) :
  let st' := foldl (PathORAM.writePath_level HeightL BlockSizeB BucketSizeZ pos)
                   st ls in
  position_map st' = position_map st
  ∧ mt st' = mt st
  ∧ trace st' = trace st ++ ((λ l, BucketWrite (getNodeOnPath pos l)) <$> ls)
  ∧ length (buckets st') = length (buckets st)
  ∧ (∀ n, (∀ l, l ∈ ls → n ≠ path_node pos l) →
          buckets st' !! n = buckets st !! n).
Proof.
  revert st. induction ls as [|l ls IH]; intros st; simpl.
  - by rewrite app_nil_r.
  - set (mid := PathORAM.writePath_level HeightL BlockSizeB BucketSizeZ
                  pos st l).
    destruct (IH mid) as (Hp & Hm & Ht & Hlen & Hfr).
    destruct (writePath_level_spec pos l st) as (sel & bucket & Heq & _).
    fold mid in Heq.
    assert (position_map mid = position_map st) as Hp' by (by rewrite Heq).
    assert (mt mid = mt st) as Hm' by (by rewrite Heq).
    assert (trace mid = trace st ++ [BucketWrite (getNodeOnPath pos l)])
      as Ht' by (by rewrite Heq).
    assert (buckets mid = <[path_node pos l := bucket]> (buckets st))
      as Hb' by (by rewrite Heq).
    rewrite Hp, Hm, Ht, Hlen, Hp', Hm', Ht', Hb'.
    rewrite length_insert, <- app_assoc. repeat split; [].
    intros n Hn. rewrite Hfr.
    + rewrite Hb'. apply list_lookup_insert_ne.
      intros Hnode. by apply (Hn l); [left|].
    + intros l' Hl'. apply Hn. by right.
Qed.

Lemma access_effects (op : Op) (blk : Z) (b : Block) (st : ORAM) :
  blk < block_count_N →
  let pos := position_map st !!! Z.to_nat blk in
  let st' := (access op blk b st).2 in
  position_map st' = <[Z.to_nat blk := mt st 0%nat]> (position_map st)
  ∧ mt st' = (λ k, mt st (S k))
  ∧ trace st' = trace st ++ access_events blk pos
  ∧ length (buckets st') = length (buckets st)
  ∧ (∀ n, (∀ l, l ∈ levels → n ≠ path_node pos l) →
          buckets st' !! n = buckets st !! n).
Proof.
  intros Hblk pos st'. unfold st'. rewrite access_unfold by done. simpl.
  fold pos. unfold PathORAM.writePath.
  match goal with
  | |- context [foldl _ ?s ?ls] =>
      destruct (foldl_writePath_level_effects pos ls s)
        as (Hp & Hm & Ht & Hlen & Hfr)
  end.
  rewrite Hp, Hm, Ht, Hlen. simpl. repeat split; [|].
  - unfold PathORAM.access_events. by rewrite <- app_assoc.
  - intros n Hn. rewrite Hfr; [done|].
    intros l Hl%elem_of_reverse_levels. by apply Hn.
Qed.


(** ** The sample space of the draws *)

Lemma leaf_dist_support_eq : leaf_dist_support = seqZ 0 leaf_count.
Proof.
  unfold PathORAM.leaf_dist_support. rewrite leaf_dist_max_eq.
  unfold PathORAM.leaf_dist_min. f_equal. lia.
Qed.

Lemma elem_of_tapes (n : nat) (tape : list Z) :
  tape ∈ tapes n
  ↔ length tape = n ∧ Forall (λ x, x ∈ leaf_dist_support) tape.
Proof.
  revert tape. induction n as [|n IH]; intros tape; simpl.
  - rewrite list_elem_of_singleton. split.
    + by intros ->.
    + by intros [->%nil_length_inv _].
  - rewrite list_elem_of_bind. split.
    + intros (x & Hin & Hx).
      apply list_elem_of_fmap in Hin as (tape' & -> & Htape').
      apply IH in Htape' as [Hlen Hall]. split; [simpl; lia|].
      by constructor.
    + intros [Hlen Hall]. destruct tape as [|x tape']; [done|].
      apply Forall_cons in Hall as [Hx Hall]. exists x. split; [|done].
      apply list_elem_of_fmap_2, IH. simpl in Hlen. split; [lia|done].
Qed.

Lemma NoDup_tapes (n : nat) : NoDup (tapes n).
Proof.
  induction n as [|n IH]; simpl.
  - apply NoDup_singleton.
  - apply NoDup_bind.
    + intros x1 x2 tape _ _ (t1 & -> & _)%list_elem_of_fmap
             (t2 & Heq & _)%list_elem_of_fmap.
      by injection Heq.
    + intros x _. apply NoDup_fmap_2; [|done]. by intros ?? [=].
    + unfold PathORAM.leaf_dist_support. apply NoDup_seqZ.
Qed.

Lemma reveal_app (pm r : list Z) (x : Z) (i : nat) :
  (i < length pm)%nat →
  PathORAM.reveal (length pm) i (pm ++ x :: r)
  = pm !!! i :: <[i := x]> pm ++ r.
Proof.
  intros Hi. unfold PathORAM.reveal.
  rewrite lookup_total_app_l by done.
  rewrite list_lookup_total_middle by done.
  rewrite take_app_length.
  rewrite (cons_middle x pm r), app_assoc.
  rewrite drop_app_length'; [done|].
  rewrite length_app. simpl. lia.
Qed.

(** Every tape of [n + S m] values splits into a position map of [n]
    entries, the next draw and the later draws. *)
Lemma tape_split (n m : nat) (tape : list Z) :
  length tape = (n + S m)%nat →
  ∃ pm x r, tape = pm ++ x :: r ∧ length pm = n ∧ length r = m.
Proof.
  intros Hlen. exists (take n tape).
  destruct (drop n tape) as [|x r] eqn:Hdrop.
  - apply (f_equal length) in Hdrop. rewrite length_drop in Hdrop.
    simpl in Hdrop. lia.
  - exists x, r. split; [|split].
    + rewrite <- Hdrop. symmetry. apply take_drop.
    + rewrite length_take. lia.
    + apply (f_equal length) in Hdrop. rewrite length_drop in Hdrop.
      simpl in Hdrop. lia.
Qed.

Lemma reveal_tapes (n m i : nat) :
  (i < n)%nat →
  PathORAM.reveal n i <$> tapes (n + S m) ≡ₚ tapes (S (n + m)).
Proof.
  intros Hi. apply NoDup_Permutation.
  - apply NoDup_fmap_2_strong; [|apply NoDup_tapes].
    intros t1 t2 [Hl1 _]%elem_of_tapes [Hl2 _]%elem_of_tapes Heq.
    destruct (tape_split n m t1 Hl1) as (pm1 & x1 & r1 & -> & Hpm1 & _).
    destruct (tape_split n m t2 Hl2) as (pm2 & x2 & r2 & -> & Hpm2 & _).
    rewrite <- Hpm1 in Heq at 1. rewrite <- Hpm2 in Heq at 1.
    rewrite !reveal_app in Heq by lia.
    injection Heq as Hy Heq.
    apply app_inj_1 in Heq as [Hpm Hr];
      [|rewrite !length_insert; lia].
    assert (x1 = x2) as ->.
    { apply (f_equal (λ l, l !!! i)) in Hpm.
      by rewrite !list_lookup_total_insert_eq in Hpm by lia. }
    assert (pm1 = pm2) as ->; [|by subst].
    apply (f_equal (λ l, <[i := pm1 !!! i]> l)) in Hpm.
    rewrite Hy in Hpm at 2.
    rewrite !list_insert_insert_eq in Hpm.
    rewrite !list_insert_id in Hpm; [done|..];
      apply list_lookup_lookup_total_lt; lia.
  - apply NoDup_tapes.
  - intros tape. rewrite list_elem_of_fmap. split.
    + intros (t & -> & Ht). pose proof Ht as [Hlen Hall]%elem_of_tapes.
      destruct (tape_split n m t Hlen) as (pm & x & r & -> & Hpm & Hr).
      rewrite <- Hpm at 1. rewrite reveal_app by lia.
      apply Forall_app in Hall as [Hall_pm Hall_r].
      apply Forall_cons in Hall_r as [Hx Hall_r].
      apply elem_of_tapes. split.
      * simpl. rewrite length_app, length_insert. lia.
      * apply Forall_cons. split.
        -- apply (proj1 (Forall_forall _ _) Hall_pm).
           apply list_elem_of_lookup_total_2. lia.
        -- apply Forall_app. split; [|done].
           by apply Forall_insert.
    + intros [Hlen Hall]%elem_of_tapes.
      destruct tape as [|y q]; [done|]. simpl in Hlen.
      apply Forall_cons in Hall as [Hy Hall].
      assert (length q = (n + m)%nat) as Hq by lia.
      set (pm := take n q). set (r := drop n q).
      assert (q = pm ++ r) as Hsplit by (unfold pm, r; by rewrite take_drop).
      assert (length pm = n) as Hpm by (unfold pm; rewrite length_take; lia).
      assert (length r = m) as Hr by (unfold r; rewrite length_drop; lia).
      rewrite Hsplit in Hall. apply Forall_app in Hall as [Hall_pm Hall_r].
      exists (<[i := y]> pm ++ pm !!! i :: r). split.
      * rewrite Hsplit.
        replace n with (length (<[i := y]> pm)) at 1
          by (by rewrite length_insert).
        rewrite reveal_app by (rewrite length_insert; lia).
        rewrite list_lookup_total_insert_eq by lia.
        rewrite list_insert_insert_eq, list_insert_id; [done|].
        apply list_lookup_lookup_total_lt. lia.
      * apply elem_of_tapes. split.
        -- rewrite length_app, length_insert. simpl. lia.
        -- apply Forall_app. split; [by apply Forall_insert|].
           apply Forall_cons. split; [|done].
           apply (proj1 (Forall_forall _ _) Hall_pm).
           apply list_elem_of_lookup_total_2. lia.
Qed.

(** ** The buckets touched by a sequence of calls *)

Lemma bind_touched_reads (f : Z → Z) (ls : list Z) :
  ((λ l, BucketRead (f l)) <$> ls) ≫= touched = f <$> ls.
Proof. induction ls as [|l ls IH]; csimpl; [done|]. by rewrite IH. Qed.

Lemma bind_touched_writes (f : Z → Z) (ls : list Z) :
  ((λ l, BucketWrite (f l)) <$> ls) ≫= touched = f <$> ls.
Proof. induction ls as [|l ls IH]; csimpl; [done|]. by rewrite IH. Qed.

Lemma touched_access_events (blk pos : Z) :
  access_events blk pos ≫= touched = path_touched pos.
Proof.
  unfold PathORAM.access_events, PathORAM.path_touched. csimpl.
  by rewrite bind_app, bind_touched_reads, bind_touched_writes.
Qed.

Lemma touched_run (calls : list PathORAM.Call) (st : ORAM) :
  Forall (λ c, PathORAM.call_blk c < block_count_N) calls →
  trace (run calls st) ≫= touched
  = (trace st ≫= touched)
      ++ (PathORAM.leaf_trace (PathORAM.call_blk <$> calls)
            (position_map st) (mt st) ≫= path_touched).
Proof.
  revert st. induction calls as [|c calls IH]; intros st Hcalls.
  - simpl. by rewrite app_nil_r.
  - apply Forall_cons in Hcalls as [Hc Hcalls].
    change (run (c :: calls) st)
      with (run calls (PathORAM.call HeightL BlockSizeB BucketSizeZ st c)).
    rewrite IH by done. unfold PathORAM.call.
    destruct (access_effects (PathORAM.call_op c) (PathORAM.call_blk c)
                (PathORAM.call_data c) st Hc) as (Hp & Hm & Ht & _).
    rewrite Hp, Hm, Ht. csimpl.
    by rewrite bind_app, touched_access_events, <- app_assoc.
Qed.

Lemma leaf_trace_ext (ids pm : list Z) (g g' : Generator) :
  (∀ k, g k = g' k) →
  PathORAM.leaf_trace ids pm g = PathORAM.leaf_trace ids pm g'.
Proof.
  revert pm g g'. induction ids as [|blk ids IH]; intros pm g g' Hg; simpl.
  - done.
  - rewrite Hg. f_equal. apply IH. intros k. apply Hg.
Qed.

Lemma generator_of_take (n : nat) (tape : list Z) :
  (n ≤ length tape)%nat →
  PathORAM.generator_of tape <$> seq 0 n = take n tape.
Proof.
  intros Hn. apply list_eq. intros i.
  rewrite list_lookup_fmap. destruct (decide (i < n)%nat) as [Hi|Hi].
  - rewrite lookup_seq_lt, lookup_take_lt by done. simpl.
    unfold PathORAM.generator_of. symmetry.
    apply list_lookup_lookup_total_lt. lia.
  - rewrite lookup_seq_ge, lookup_take_ge by lia. done.
Qed.

(** The leaves walked on a tape: the position map is the first
    [block_count_N] values, the later values are the draws of the calls. *)
Lemma touched_trace_tape (calls : list PathORAM.Call) (tape : list Z) :
  Forall (λ c, PathORAM.call_blk c < block_count_N) calls →
  (Z.to_nat block_count_N ≤ length tape)%nat →
  touched_trace calls (PathORAM.generator_of tape)
  = PathORAM.leaf_trace (PathORAM.call_blk <$> calls)
      (take (Z.to_nat block_count_N) tape)
      (PathORAM.generator_of (drop (Z.to_nat block_count_N) tape))
    ≫= path_touched.
Proof.
  intros Hcalls Hlen. unfold PathORAM.touched_trace.
  rewrite touched_run by done. rewrite PathORAM_new_eq. simpl.
  rewrite generator_of_take by done. f_equal.
  apply leaf_trace_ext. intros k. unfold PathORAM.generator_of.
  by rewrite lookup_total_drop.
Qed.

(** ** The leaves walked do not depend on the calls *)

Lemma fmap_bind_comm {A B C} (f : B → C) (g : A → list B) (l : list A) :
  f <$> (l ≫= g) = l ≫= (λ x, f <$> g x).
Proof.
  induction l as [|x l IH]; csimpl; [done|]. by rewrite fmap_app, IH.
Qed.

Lemma bind_Permutation_ext {A B} (f g : A → list B) (l : list A) :
  (∀ x, f x ≡ₚ g x) → l ≫= f ≡ₚ l ≫= g.
Proof.
  intros Hfg. induction l as [|x l IH]; csimpl; [done|].
  by rewrite Hfg, IH.
Qed.

Lemma length_filter_fmap {A B} (f : A → B) (P : A → Prop) (Q : B → Prop)
      `{∀ x, Decision (P x)} `{∀ y, Decision (Q y)} (l : list A) :
  Forall (λ x, P x ↔ Q (f x)) l →
  length (filter P l) = length (filter Q (f <$> l)).
Proof.
  induction 1 as [|x l Hx Hl IH]; [done|]. csimpl.
  destruct (decide (P x)) as [HP|HP].
  - rewrite filter_cons_True, (filter_cons_True Q) by tauto. simpl.
    by rewrite IH.
  - rewrite filter_cons_False, (filter_cons_False Q) by tauto. done.
Qed.

Lemma tape_leaves_reveal (blk : Z) (ids : list Z) (m : nat) (tape : list Z) :
  0 ≤ blk < block_count_N →
  tape ∈ tapes (Z.to_nat block_count_N + S m) →
  tape_leaves (blk :: ids) tape
  = hd 0 (PathORAM.reveal (Z.to_nat block_count_N) (Z.to_nat blk) tape)
    :: tape_leaves ids
         (tl (PathORAM.reveal (Z.to_nat block_count_N) (Z.to_nat blk) tape)).
Proof.
  intros Hblk Htape.
  assert (Z.to_nat blk < Z.to_nat block_count_N)%nat as Hi by lia.
  unfold PathORAM.tape_leaves. cbn [PathORAM.leaf_trace].
  revert Htape Hi. generalize (Z.to_nat block_count_N) as n.
  generalize (Z.to_nat blk) as i.
  intros i n [Hlen _]%elem_of_tapes Hi.
  destruct (tape_split n m tape Hlen) as (pm & x & r & -> & <- & _).
  rewrite reveal_app by done. simpl.
  rewrite take_app_length, drop_app_length.
  rewrite take_app_length', drop_app_length' by (by rewrite length_insert).
  done.
Qed.

Lemma tape_leaves_cons (blk : Z) (ids : list Z) (m : nat) :
  0 ≤ blk < block_count_N →
  tape_leaves (blk :: ids) <$> tapes (Z.to_nat block_count_N + S m)
  ≡ₚ x ← leaf_dist_support;
     cons x <$> (tape_leaves ids <$> tapes (Z.to_nat block_count_N + m)).
Proof.
  intros Hblk.
  set (n := Z.to_nat block_count_N). set (i := Z.to_nat blk).
  set (f := λ tape, hd 0 tape :: tape_leaves ids (tl tape)).
  assert (tape_leaves (blk :: ids) <$> tapes (n + S m)
          = f <$> (PathORAM.reveal n i <$> tapes (n + S m))) as ->.
  { rewrite <- list_fmap_compose.
    apply Forall_fmap_ext_1, Forall_forall. intros tape Htape.
    by apply (tape_leaves_reveal blk ids m). }
  rewrite reveal_tapes by (unfold n, i; lia).
  simpl. rewrite fmap_bind_comm. apply bind_Permutation_ext. intros x.
  by rewrite <- !list_fmap_compose.
Qed.

Lemma tape_leaves_Permutation (ids ids' : list Z) :
  length ids = length ids' →
  Forall (λ blk, 0 ≤ blk < block_count_N) ids →
  Forall (λ blk, 0 ≤ blk < block_count_N) ids' →
  tape_leaves ids <$> tapes (Z.to_nat block_count_N + length ids)
  ≡ₚ tape_leaves ids' <$> tapes (Z.to_nat block_count_N + length ids').
Proof.
  revert ids'. induction ids as [|blk ids IH]; intros [|blk' ids'] Hlen H1 H2;
    try done.
  apply Forall_cons in H1 as [Hblk H1].
  apply Forall_cons in H2 as [Hblk' H2].
  simpl length. rewrite !tape_leaves_cons by done.
  apply bind_Permutation_ext. intros x.
  rewrite (IH ids'); [done| |done|done]. simpl in Hlen. lia.
Qed.

(** C2 (obliviousness): for two sequences of calls of the same length whose
    ids are all in range, every trace of touched bucket indices has the
    same number of outcomes of the uniform draws (those of the constructor
    and one per call) under both sequences, hence the same probability:
    the distribution of the trace does not depend on the operations, the
    ids or the payloads. *)
Theorem trace_distribution_independent
        (calls1 calls2 : list PathORAM.Call) (t : list Z) :
  length calls1 = length calls2 →
  Forall (λ c, 0 ≤ PathORAM.call_blk c < block_count_N) calls1 →
  Forall (λ c, 0 ≤ PathORAM.call_blk c < block_count_N) calls2 →
  trace_count calls1 t = trace_count calls2 t.
Proof.
  assert (∀ calls,
            Forall (λ c, 0 ≤ PathORAM.call_blk c < block_count_N) calls →
            trace_count calls t
            = length (filter (λ leaves, leaves ≫= path_touched = t)
                        (tape_leaves (PathORAM.call_blk <$> calls)
                           <$> tapes (Z.to_nat block_count_N
                                      + length (PathORAM.call_blk <$> calls)))))
    as Hcount.
  { intros calls Hcalls. unfold PathORAM.trace_count.
    rewrite length_fmap. apply length_filter_fmap.
    apply Forall_forall. intros tape [Hlen _]%elem_of_tapes.
    rewrite touched_trace_tape; [done| |lia].
    eapply Forall_impl; [exact Hcalls|]. simpl. lia. }
  intros Hlen H1 H2. rewrite !Hcount by done.
  rewrite (tape_leaves_Permutation (PathORAM.call_blk <$> calls1)
                                   (PathORAM.call_blk <$> calls2)).
  - done.
  - by rewrite !length_fmap.
  - by apply Forall_fmap.
  - by apply Forall_fmap.
Qed.

(** ** Each draw is uniform *)

Lemma length_filter_bind_const {A B} (P : B → Prop) `{∀ y, Decision (P y)}
      (f : A → list B) (l : list A) (c : nat) :
  (∀ x, x ∈ l → length (filter P (f x)) = c) →
  length (filter P (l ≫= f)) = (length l * c)%nat.
Proof.
  induction l as [|x l IH]; intros Hc; csimpl; [done|].
  rewrite filter_app, length_app, IH.
  - rewrite Hc; [done|by left].
  - intros y Hy. apply Hc. by right.
Qed.

Lemma length_filter_bind_one {A B} `{EqDecision A}
      (P : B → Prop) `{∀ y, Decision (P y)}
      (f : A → list B) (l : list A) (v : A) (c : nat) :
  NoDup l → v ∈ l →
  (∀ x, x ∈ l → length (filter P (f x)) = if decide (x = v) then c else 0%nat) →
  length (filter P (l ≫= f)) = c.
Proof.
  induction l as [|x l IH]; intros Hnd Hv Hc; [by apply elem_of_nil in Hv|].
  apply NoDup_cons in Hnd as [Hx Hnd]. csimpl.
  rewrite filter_app, length_app, (Hc x) by (by left).
  destruct (decide (x = v)) as [->|Hne].
  - rewrite (length_filter_bind_const P f l 0); [lia|].
    intros y Hy. rewrite Hc by (by right).
    rewrite decide_False; [done|]. by intros ->.
  - apply elem_of_cons in Hv as [->|Hv]; [done|].
    rewrite IH; [done..|]. intros y Hy. apply Hc. by right.
Qed.

Lemma filter_all {A} (P : A → Prop) `{∀ x, Decision (P x)} (l : list A) :
  (∀ x, P x) → filter P l = l.
Proof.
  intros HP. induction l as [|x l IH]; [done|].
  by rewrite filter_cons_True, IH.
Qed.

Lemma filter_none {A} (P : A → Prop) `{∀ x, Decision (P x)} (l : list A) :
  (∀ x, ¬ P x) → filter P l = [].
Proof.
  intros HP. induction l as [|x l IH]; [done|].
  by rewrite filter_cons_False.
Qed.

Lemma length_tapes (n : nat) :
  length (tapes n) = (length leaf_dist_support ^ n)%nat.
Proof.
  induction n as [|n IH]; simpl; [done|].
  rewrite <- (filter_all (λ _, True) (_ ≫= _)) by done.
  rewrite (length_filter_bind_const _ _ _ (length (tapes n))).
  - by rewrite IH.
  - intros x _. rewrite filter_all by done. by rewrite length_fmap.
Qed.

(** Among the tapes of [n] draws, draw number [j] takes each value of the
    support equally often, and no other value. *)
Lemma draw_uniform (n j : nat) (v : Z) :
  (j < n)%nat →
  length (filter (λ tape, tape !! j = Some v) (tapes n))
  = if decide (v ∈ leaf_dist_support)
    then (length leaf_dist_support ^ (n - 1))%nat else 0%nat.
Proof.
  revert j. induction n as [|n IH]; intros j Hj; [lia|].
  simpl tapes. replace (S n - 1)%nat with n by lia.
  assert (NoDup leaf_dist_support) as Hnd
    by (unfold PathORAM.leaf_dist_support; apply NoDup_seqZ).
  destruct j as [|j].
  - assert (∀ x, length (filter (λ tape : list Z, tape !! 0%nat = Some v)
                           (cons x <$> tapes n))
                 = if decide (x = v) then length (tapes n) else 0%nat) as Hx.
    { intros x.
      rewrite <- (length_filter_fmap (cons x) (λ _, x = v)
                    (λ tape, tape !! 0%nat = Some v)).
      - destruct (decide (x = v)).
        + by rewrite filter_all.
        + by rewrite filter_none.
      - apply Forall_true. intros t. simpl.
        split; [by intros ->|by intros [=]]. }
    destruct (decide (v ∈ leaf_dist_support)) as [Hv|Hv].
    + rewrite (length_filter_bind_one _ _ _ v (length (tapes n)) Hnd Hv).
      * apply length_tapes.
      * intros x _. apply Hx.
    + rewrite (length_filter_bind_const _ _ _ 0); [lia|].
      intros x Hin. rewrite Hx, decide_False; [done|]. by intros ->.
  - rewrite (length_filter_bind_const _ _ _
               (if decide (v ∈ leaf_dist_support)
                then (length leaf_dist_support ^ (n - 1))%nat else 0%nat)).
    + destruct (decide (v ∈ leaf_dist_support)); [|lia].
      destruct n as [|n]; [lia|].
      simpl. by rewrite Nat.sub_0_r.
    + intros x _.
      rewrite <- (length_filter_fmap (cons x) (λ tape, tape !! j = Some v)
                    (λ tape, tape !! S j = Some v)).
      * apply IH. lia.
      * by apply Forall_true.
Qed.

(** ** The draws of leaves *)

(** C7 (uniform leaves): [leaf_dist{0, bucket_count/2}] returns the leaf
    indices [0 .. 2^HeightL - 1], each once in its uniform support, and
    nothing else; among the outcomes of [n] draws, each draw takes every
    leaf equally often, so with the same probability; [randomPath] returns
    the next value of the generator; the constructor fills entry [i] of the
    position map with draw number [i], and an access gives the entry of
    its block the draw of [randomPath]. *)
Theorem leaf_draws_uniform
        (g : Generator) (st : ORAM) (op : Op) (blk : Z) (b : Block) (i : nat) :
  (∀ v, v ∈ leaf_dist_support ↔ 0 ≤ v < leaf_count)
  ∧ NoDup leaf_dist_support
  ∧ Z.of_nat (length leaf_dist_support) = leaf_count
  ∧ (∀ (n j : nat) (v : Z), (j < n)%nat →
       length (filter (λ tape, tape !! j = Some v) (tapes n))
       = if decide (0 ≤ v < leaf_count)
         then (Z.to_nat leaf_count ^ (n - 1))%nat else 0%nat)
  ∧ (generator_ok g → ∀ k, g k ∈ leaf_dist_support)
  ∧ (PathORAM.randomPath st).1 = (leaf_dist (mt st)).1
  ∧ ((i < Z.to_nat block_count_N)%nat →
     position_map (PathORAM_new g) !! i = Some (g i))
  ∧ (0 ≤ blk < block_count_N →
     (Z.to_nat blk < length (position_map st))%nat →
     position_map (access op blk b st).2 !! Z.to_nat blk
     = Some (PathORAM.randomPath st).1).
Proof.
  pose proof leaf_count_bounds as Hb.
  assert (∀ v, v ∈ leaf_dist_support ↔ 0 ≤ v < leaf_count) as Hsupp.
  { intros v. rewrite leaf_dist_support_eq, elem_of_seqZ. lia. }
  assert (length leaf_dist_support = Z.to_nat leaf_count) as Hlen.
  { by rewrite leaf_dist_support_eq, length_seqZ. }
  split; [|split; [|split; [|split; [|split; [|split; [|split]]]]]].
  - done.
  - unfold PathORAM.leaf_dist_support. apply NoDup_seqZ.
  - rewrite Hlen. lia.
  - intros n j v Hj. rewrite draw_uniform, Hlen by done.
    destruct (decide (v ∈ leaf_dist_support)) as [Hv|Hv];
      destruct (decide (0 ≤ v < leaf_count)) as [Hv'|Hv']; try done.
    + by apply Hsupp in Hv.
    + by apply Hsupp in Hv'.
  - intros Hg k. rewrite leaf_dist_support_eq, elem_of_seqZ.
    pose proof (Hg k) as Hk. unfold PathORAM.leaf_dist_min in Hk.
    rewrite leaf_dist_max_eq in Hk. lia.
  - done.
  - intros Hi. rewrite PathORAM_new_eq. simpl.
    by rewrite list_lookup_fmap, lookup_seq_lt.
  - intros Hblk Hpm.
    destruct (access_effects op blk b st (proj2 Hblk)) as (Hp & _).
    rewrite Hp. by apply list_lookup_insert_eq.
Qed.

(** ** Reproducibility *)

Lemma run_in_range (calls : list PathORAM.Call) (st : ORAM) :
  run calls st
  = run (filter (λ c, PathORAM.call_blk c < block_count_N) calls) st.
Proof.
  revert st. induction calls as [|c calls IH]; intros st; [done|].
  change (run (c :: calls) st)
    with (run calls (PathORAM.call HeightL BlockSizeB BucketSizeZ st c)).
  destruct (decide (PathORAM.call_blk c < block_count_N)) as [Hc|Hc].
  - rewrite filter_cons_True by done. by rewrite IH.
  - rewrite filter_cons_False by done. rewrite IH.
    unfold PathORAM.call. by rewrite access_out_of_range by lia.
Qed.

Lemma leaf_trace_prefix (ids pm : list Z) (g g' : Generator) :
  (∀ k, (k < length ids)%nat → g k = g' k) →
  PathORAM.leaf_trace ids pm g = PathORAM.leaf_trace ids pm g'.
Proof.
  revert pm g g'. induction ids as [|blk ids IH]; intros pm g g' Hg; simpl.
  - done.
  - rewrite Hg by (simpl; lia). f_equal. apply IH.
    intros k Hk. apply Hg. simpl. lia.
Qed.

(** Two engines whose generators give the same draws, those of the
    constructor and one per call, touch the same buckets in the same order
    on the same sequence of calls. *)
Lemma same_draws_same_trace
      (g1 g2 : Generator) (calls : list PathORAM.Call) :
  (∀ k, (k < Z.to_nat block_count_N + length calls)%nat → g1 k = g2 k) →
  touched_trace calls g1 = touched_trace calls g2.
Proof.
  intros Hg. unfold PathORAM.touched_trace.
  rewrite !(run_in_range calls).
  set (valid := filter _ calls).
  assert (length valid ≤ length calls)%nat as Hlen by apply length_filter.
  assert (Forall (λ c, PathORAM.call_blk c < block_count_N) valid) as Hvalid.
  { apply Forall_forall. intros c Hc. by apply list_elem_of_filter in Hc as [? _]. }
  rewrite !touched_run by done. rewrite !PathORAM_new_eq. simpl.
  f_equal.
  assert (g1 <$> seq 0 (Z.to_nat block_count_N)
          = g2 <$> seq 0 (Z.to_nat block_count_N)) as ->.
  { apply Forall_fmap_ext_1, Forall_forall. intros k Hk.
    apply elem_of_seq in Hk. apply Hg. lia. }
  apply leaf_trace_prefix. intros k Hk. rewrite length_fmap in Hk.
  apply Hg. lia.
Qed.


(** * Further properties of the engine *)

(** ** The paths of the tree *)

(** X1: the paths to two leaves share their node at height [h] exactly when
    the leaves agree above their [HeightL - h] low bits, that is when both
    lie under that node. *)
Theorem shared_ancestor (leaf leaf' h : Z) :
  0 ≤ leaf < leaf_count → 0 ≤ leaf' < leaf_count → 0 ≤ h ≤ HeightL →
  getNodeOnPath leaf h = getNodeOnPath leaf' h
  ↔ leaf / 2 ^ (HeightL - h) = leaf' / 2 ^ (HeightL - h).
Proof.
  intros Hleaf Hleaf' Hh. rewrite !getNodeOnPath_closed by done.
  set (d := 2 ^ (HeightL - h)).
  assert (0 < d) by (apply Z.pow_pos_nonneg; lia).
  assert (leaf_count = 2 ^ h * d) as ->.
  { unfold PathORAM.leaf_count, d. rewrite <- Z.pow_add_r by lia. f_equal. lia. }
  rewrite !Z.div_add by lia. lia.
Qed.

(** X2: the node of a path at height [h] is a bucket of level [h] of the
    heap: its index lies in [[2^h - 1, 2^(h+1) - 2]], so within the
    [bucket_count] buckets, and nodes of different heights are different
    buckets. *)
Theorem path_nodes_in_tree (leaf leaf' h h' : Z) :
  0 ≤ leaf < leaf_count → 0 ≤ leaf' < leaf_count →
  0 ≤ h ≤ HeightL → 0 ≤ h' ≤ HeightL →
  2 ^ h - 1 ≤ getNodeOnPath leaf h ≤ 2 ^ (h + 1) - 2
  ∧ 0 ≤ getNodeOnPath leaf h < bucket_count
  ∧ (h ≠ h' → getNodeOnPath leaf h ≠ getNodeOnPath leaf' h').
Proof.
  intros Hleaf Hleaf' Hh Hh'.
  pose proof (getNodeOnPath_level leaf h Hleaf Hh).
  split; [lia|split; [by apply getNodeOnPath_range|]].
  intros Hne Heq. apply Hne.
  by apply (getNodeOnPath_height_inj leaf leaf' h h').
Qed.

(** ** What the side effects depend on *)

Lemma length_bind_const {A B} (f : A → list B) (l : list A) (c : nat) :
  (∀ x, length (f x) = c) → length (l ≫= f) = (length l * c)%nat.
Proof.
  intros Hc. induction l as [|x l IH]; csimpl; [done|].
  by rewrite length_app, Hc, IH.
Qed.

Lemma length_leaf_trace (ids pm : list Z) (g : Generator) :
  length (PathORAM.leaf_trace ids pm g) = length ids.
Proof.
  revert pm g. induction ids as [|blk ids IH]; intros pm g; simpl; [done|].
  by rewrite IH.
Qed.

Lemma run_same_ids (calls1 calls2 : list PathORAM.Call) (st1 st2 : ORAM) :
  PathORAM.call_blk <$> calls1 = PathORAM.call_blk <$> calls2 →
  Forall (λ c, PathORAM.call_blk c < block_count_N) calls1 →
  position_map st1 = position_map st2 → mt st1 = mt st2 →
  trace st1 = trace st2 →
  position_map (run calls1 st1) = position_map (run calls2 st2)
  ∧ mt (run calls1 st1) = mt (run calls2 st2)
  ∧ trace (run calls1 st1) = trace (run calls2 st2).
Proof.
  revert calls2 st1 st2.
  induction calls1 as [|c1 calls1 IH]; intros [|c2 calls2] st1 st2 Hids Hrange
    Hp Hm Ht; try done.
  injection Hids as Hblk Hids. apply Forall_cons in Hrange as [Hc1 Hrange].
  change (run (c1 :: calls1) st1)
    with (run calls1 (PathORAM.call HeightL BlockSizeB BucketSizeZ st1 c1)).
  change (run (c2 :: calls2) st2)
    with (run calls2 (PathORAM.call HeightL BlockSizeB BucketSizeZ st2 c2)).
  unfold PathORAM.call.
  destruct (access_effects (PathORAM.call_op c1) (PathORAM.call_blk c1)
              (PathORAM.call_data c1) st1 Hc1) as (Hp1 & Hm1 & Ht1 & _).
  assert (PathORAM.call_blk c2 < block_count_N) as Hc2 by (by rewrite <- Hblk).
  destruct (access_effects (PathORAM.call_op c2) (PathORAM.call_blk c2)
              (PathORAM.call_data c2) st2 Hc2) as (Hp2 & Hm2 & Ht2 & _).
  apply IH; [done|done|..].
  - by rewrite Hp1, Hp2, Hblk, Hp, Hm.
  - by rewrite Hm1, Hm2, Hm.
  - by rewrite Ht1, Ht2, Hblk, Hp, Ht.
Qed.

(** X4: on one generator, two sequences of calls to the same ids in range
    leave the same position map, the same generator and the same log of side
    effects, whatever their operations and payloads: reads and writes are not
    told apart by the buckets they touch.  Each call touches
    [2 * (HeightL + 1)] buckets. *)
Theorem side_effects_depend_on_ids_only
        (g : Generator) (calls1 calls2 : list PathORAM.Call) :
  PathORAM.call_blk <$> calls1 = PathORAM.call_blk <$> calls2 →
  Forall (λ c, PathORAM.call_blk c < block_count_N) calls1 →
  position_map (run calls1 (PathORAM_new g))
  = position_map (run calls2 (PathORAM_new g))
  ∧ trace (run calls1 (PathORAM_new g)) = trace (run calls2 (PathORAM_new g))
  ∧ touched_trace calls1 g = touched_trace calls2 g
  ∧ Z.of_nat (length (touched_trace calls1 g))
    = Z.of_nat (length calls1) * (2 * (HeightL + 1)).
Proof.
  intros Hids Hrange.
  destruct (run_same_ids calls1 calls2 (PathORAM_new g) (PathORAM_new g)
              Hids Hrange eq_refl eq_refl eq_refl) as (Hp & _ & Ht).
  split; [done|split; [done|split]].
  - unfold PathORAM.touched_trace. by rewrite Ht.
  - unfold PathORAM.touched_trace. rewrite touched_run by done.
    rewrite PathORAM_new_eq. simpl.
    rewrite (length_bind_const _ _ (Z.to_nat (2 * (HeightL + 1)))).
    + rewrite length_leaf_trace, length_fmap. lia.
    + intros pos. unfold PathORAM.path_touched.
      rewrite length_app, !length_fmap, length_reverse.
      unfold PathORAM.levels. rewrite length_seqZ. lia.
Qed.

Lemma mt_run (calls : list PathORAM.Call) (st : ORAM) :
  mt (run calls st)
  = λ k, mt st (length (filter (λ c, (PathORAM.call_blk c < block_count_N)%Z)
                               calls) + k)%nat.
Proof.
  revert st. induction calls as [|c calls IH]; intros st; [done|].
  change (run (c :: calls) st)
    with (run calls (PathORAM.call HeightL BlockSizeB BucketSizeZ st c)).
  rewrite IH. unfold PathORAM.call.
  destruct (decide (PathORAM.call_blk c < block_count_N)) as [Hc|Hc].
  - rewrite filter_cons_True by done.
    destruct (access_effects (PathORAM.call_op c) (PathORAM.call_blk c)
                (PathORAM.call_data c) st Hc) as (_ & Hm & _).
    by rewrite Hm.
  - rewrite filter_cons_False by done.
    by rewrite access_out_of_range by lia.
Qed.

(** X5: the constructor takes [block_count_N] values from the generator, a
    call with an id in range takes one, and a call that throws takes none:
    after [calls], the next value the engine draws is value number
    [block_count_N + n] of the generator, [n] the number of calls in range. *)
Theorem draws_consumed (g : Generator) (calls : list PathORAM.Call) (k : nat) :
  mt (run calls (PathORAM_new g)) k
  = g (Z.to_nat block_count_N
       + length (filter (λ c, (PathORAM.call_blk c < block_count_N)%Z) calls)
       + k)%nat.
Proof. rewrite mt_run, PathORAM_new_eq. simpl. f_equal. lia. Qed.

(** ** The engine against a plain array *)

Lemma access_refines (op : Op) (blk : Z) (b : Block)
      (st : ORAM) (m : gmap Z Block) :
  PathORAM.represents HeightL BlockSizeB BucketSizeZ st m → 0 ≤ blk →
  (access op blk b st).1
  = (PathORAM.plain_access HeightL BlockSizeB BucketSizeZ op blk b m).1
  ∧ PathORAM.represents HeightL BlockSizeB BucketSizeZ
      (access op blk b st).2
      (PathORAM.plain_access HeightL BlockSizeB BucketSizeZ op blk b m).2.
Proof.
  intros (Hwf & Hzero & Hstored) Hblk. unfold PathORAM.plain_access.
  destruct (decide (block_count_N ≤ blk)) as [Hout|Hin].
  { rewrite access_out_of_range by done. simpl.
    split; [done|]. split; [done|]. by split. }
  destruct (access_spec op blk b st Hwf) as
    (newval & st' & Heq & Hwf' & Hval & Hnew & Hother); [lia|].
  rewrite Heq. destruct op; simpl.
  - assert (newval = default zero_block (m !! blk)) as Hdef.
    { destruct Hval as [(w & Hw & ->)|[Hnone ->]]; [by apply Hzero|].
      destruct (m !! blk) as [w|] eqn:Hw; [|done].
      by destruct (Hnone w (Hstored _ _ Hw)). }
    split; [by rewrite Hdef|]. split; [done|split].
    + intros k v Hk. destruct (decide (k = blk)) as [->|Hne].
      * by apply Hnew in Hk as ->.
      * apply Hother in Hk; [|done]. by apply Hzero.
    + intros k v Hk. destruct (decide (k = blk)) as [->|Hne].
      * apply Hnew. by rewrite Hdef, Hk.
      * apply Hother; [done|]. by apply Hstored.
  - subst newval. split; [done|]. split; [done|split].
    + intros k v Hk. destruct (decide (k = blk)) as [->|Hne].
      * apply Hnew in Hk as ->. by rewrite lookup_insert_eq.
      * rewrite lookup_insert_ne by done.
        apply Hother in Hk; [|done]. by apply Hzero.
    + intros k v Hk. destruct (decide (k = blk)) as [->|Hne].
      * rewrite lookup_insert_eq in Hk. injection Hk as <-. by apply Hnew.
      * rewrite lookup_insert_ne in Hk by done.
        apply Hother; [done|]. by apply Hstored.
Qed.

Lemma results_refine (calls : list PathORAM.Call) (st : ORAM) (m : gmap Z Block) :
  PathORAM.represents HeightL BlockSizeB BucketSizeZ st m →
  Forall (λ c, 0 ≤ PathORAM.call_blk c) calls →
  PathORAM.results HeightL BlockSizeB BucketSizeZ calls st
  = PathORAM.plain_results HeightL BlockSizeB BucketSizeZ calls m.
Proof.
  revert st m. induction calls as [|c calls IH]; intros st m Hrep Hcalls;
    [done|].
  apply Forall_cons in Hcalls as [Hc Hcalls]. simpl.
  destruct (access_refines (PathORAM.call_op c) (PathORAM.call_blk c)
              (PathORAM.call_data c) st m Hrep Hc) as [Hr Hrep'].
  destruct (access _ _ _ st) as [r st'].
  destruct (PathORAM.plain_access _ _ _ _ _ _ m) as [r' m'].
  simpl in Hr, Hrep'. subst r'. f_equal. by apply IH.
Qed.

(** X7: to its caller the engine is a plain array of [block_count_N] blocks,
    zero at first: any sequence of calls -- reads and writes in any order,
    ids in range or not -- gives back from a fresh engine, call by call,
    what the array gives: the exception for an id out of range, the payload
    for a write, and for a read the payload of the most recent write to the
    id, or zeros. *)
Theorem engine_is_a_block_array (g : Generator) (calls : list PathORAM.Call) :
  generator_ok g →
  Forall (λ c, 0 ≤ PathORAM.call_blk c) calls →
  PathORAM.results HeightL BlockSizeB BucketSizeZ calls (PathORAM_new g)
  = PathORAM.plain_results HeightL BlockSizeB BucketSizeZ calls ∅.
Proof.
  intros Hg Hcalls. apply results_refine; [|done].
  split; [by apply PathORAM_new_wf|split].
  - intros k v [Hk|(n & z & Hslot)].
    + rewrite PathORAM_new_eq in Hk. simpl in Hk.
      by rewrite lookup_empty in Hk.
    + by apply PathORAM_new_empty in Hslot.
  - intros k v Hk. by rewrite lookup_empty in Hk.
Qed.

(** X8: the engine stores a block exactly when a call with its id in range
    was made, read or write: no block is dropped by an eviction, and no
    block appears that was never accessed. *)
Theorem stored_iff_accessed
        (g : Generator) (calls : list PathORAM.Call) (k : Z) :
  generator_ok g →
  Forall (λ c, 0 ≤ PathORAM.call_blk c) calls →
  (∃ v, PathORAM.holds (run calls (PathORAM_new g)) k v)
  ↔ ∃ c, c ∈ calls ∧ PathORAM.call_blk c = k ∧ k < block_count_N.
Proof.
  intros Hg. induction calls as [|c calls IH] using rev_ind; intros Hcalls.
  - split.
    + intros (v & [Hv|(n & z & Hslot)]).
      * rewrite PathORAM_new_eq in Hv. simpl in Hv.
        by rewrite lookup_empty in Hv.
      * by apply PathORAM_new_empty in Hslot.
    + intros (c & Hc & _). by apply elem_of_nil in Hc.
  - apply Forall_app in Hcalls as [Hcalls Hc]. apply Forall_inv in Hc.
    specialize (IH Hcalls).
    destruct (run_spec g calls Hg Hcalls) as (Hwf & _).
    rewrite run_snoc. unfold PathORAM.call.
    set (st := run calls (PathORAM_new g)) in *.
    destruct (decide (block_count_N ≤ PathORAM.call_blk c)) as [Hout|Hin].
    + rewrite access_out_of_range by done. simpl. rewrite IH. split.
      * intros (c' & Hc' & Heq & Hk). exists c'.
        split; [|done]. apply elem_of_app. by left.
      * intros (c' & [Hc'|Hc']%elem_of_app & Heq & Hk); [by exists c'|].
        apply list_elem_of_singleton in Hc' as ->. lia.
    + destruct (access_spec (PathORAM.call_op c) (PathORAM.call_blk c)
                  (PathORAM.call_data c) st Hwf) as
        (newval & st' & Heq & _ & _ & Hnew & Hother); [lia|].
      rewrite Heq. simpl.
      destruct (decide (k = PathORAM.call_blk c)) as [->|Hne].
      * split.
        -- intros _. exists c. split; [|split; [done|lia]].
           apply elem_of_app. right. by left.
        -- intros _. exists newval. by apply Hnew.
      * split.
        -- intros (v & Hv). apply Hother in Hv; [|done].
           destruct (proj1 IH (ex_intro _ v Hv)) as (c' & Hc' & Heq' & Hk).
           exists c'. split; [|done]. apply elem_of_app. by left.
        -- intros (c' & [Hc'|Hc']%elem_of_app & Heq' & Hk).
           ++ destruct (proj2 IH (ex_intro _ c' (conj Hc' (conj Heq' Hk))))
                as (v & Hv).
              exists v. by apply Hother.
           ++ apply list_elem_of_singleton in Hc' as ->. done.
Qed.

(** ** The buckets [writePath] builds *)

Lemma StronglySorted_sublist {A} (R : relation A) (l1 l2 : list A) :
  l1 `sublist_of` l2 → StronglySorted R l2 → StronglySorted R l1.
Proof.
  induction 1 as [|x l1 l2 Hsub IH|x l1 l2 Hsub IH]; intros Hs.
  - done.
  - apply StronglySorted_cons in Hs as [Hx Hs].
    apply StronglySorted_cons. split; [|by apply IH].
    eapply Forall_forall. intros y Hy. eapply Forall_forall in Hx; [done|].
    by eapply elem_of_sublist.
  - apply StronglySorted_cons in Hs as [_ Hs]. by apply IH.
Qed.

Lemma StronglySorted_le_lt (l : list Z) :
  NoDup l → StronglySorted Z.le l → StronglySorted Z.lt l.
Proof.
  induction l as [|x l IH]; intros Hnd Hs; [constructor|].
  apply NoDup_cons in Hnd as [Hx Hnd].
  apply StronglySorted_cons in Hs as [Hle Hs].
  apply StronglySorted_cons. split; [|by apply IH].
  apply Forall_forall. intros y Hy.
  eapply Forall_forall in Hle; [|done].
  assert (x ≠ y) by (by intros ->). lia.
Qed.

(** Iterating the stash visits its keys in strictly ascending order. *)
Lemma stash_keys_sorted (s : gmap Z Block) : StronglySorted Z.lt (stash_keys s).
Proof.
  apply StronglySorted_le_lt; [apply NoDup_stash_keys|].
  unfold stash_keys. apply StronglySorted_merge_sort; apply _.
Qed.

Lemma StronglySorted_gt_NoDup (ls : list Z) :
  StronglySorted (λ a b, b < a) ls → NoDup ls.
Proof.
  induction ls as [|l ls IH]; intros Hs; [constructor|].
  apply StronglySorted_cons in Hs as [Hl Hs].
  apply NoDup_cons. split; [|by apply IH].
  intros Hin. eapply Forall_forall in Hl; [|done]. lia.
Qed.

Lemma reverse_levels_sorted : StronglySorted (λ a b, b < a) (reverse levels).
Proof.
  unfold PathORAM.levels.
  assert (0 ≤ HeightL + 1) as Hn by lia. revert Hn.
  generalize (HeightL + 1). intros n Hn.
  rewrite <- (Z2Nat.id n) by done. clear Hn.
  induction (Z.to_nat n) as [|k IH]; [constructor|].
  rewrite seqZ_S, reverse_snoc. apply StronglySorted_cons. split; [|done].
  apply Forall_forall. intros x Hx%elem_of_reverse%elem_of_seqZ. lia.
Qed.

(** One iteration of the loop of [writePath], in full: the blocks that
    intersect the path at this height, in the order of the stash, as many
    as the bucket takes, fill the first slots of a fresh bucket; the other
    slots stay default-initialised. *)
Lemma writePath_level_eq (pos l : Z) (st : ORAM) :
  let sel := take (Z.to_nat BucketSizeZ)
                  (PathORAM.getIntersectingBlocks HeightL pos l st) in
  PathORAM.writePath_level HeightL BlockSizeB BucketSizeZ pos st l
  = mkORAM (<[path_node pos l :=
               ((λ k, IDBlock.mk k (default [] (stash st !! k))) <$> sel)
               ++ replicate (Z.to_nat BucketSizeZ - length sel)
                            (PathORAM.default_IDBlock BlockSizeB)]>
              (buckets st))
           (position_map st)
           (foldl (λ s k, delete k s) (stash st) sel) (mt st)
           (trace st ++ [BucketWrite (getNodeOnPath pos l)]).
Proof.
  intros sel.
  set (valid := PathORAM.getIntersectingBlocks HeightL pos l st) in *.
  set (m := Z.to_nat BucketSizeZ) in *.
  set (d := PathORAM.default_IDBlock BlockSizeB).
  assert (NoDup sel) as Hnd.
  { apply (sublist_NoDup sel valid); [|apply sublist_take].
    apply NoDup_filter, NoDup_stash_keys. }
  assert (∀ k, k ∈ sel → is_Some (stash st !! k)) as Hsel.
  { intros k Hk. apply elem_of_take in Hk as (i & Hi & _).
    apply list_elem_of_lookup_2 in Hi.
    apply list_elem_of_filter in Hi as [_ Hkey].
    by apply elem_of_stash_keys. }
  assert (length sel ≤ m)%nat as Hlen.
  { unfold sel. rewrite length_take. lia. }
  assert (length sel ≤ length valid)%nat as Hlen'.
  { unfold sel. rewrite length_take. lia. }
  unfold PathORAM.writePath_level, PathORAM.default_Bucket.
  fold valid m sel d.
  pose proof (fill_bucket_spec sel [] m d (stash st) Hnd Hsel Hlen) as Hfill.
  simpl in Hfill. rewrite Hfill.
  unfold d. rewrite invalidate_from_id; [done|].
  by rewrite length_fmap.
Qed.

(** The blocks selected for a bucket: ascending ids of the stash that
    intersect the path; when they do not fill the bucket, they are all the
    intersecting blocks of the stash. *)
Lemma selected_blocks (pos l : Z) (st : ORAM) :
  let sel := take (Z.to_nat BucketSizeZ)
                  (PathORAM.getIntersectingBlocks HeightL pos l st) in
  (length sel ≤ Z.to_nat BucketSizeZ)%nat
  ∧ StronglySorted Z.lt sel
  ∧ (∀ k, k ∈ sel → is_Some (stash st !! k))
  ∧ ((length sel < Z.to_nat BucketSizeZ)%nat →
     ∀ k, is_Some (stash st !! k) →
          getNodeOnPath (position_map st !!! Z.to_nat k) l
          = getNodeOnPath pos l →
          k ∈ sel).
Proof.
  intros sel.
  set (valid := PathORAM.getIntersectingBlocks HeightL pos l st) in *.
  split; [|split; [|split]].
  - unfold sel. rewrite length_take. lia.
  - apply (StronglySorted_sublist _ sel valid); [apply sublist_take|].
    apply (StronglySorted_sublist _ valid (stash_keys (stash st)));
      [apply sublist_filter|apply stash_keys_sorted].
  - intros k Hk. apply elem_of_take in Hk as (i & Hi & _).
    apply list_elem_of_lookup_2 in Hi.
    apply list_elem_of_filter in Hi as [_ Hkey].
    by apply elem_of_stash_keys.
  - intros Hlt k Hk Hnode.
    assert (sel = valid) as ->.
    { unfold sel in *. rewrite length_take in Hlt. apply take_ge. lia. }
    apply list_elem_of_filter. split; [done|by apply elem_of_stash_keys].
Qed.

(** The loop of [writePath], from the leaf to the root: every bucket it
    writes holds blocks of the stash, packed in the first slots in ascending
    order of their ids; and a bucket is left with a free slot only when no
    block that intersects the path at its height is left over, in the stash
    or for a bucket nearer the root. *)
Lemma foldl_writePath_level_greedy (pos : Z) (ls : list Z) (st : ORAM) :
  StronglySorted (λ a b, b < a) ls →
  (∀ l l', l ∈ ls → l' ∈ ls → path_node pos l = path_node pos l' → l = l') →
  (∀ l, l ∈ ls → (path_node pos l < length (buckets st))%nat) →
  (∀ k v, stash st !! k = Some v → k ≠ IDBlock.invalid_block) →
  let fin :=
    foldl (PathORAM.writePath_level HeightL BlockSizeB BucketSizeZ pos) st ls in
  ∀ l, l ∈ ls →
    ∃ sel : list Z,
      buckets fin !! path_node pos l
      = Some (((λ k, IDBlock.mk k (default [] (stash st !! k))) <$> sel)
              ++ replicate (Z.to_nat BucketSizeZ - length sel)
                           (PathORAM.default_IDBlock BlockSizeB))
      ∧ (length sel ≤ Z.to_nat BucketSizeZ)%nat
      ∧ StronglySorted Z.lt sel
      ∧ (∀ k, k ∈ sel → is_Some (stash st !! k))
      ∧ ((length sel < Z.to_nat BucketSizeZ)%nat →
         ∀ k, (is_Some (stash fin !! k)
               ∨ ∃ l' z v, l' ∈ ls ∧ l' < l
                   ∧ PathORAM.slot_holds (buckets fin) (path_node pos l') z k v) →
              getNodeOnPath (position_map st !!! Z.to_nat k) l
              ≠ getNodeOnPath pos l).
Proof.
  revert st. induction ls as [|l0 ls IH]; intros st Hsorted Hinj Hlen Hvalid fin l Hl.
  { by apply elem_of_nil in Hl. }
  apply StronglySorted_cons in Hsorted as [Hl0 Hsorted].
  pose proof (writePath_level_eq pos l0 st) as Hstep.
  destruct (selected_blocks pos l0 st) as (Hsel_len & Hsel_sorted & Hsel & Hsel_all).
  cbv zeta in Hstep.
  set (sel0 := take (Z.to_nat BucketSizeZ)
                    (PathORAM.getIntersectingBlocks HeightL pos l0 st)) in *.
  set (mid := PathORAM.writePath_level HeightL BlockSizeB BucketSizeZ pos st l0)
    in *.
  assert (fin = foldl (PathORAM.writePath_level HeightL BlockSizeB BucketSizeZ pos)
                      mid ls) as Hfin by done.
  assert (∀ i, stash mid !! i
               = if decide (i ∈ sel0) then None else stash st !! i) as Hms.
  { intros i. rewrite Hstep. simpl. apply lookup_foldl_delete. }
  assert (position_map mid = position_map st) as Hmp by (by rewrite Hstep).
  assert (length (buckets mid) = length (buckets st)) as Hml.
  { rewrite Hstep. simpl. by rewrite length_insert. }
  assert (∀ l', l' ∈ ls → path_node pos l0 ≠ path_node pos l') as Hfresh.
  { intros l' Hl' Heq. apply Hinj in Heq; [|by left|by right].
    subst l'. eapply Forall_forall in Hl0; [|done]. lia. }
  assert (∀ k v, stash mid !! k = Some v → k ≠ IDBlock.invalid_block) as Hvalid'.
  { intros k v. rewrite Hms. case_decide; [done|]. apply Hvalid. }
  assert (∀ l1 l2, l1 ∈ ls → l2 ∈ ls →
            path_node pos l1 = path_node pos l2 → l1 = l2) as Hinj'.
  { intros l1 l2 H1 H2. apply Hinj; by right. }
  assert (∀ l', l' ∈ ls → (path_node pos l' < length (buckets mid))%nat)
    as Hlen'.
  { intros l' Hl'. rewrite Hml. apply Hlen. by right. }
  destruct (foldl_writePath_level pos ls mid
              (StronglySorted_gt_NoDup _ Hsorted) Hinj' Hlen' Hvalid')
    as [_ _ _ _ Hfr Hsub Hpl _ _].
  rewrite <- Hfin in Hfr, Hsub, Hpl.
  apply elem_of_cons in Hl as [->|Hl].
  - exists sel0. split; [|split; [done|split; [done|split; [done|]]]].
    + rewrite Hfr by done. rewrite Hstep. simpl.
      apply list_lookup_insert_eq. apply Hlen. by left.
    + intros Hlt k Hk Hnode.
      assert (is_Some (stash mid !! k)) as [v Hv].
      { destruct Hk as [[v Hk]|(l' & z & v & Hl' & Hlt' & Hslot)].
        - exists v. by apply Hsub.
        - apply elem_of_cons in Hl' as [->|Hl']; [lia|].
          exists v. by apply (Hpl l' z k v Hl' Hslot). }
      rewrite Hms in Hv. case_decide as Hin; [done|].
      apply Hin, Hsel_all; [done|by exists v|done].
  - destruct (IH mid Hsorted Hinj' Hlen' Hvalid' l Hl)
      as (sel & Hb & Hsl & Hss & Hsk & Hgreedy).
    rewrite <- Hfin in Hb, Hgreedy.
    assert (∀ k, k ∈ sel → stash mid !! k = stash st !! k) as Hsame.
    { intros k Hk. destruct (Hsk k Hk) as [v Hv]. rewrite Hms in Hv |- *.
      by case_decide. }
    exists sel. split; [|split; [done|split; [done|split]]].
    + rewrite Hb. do 2 f_equal.
      apply Forall_fmap_ext_1, Forall_forall. intros k Hk.
      by rewrite Hsame.
    + intros k Hk. rewrite <- Hsame by done. by apply Hsk.
    + intros Hlt k Hk. rewrite <- Hmp. apply Hgreedy; [done|].
      destruct Hk as [Hk|(l' & z & v & Hl' & Hlt' & Hslot)]; [by left|right].
      exists l', z, v. split; [|done].
      apply elem_of_cons in Hl' as [->|Hl']; [|done].
      eapply Forall_forall in Hl0; [|exact Hl]. lia.
Qed.

(** The ids in the stash when [access] calls [writePath]: the accessed
    block, the blocks of the stash and the blocks read from the path. *)
Lemma stash_before_writePath (blk pos : Z) (v : Block) (st : ORAM) :
  wf st → 0 ≤ blk < block_count_N → 0 ≤ pos < leaf_count →
  ∀ k w, <[blk := v]> (stash st ∪ list_to_map (path_blocks pos (buckets st)))
           !! k = Some w →
         0 ≤ k < block_count_N.
Proof.
  intros Hwf Hblk Hpos k w Hk.
  destruct (decide (k = blk)) as [->|Hne]; [done|].
  rewrite lookup_insert_ne in Hk by done.
  apply lookup_union_Some_raw in Hk as [Hk|[_ Hk]].
  - by eapply PathORAM.wf_stash_ids.
  - apply elem_of_list_to_map_2 in Hk.
    apply elem_of_path_blocks in Hk as (l & z & _ & Hslot).
    + by eapply PathORAM.wf_tree_ids.
    + intros l Hl. rewrite (PathORAM.wf_buckets _ _ _ Hwf).
      by apply path_node_lt.
Qed.

(** The buckets after an access: off the accessed path they are as before;
    on the path each is packed, and has a free slot only when no block whose
    path goes through its node is left in the stash or nearer the root. *)
Lemma access_buckets (op : Op) (blk : Z) (b : Block) (st : ORAM) :
  wf st → 0 ≤ blk < block_count_N →
  let pos := position_map st !!! Z.to_nat blk in
  let st' := (access op blk b st).2 in
  (∀ n, (∀ l, l ∈ levels → n ≠ path_node pos l) →
        buckets st' !! n = buckets st !! n)
  ∧ ∀ l, 0 ≤ l ≤ HeightL →
      ∃ blocks : list IDBlock.t,
        buckets st' !! path_node pos l
        = Some (blocks ++ replicate (Z.to_nat BucketSizeZ - length blocks)
                                    (PathORAM.default_IDBlock BlockSizeB))
        ∧ (length blocks ≤ Z.to_nat BucketSizeZ)%nat
        ∧ Forall (λ x, 0 ≤ IDBlock.id x < block_count_N) blocks
        ∧ StronglySorted (λ x y, IDBlock.id x < IDBlock.id y) blocks
        ∧ ((length blocks < Z.to_nat BucketSizeZ)%nat →
           ∀ k, (is_Some (stash st' !! k)
                 ∨ ∃ l' z v, 0 ≤ l' < l
                     ∧ PathORAM.slot_holds (buckets st') (path_node pos l') z k v) →
                getNodeOnPath (position_map st' !!! Z.to_nat k) l
                ≠ getNodeOnPath pos l).
Proof.
  intros Hwf Hblk pos st'. unfold st'. rewrite access_unfold by lia.
  cbv zeta. fold pos.
  set (stash2 := stash st ∪ list_to_map (path_blocks pos (buckets st))).
  set (newval := match op with
                 | Read => default zero_block (stash2 !! blk)
                 | Write => b
                 end).
  match goal with
  | |- context [writePath pos ?s] => set (st3 := s)
  end.
  simpl.
  assert (0 ≤ pos < leaf_count) as Hpos by (by apply wf_leaf).
  assert (∀ k v, stash st3 !! k = Some v → 0 ≤ k < block_count_N) as Hids.
  { by apply stash_before_writePath. }
  destruct (writePath_spec pos st3 Hpos (PathORAM.wf_buckets _ _ _ Hwf) Hids)
    as [Hp _ _ _ Hfr _ _ _ _].
  split.
  { intros n Hoff. rewrite Hfr; [done|].
    intros l Hl%elem_of_reverse_levels. by apply Hoff. }
  intros l Hl.
  assert (∀ k v, stash st3 !! k = Some v → k ≠ IDBlock.invalid_block) as Hvalid.
  { intros k v Hk%Hids. pose proof block_count_N_lt.
    unfold IDBlock.invalid_block. lia. }
  destruct (foldl_writePath_level_greedy pos (reverse levels) st3) with (l := l)
    as (sel & Hb & Hlen & Hsorted & Hsel & Hgreedy).
  { apply reverse_levels_sorted. }
  { intros l1 l2 H1%elem_of_reverse_levels%elem_of_levels
           H2%elem_of_reverse_levels%elem_of_levels Heq.
    by apply (path_node_inj pos pos l1 l2). }
  { intros l1 Hl1%elem_of_reverse_levels.
    change (buckets st3) with (buckets st).
    rewrite (PathORAM.wf_buckets _ _ _ Hwf). by apply path_node_lt. }
  { done. }
  { by apply elem_of_reverse_levels, elem_of_levels. }
  fold (writePath pos st3) in Hb, Hgreedy.
  exists ((λ k, IDBlock.mk k (default [] (stash st3 !! k))) <$> sel).
  rewrite length_fmap. split; [done|split; [done|split; [|split]]].
  - apply Forall_fmap, Forall_forall. intros k Hk. simpl.
    destruct (Hsel k Hk) as [v Hv]. by apply (Hids k v).
  - by apply (StronglySorted_fmap _ Z.lt).
  - intros Hlt k Hk. rewrite Hp. apply Hgreedy; [done|].
    destruct Hk as [Hk|(l' & z & v & Hl' & Hslot)]; [by left|right].
    exists l', z, v. split; [|split; [lia|done]].
    apply elem_of_reverse_levels, elem_of_levels. lia.
Qed.

Lemma run_wf (g : Generator) (calls : list PathORAM.Call) :
  generator_ok g →
  Forall (λ c, 0 ≤ PathORAM.call_blk c) calls →
  wf (run calls (PathORAM_new g)).
Proof. intros Hg Hcalls. by destruct (run_spec g calls Hg Hcalls). Qed.

(** X9: every bucket of the tree is packed, whatever calls were made: the
    blocks it holds have ids in range and fill its first slots in ascending
    order of their ids, and each unused slot is exactly a default-initialised
    one, with the invalid id and zero data -- an eviction leaves no stale
    payload behind in the slots it frees. *)
Theorem buckets_stay_packed
        (g : Generator) (calls : list PathORAM.Call)
        (node : nat) (bucket : Bucket) :
  generator_ok g →
  Forall (λ c, 0 ≤ PathORAM.call_blk c) calls →
  buckets (run calls (PathORAM_new g)) !! node = Some bucket →
  PathORAM.bucket_packed HeightL BlockSizeB BucketSizeZ bucket.
Proof.
  intros Hg. revert node bucket.
  induction calls as [|c calls IH] using rev_ind; intros node bucket Hcalls Hb.
  - simpl in Hb. rewrite PathORAM_new_eq in Hb. simpl in Hb.
    apply lookup_replicate in Hb as [-> _].
    exists []. simpl. rewrite Nat.sub_0_r.
    split; [done|split; [lia|split; constructor]].
  - apply Forall_app in Hcalls as [Hcalls Hc]. apply Forall_inv in Hc.
    pose proof (run_wf g calls Hg Hcalls) as Hwf.
    rewrite run_snoc in Hb. unfold PathORAM.call in Hb.
    set (st := run calls (PathORAM_new g)) in *.
    destruct (decide (block_count_N ≤ PathORAM.call_blk c)) as [Hout|Hin].
    { rewrite access_out_of_range in Hb by done. by apply (IH node). }
    destruct (access_buckets (PathORAM.call_op c) (PathORAM.call_blk c)
                (PathORAM.call_data c) st Hwf) as [Hoff Hon]; [lia|].
    destruct (on_path_dec (position_map st !!! Z.to_nat (PathORAM.call_blk c))
                node) as [(l & Hl & ->)|Hn].
    + destruct (Hon l) as (blocks & Hb' & Hlen & Hids & Hsorted & _).
      { by apply elem_of_levels. }
      rewrite Hb' in Hb. injection Hb as <-. by exists blocks.
    + rewrite Hoff in Hb by done. by apply (IH node).
Qed.

(** X10: the eviction of an access is greedy, from the leaf up. A block
    that the access leaves in the stash, or places in a bucket nearer the
    root than height [l], although the path assigned to it goes through the
    node of the accessed path at height [l], was kept out of that node only
    because its bucket is full. *)
Theorem eviction_is_greedy
        (op : Op) (blk : Z) (b : Block) (st : ORAM) (k l : Z) :
  wf st → 0 ≤ blk < block_count_N →
  let pos := position_map st !!! Z.to_nat blk in
  let st' := (access op blk b st).2 in
  0 ≤ l ≤ HeightL →
  (is_Some (stash st' !! k)
   ∨ ∃ l' z v, 0 ≤ l' < l
       ∧ PathORAM.slot_holds (buckets st') (path_node pos l') z k v) →
  getNodeOnPath (position_map st' !!! Z.to_nat k) l = getNodeOnPath pos l →
  ∃ bucket, buckets st' !! path_node pos l = Some bucket
            ∧ PathORAM.bucket_full BucketSizeZ bucket.
Proof.
  intros Hwf Hblk pos st' Hl Hk Hnode.
  destruct (access_buckets op blk b st Hwf Hblk) as [_ Hon].
  destruct (Hon l Hl) as (blocks & Hb & Hlen & Hids & _ & Hgreedy).
  fold pos st' in Hb, Hgreedy.
  destruct (decide (length blocks < Z.to_nat BucketSizeZ)%nat) as [Hlt|Hge].
  { by destruct (Hgreedy Hlt k Hk). }
  exists blocks.
  replace (Z.to_nat BucketSizeZ - length blocks)%nat with 0%nat in Hb by lia.
  simpl in Hb. rewrite app_nil_r in Hb. split; [done|split; [lia|]].
  eapply Forall_impl; [done|]. intros x Hx. simpl in Hx.
  pose proof block_count_N_lt. unfold IDBlock.invalid_block. lia.
Qed.

Lemma getNodeOnPath_root (leaf : Z) :
  0 ≤ leaf < leaf_count → getNodeOnPath leaf 0 = 0.
Proof.
  intros Hleaf.
  pose proof (getNodeOnPath_level leaf 0 Hleaf) as H. simpl in H. lia.
Qed.

(** X11: whenever the stash holds a block between two calls, the root
    bucket is full: a block stays in the stash only when the tree had no
    room for it on the path of the last access, and the root is on every
    path. *)
Theorem stash_only_when_root_full
        (g : Generator) (calls : list PathORAM.Call) (k : Z) :
  generator_ok g →
  Forall (λ c, 0 ≤ PathORAM.call_blk c) calls →
  is_Some (stash (run calls (PathORAM_new g)) !! k) →
  ∃ root, buckets (run calls (PathORAM_new g)) !! 0%nat = Some root
          ∧ PathORAM.bucket_full BucketSizeZ root.
Proof.
  intros Hg. revert k.
  induction calls as [|c calls IH] using rev_ind; intros k Hcalls Hk.
  - simpl in Hk. rewrite PathORAM_new_eq in Hk. simpl in Hk.
    rewrite lookup_empty in Hk. by destruct Hk.
  - pose proof (run_wf g _ Hg Hcalls) as Hwf'.
    apply Forall_app in Hcalls as [Hcalls Hc]. apply Forall_inv in Hc.
    pose proof (run_wf g calls Hg Hcalls) as Hwf.
    rewrite run_snoc in Hk, Hwf' |- *. unfold PathORAM.call in *.
    set (st := run calls (PathORAM_new g)) in *.
    destruct (decide (block_count_N ≤ PathORAM.call_blk c)) as [Hout|Hin].
    { rewrite access_out_of_range in Hk |- * by done. by apply (IH k). }
    set (pos := position_map st !!! Z.to_nat (PathORAM.call_blk c)).
    assert (0 ≤ pos < leaf_count) as Hpos by (apply wf_leaf; [done|lia]).
    assert (path_node pos 0 = 0%nat) as Hroot.
    { unfold PathORAM.path_node. by rewrite getNodeOnPath_root. }
    destruct (access_buckets (PathORAM.call_op c) (PathORAM.call_blk c)
                (PathORAM.call_data c) st Hwf) as [_ Hon]; [lia|].
    destruct (Hon 0) as (blocks & Hb & Hlen & Hids & _ & Hgreedy); [lia|].
    fold pos in Hb, Hgreedy. rewrite Hroot in Hb.
    destruct (decide (length blocks < Z.to_nat BucketSizeZ)%nat) as [Hlt|Hge].
    { destruct (Hgreedy Hlt k (or_introl Hk)).
      rewrite !getNodeOnPath_root; [done|done|].
      apply wf_leaf; [done|].
      destruct Hk as [v Hv]. by apply (PathORAM.wf_stash_ids _ _ _ Hwf' k v). }
    exists blocks.
    replace (Z.to_nat BucketSizeZ - length blocks)%nat with 0%nat in Hb by lia.
    simpl in Hb. rewrite app_nil_r in Hb. split; [done|split; [lia|]].
    eapply Forall_impl; [done|]. intros x Hx. simpl in Hx.
    pose proof block_count_N_lt. unfold IDBlock.invalid_block. lia.
Qed.

(** ** The driver *)

Lemma same_elements_refl (block : Block) : Main.same_elements block block = true.
Proof.
  unfold Main.same_elements. apply forallb_forall. intros i _.
  by apply Byte.byte_dec_lb.
Qed.

(** The input loop after [n] iterations. *)
Lemma generate_inputs_snoc (e : Main.Env) (n : nat) :
  let inputs n := foldl (Main.generate_step BlockSizeB e) ∅ (seq 0 n) in
  (∀ k block, inputs n !! k = Some block → length block = Z.to_nat BlockSizeB)
  ∧ inputs (S n)
    = <[Main.addr_dist e n :=
          replicate (Z.to_nat BlockSizeB) (Main.to_uint8 (Main.val_dist e n))]>
        (inputs n).
Proof.
  intros inputs.
  assert (∀ m i,
    (∀ k block, m !! k = Some block → length block = Z.to_nat BlockSizeB) →
    Main.generate_step BlockSizeB e m i
    = <[Main.addr_dist e i :=
          replicate (Z.to_nat BlockSizeB) (Main.to_uint8 (Main.val_dist e i))]>
        m) as Hstep.
  { intros m i Hm. unfold Main.generate_step, PathORAM.stash_index, Main.fill.
    destruct (m !! Main.addr_dist e i) as [v|] eqn:Hv.
    - by rewrite (Hm _ _ Hv).
    - unfold PathORAM.zero_block.
      by rewrite insert_insert_eq, length_replicate. }
  assert (∀ n k block, inputs n !! k = Some block →
            length block = Z.to_nat BlockSizeB) as Hlen.
  { clear n. intros n. induction n as [|n IH]; intros k block Hk.
    - unfold inputs in Hk. simpl in Hk. by rewrite lookup_empty in Hk.
    - unfold inputs in Hk. rewrite seq_S, foldl_snoc in Hk. simpl in Hk.
      fold (inputs n) in Hk. rewrite Hstep in Hk by done.
      destruct (decide (k = Main.addr_dist e n)) as [->|Hne].
      + rewrite lookup_insert_eq in Hk. injection Hk as <-.
        by rewrite length_replicate.
      + rewrite lookup_insert_ne in Hk by done. by apply (IH k). }
  split; [apply Hlen|].
  unfold inputs at 1. rewrite seq_S, foldl_snoc. simpl. fold (inputs n).
  apply Hstep, Hlen.
Qed.

(** X12: the input loop of [main] leaves in [input_map] one entry for each
    id that [addr_dist] drew, and its block is [BlockSizeB] copies of the
    byte drawn in the last iteration that drew the id: a later draw of an
    id replaces the whole block of an earlier one. *)
Theorem generated_inputs (e : Main.Env) (k : Z) (block : Block) :
  let n := Z.to_nat block_count_N in
  Main.generate_inputs HeightL BlockSizeB BucketSizeZ e !! k = Some block
  ↔ ∃ i, (i < n)%nat
         ∧ Main.addr_dist e i = k
         ∧ (∀ j, (i < j < n)%nat → Main.addr_dist e j ≠ k)
         ∧ block = replicate (Z.to_nat BlockSizeB)
                             (Main.to_uint8 (Main.val_dist e i)).
Proof.
  intros n. unfold Main.generate_inputs. fold n. clearbody n.
  revert block. induction n as [|n IH]; intros block.
  - simpl. rewrite lookup_empty. split; [done|]. intros (i & Hi & _). lia.
  - destruct (generate_inputs_snoc e n) as [_ ->].
    destruct (decide (k = Main.addr_dist e n)) as [->|Hne].
    + rewrite lookup_insert_eq. split.
      * intros [= <-]. exists n. split; [lia|split; [done|split; [|done]]].
        intros j Hj. lia.
      * intros (i & Hi & Hk & Hlast & ->).
        destruct (decide (i = n)) as [->|Hin]; [done|].
        destruct (Hlast n); [lia|done].
    + rewrite lookup_insert_ne by done. rewrite IH. split.
      * intros (i & Hi & Hk & Hlast & ->). exists i.
        split; [lia|split; [done|split; [|done]]].
        intros j Hj. destruct (decide (j = n)) as [->|Hjn]; [done|].
        apply Hlast. lia.
      * intros (i & Hi & Hk & Hlast & ->).
        assert (i ≠ n) by (by intros ->; subst k).
        exists i. split; [lia|split; [done|split; [|done]]].
        intros j Hj. apply Hlast. lia.
Qed.

Lemma generate_inputs_ids (e : Main.Env) (k : Z) (block : Block) :
  (∀ i, 0 ≤ Main.addr_dist e i ≤ wrap64 (block_count_N - 1)) →
  Main.generate_inputs HeightL BlockSizeB BucketSizeZ e !! k = Some block →
  0 ≤ k < block_count_N.
Proof.
  intros Haddr Hk. unfold Main.generate_inputs in Hk.
  pose proof block_count_N_lt as HN.
  assert (∀ n, (n ≤ Z.to_nat block_count_N)%nat →
            ∀ block, foldl (Main.generate_step BlockSizeB e) ∅ (seq 0 n) !! k
                     = Some block →
                     0 ≤ k < block_count_N) as Hall.
  { intros n. induction n as [|n IH]; intros Hn block' Hk'.
    - simpl in Hk'. by rewrite lookup_empty in Hk'.
    - destruct (generate_inputs_snoc e n) as [_ Heq]. rewrite Heq in Hk'.
      destruct (decide (k = Main.addr_dist e n)) as [->|Hne].
      + pose proof (Haddr n) as Hb. unfold wrap64 in Hb.
        rewrite Z.mod_small in Hb by lia. lia.
      + rewrite lookup_insert_ne in Hk' by done. apply (IH ltac:(lia) block' Hk'). }
  by apply (Hall _ (Nat.le_refl _) block).
Qed.

Lemma generate_inputs_size (e : Main.Env) :
  let n := size (Main.generate_inputs HeightL BlockSizeB BucketSizeZ e) in
  (n ≤ Z.to_nat block_count_N)%nat ∧ (0 < block_count_N → (1 ≤ n)%nat).
Proof.
  unfold Main.generate_inputs.
  assert (∀ n, let m := foldl (Main.generate_step BlockSizeB e) ∅ (seq 0 n) in
               (size m ≤ n)%nat ∧ ((0 < n)%nat → (1 ≤ size m)%nat)) as Hall.
  { intros n. cbv zeta. induction n as [|n [IH _]].
    - simpl. rewrite map_size_empty. lia.
    - destruct (generate_inputs_snoc e n) as [_ ->].
      rewrite map_size_insert.
      destruct (foldl _ _ _ !! _) as [v|] eqn:Hv; unfold id; [|lia].
      assert (size (foldl (Main.generate_step BlockSizeB e) ∅ (seq 0 n)) ≠ 0%nat).
      { intros H0%map_size_empty_inv. rewrite H0 in Hv.
        by rewrite lookup_empty in Hv. }
      lia. }
  cbv zeta. destruct (Hall (Z.to_nat block_count_N)) as [Hle Hge].
  split; [done|]. intros HN. apply Hge. lia.
Qed.

Lemma foldl_insert_entries (entries : list (Z * Block)) (m : gmap Z Block) :
  entries ≡ₚ map_to_list m →
  foldl (λ m' entry, <[entry.1 := entry.2]> m') ∅ entries = m.
Proof.
  intros Hperm.
  assert (∀ l : list (Z * Block),
            foldl (λ m' entry, <[entry.1 := entry.2]> m') ∅ l
            = list_to_map (reverse l)) as ->.
  { intros l. induction l as [|[k v] l IH] using rev_ind; [done|].
    by rewrite foldl_snoc, reverse_snoc, IH. }
  rewrite <- (list_to_map_to_list m). apply list_to_map_proper.
  - rewrite reverse_Permutation, Hperm. apply NoDup_fst_map_to_list.
  - by rewrite reverse_Permutation.
Qed.

(** The write loop of [main] on entries with ids in range: no call throws,
    and the engine then stores what the entries hold. *)
Lemma write_blocks_spec (entries : list (Z * Block)) (oram : ORAM)
      (m : gmap Z Block) :
  PathORAM.represents HeightL BlockSizeB BucketSizeZ oram m →
  Forall (λ entry, 0 ≤ entry.1 < block_count_N) entries →
  ∃ oram',
    Main.write_blocks HeightL BlockSizeB BucketSizeZ entries oram
    = (Returned tt, oram')
    ∧ PathORAM.represents HeightL BlockSizeB BucketSizeZ oram'
        (foldl (λ m' entry, <[entry.1 := entry.2]> m') m entries).
Proof.
  revert oram m. induction entries as [|[k v] entries IH];
    intros oram m Hrep Hids.
  { by exists oram. }
  apply Forall_cons in Hids as [Hk Hids]. simpl in Hk. simpl.
  destruct (access_refines Write k v oram m Hrep) as [Hr Hrep']; [lia|].
  unfold PathORAM.plain_access in Hr, Hrep'.
  rewrite decide_False in Hr, Hrep' by lia. simpl in Hr, Hrep'.
  unfold PathORAM.write.
  destruct (access Write k v oram) as [r oram1]. simpl in Hr, Hrep'. subst r.
  by apply IH.
Qed.

(** The validation loop of [main] on entries the engine stores: no call
    throws, and every block read compares equal. *)
Lemma read_blocks_spec (entries : list (Z * Block)) (oram : ORAM)
      (m : gmap Z Block) (c : Main.Counters) :
  PathORAM.represents HeightL BlockSizeB BucketSizeZ oram m →
  Forall (λ entry, 0 ≤ entry.1 < block_count_N ∧ m !! entry.1 = Some entry.2)
         entries →
  0 ≤ Main.successes c →
  Main.successes c + Z.of_nat (length entries) < 2 ^ 64 →
  ∃ oram',
    Main.read_blocks HeightL BlockSizeB BucketSizeZ entries oram c
    = (Returned (Main.mkCounters (Main.failures c)
                   (Main.successes c + Z.of_nat (length entries))),
       oram').
Proof.
  revert oram c. induction entries as [|[k v] entries IH];
    intros oram c Hrep Hids Hc Hmax.
  { exists oram. simpl. rewrite Z.add_0_r. by destruct c. }
  apply Forall_cons in Hids as [[Hk Hv] Hids]. simpl in Hk, Hv, Hmax. simpl.
  unfold PathORAM.read.
  destruct (access_refines Read k zero_block oram m Hrep) as [Hr Hrep'];
    [lia|].
  unfold PathORAM.plain_access in Hr, Hrep'.
  rewrite decide_False in Hr, Hrep' by lia. simpl in Hr, Hrep'.
  rewrite Hv in Hr. simpl in Hr.
  destruct (access Read k zero_block oram) as [r oram1].
  simpl in Hr, Hrep'. subst r.
  rewrite same_elements_refl.
  destruct (IH oram1 (Main.mkCounters (Main.failures c)
                        (wrap64 (Main.successes c + 1)))) as (oram' & ->).
  - done.
  - done.
  - simpl. unfold wrap64. rewrite Z.mod_small; lia.
  - simpl. unfold wrap64. rewrite Z.mod_small; lia.
  - exists oram'. simpl. unfold wrap64. rewrite Z.mod_small by lia.
    do 3 f_equal. lia.
Qed.

(** The driver for any engine: the test returns 0 and reports every block
    of [input_map] as read back intact. *)
Lemma run_test_passes (e : Main.Env) :
  Main.env_ok HeightL BucketSizeZ e →
  Main.run_test HeightL BlockSizeB BucketSizeZ e
  = (Returned 0,
     (((Main.metadata HeightL +:+ "Generating inputs" +:+ Main.nl)
       +:+ "Writing data" +:+ Main.nl)
      +:+ "Reading data" +:+ Main.nl)
     +:+ Main.summary
           (Main.mkCounters 0
              (Z.of_nat (size (Main.generate_inputs HeightL BlockSizeB
                                 BucketSizeZ e))))).
Proof.
  intros (Hg & Haddr & _ & Hiter). unfold Main.run_test. cbv zeta.
  set (input_map := Main.generate_inputs HeightL BlockSizeB BucketSizeZ e).
  assert (PathORAM.represents HeightL BlockSizeB BucketSizeZ
            (PathORAM_new (Main.oram_mt e)) ∅) as Hrep0.
  { split; [by apply PathORAM_new_wf|split].
    - intros k v [Hk|(n & z & Hslot)].
      + rewrite PathORAM_new_eq in Hk. simpl in Hk.
        by rewrite lookup_empty in Hk.
      + by apply PathORAM_new_empty in Hslot.
    - intros k v Hk. by rewrite lookup_empty in Hk. }
  assert (∀ entry, entry ∈ Main.iterate e input_map →
            0 ≤ entry.1 < block_count_N ∧ input_map !! entry.1 = Some entry.2)
    as Hentries.
  { intros [k v] Hin. rewrite Hiter in Hin.
    apply elem_of_map_to_list in Hin. simpl. split; [|done].
    by apply (generate_inputs_ids e k v). }
  destruct (write_blocks_spec (Main.iterate e input_map)
              (PathORAM_new (Main.oram_mt e)) ∅ Hrep0) as (oram1 & -> & Hrep1).
  { apply Forall_forall. intros entry Hin. by apply Hentries. }
  rewrite (foldl_insert_entries _ input_map) in Hrep1 by done.
  assert (length (Main.iterate e input_map) = size input_map) as Hlen.
  { by rewrite Hiter, length_map_to_list. }
  destruct (read_blocks_spec (Main.iterate e input_map) oram1 input_map
              (Main.mkCounters 0 0) Hrep1) as (oram2 & ->).
  { apply Forall_forall. intros entry Hin. by apply Hentries. }
  { done. }
  { simpl. rewrite Hlen.
    pose proof (generate_inputs_size e) as [Hsize _]. fold input_map in Hsize.
    pose proof block_count_N_lt.
    destruct (decide (0 ≤ block_count_N)); lia. }
  simpl. by rewrite Hlen.
Qed.

(** ** [write] then [read] *)

Lemma holds_functional (st : ORAM) (k : Z) (v v' : Block) :
  wf st → PathORAM.holds st k v → PathORAM.holds st k v' → v = v'.
Proof.
  intros Hwf [Hs|(n & z & Hslot)] [Hs'|(n' & z' & Hslot')].
  - rewrite Hs in Hs'. by injection Hs'.
  - by destruct (PathORAM.wf_stash_tree _ _ _ Hwf _ _ _ _ _ Hs Hslot').
  - by destruct (PathORAM.wf_stash_tree _ _ _ Hwf _ _ _ _ _ Hs' Hslot).
  - destruct (PathORAM.wf_tree_unique _ _ _ Hwf _ _ _ _ _ _ _ Hslot Hslot')
      as [<- <-].
    by destruct (slot_holds_functional _ _ _ _ _ _ _ Hslot Hslot').
Qed.

(** What [read] returns on a state that satisfies the invariant. *)
Lemma read_value (st : ORAM) (k : Z) :
  wf st → 0 ≤ k < block_count_N →
  ∃ v, (read k st).1 = Returned v
       ∧ (∀ w, PathORAM.holds st k w → v = w)
       ∧ ((∀ w, ¬ PathORAM.holds st k w) → v = zero_block).
Proof.
  intros Hwf Hk. unfold PathORAM.read.
  destruct (access_spec Read k zero_block st Hwf Hk)
    as (v & st' & Heq & _ & Hval & _).
  exists v. rewrite Heq. split; [done|].
  destruct Hval as [(w & Hw & ->)|[Hnone ->]].
  - split.
    + intros w' Hw'. by apply (holds_functional st k).
    + intros Hnone. by destruct (Hnone w).
  - split; [|done]. intros w Hw. by destruct (Hnone w).
Qed.

(** X14: [write] and [read] are the update and the lookup of a store, on
    every state that satisfies the invariant of the engine: a [write] with
    an id in range returns, keeps the invariant, and a [read] after it
    gives the payload written for the same id and, for any other id in
    range, what a [read] before the [write] gave. *)
Theorem write_then_read (st : ORAM) (blk k : Z) (b : Block) :
  wf st → 0 ≤ blk < block_count_N → 0 ≤ k < block_count_N →
  ∃ st1,
    write blk b st = (Returned tt, st1)
    ∧ wf st1
    ∧ (read k st1).1 = if decide (k = blk) then Returned b else (read k st).1.
Proof.
  intros Hwf Hblk Hk.
  destruct (access_spec Write blk b st Hwf Hblk)
    as (newval & st1 & Heq & Hwf1 & -> & Hnew & Hother).
  exists st1. unfold PathORAM.write. rewrite Heq.
  split; [done|split; [done|]].
  destruct (read_value st1 k Hwf1 Hk) as (v1 & -> & Hheld1 & Hnone1).
  destruct (decide (k = blk)) as [->|Hne].
  - f_equal. apply Hheld1. by apply Hnew.
  - destruct (read_value st k Hwf Hk) as (v & -> & Hheld & Hnone).
    f_equal.
    destruct (access_spec Read k zero_block st Hwf Hk)
      as (v' & _ & _ & _ & Hval & _).
    destruct Hval as [(w & Hw & _)|[Hno _]].
    + rewrite (Hheld w Hw). apply Hheld1. by apply Hother.
    + rewrite Hnone by done. apply Hnone1.
      intros w Hw. apply (Hno w). by apply Hother in Hw.
Qed.

(** ** Indexing within bounds *)

(** The loop of [writePath] only takes blocks out of the stash. *)
Lemma foldl_writePath_level_stash (pos : Z) (ls : list Z) (st : ORAM)
      (k : Z) (v : Block) :
  stash (foldl (PathORAM.writePath_level HeightL BlockSizeB BucketSizeZ pos)
               st ls) !! k = Some v →
  stash st !! k = Some v.
Proof.
  revert st. induction ls as [|l ls IH]; intros st Hk; [done|].
  simpl in Hk. apply IH in Hk.
  destruct (writePath_level_spec pos l st) as (sel & bucket & Hstep & _).
  rewrite Hstep in Hk. simpl in Hk. rewrite lookup_foldl_delete in Hk.
  by case_decide.
Qed.

(** X3: the unchecked indexing of an access stays within bounds.  In the
    state [st] after any sequence of calls, [position_map] has
    [block_count_N] entries, each a leaf index, [buckets] has
    [bucket_count] buckets, and every id the engine stores, in the stash
    or in a slot of the tree, is below [block_count_N].  So, for an access
    to a block [blk] in range: [position_map[blk]] is in bounds;
    [buckets[getNodeOnPath(pos, l)]] is in bounds for the old leaf [pos] of
    [blk] and every height [l], in [readPath] and in [writePath]; and in
    every state of the loop of [writePath] -- the state after [readPath] and
    the logical operation, with the buckets of any number of heights
    written -- both arrays have kept their lengths and [position_map[k]] is
    in bounds for every id [k] in the stash, which are the ids
    [getIntersectingBlocks] iterates over: those the stash held, those
    [readPath] has copied from the slots of the path, and [blk]. *)
Theorem reachable_in_bounds
        (g : Generator) (calls : list PathORAM.Call)
        (op : Op) (blk : Z) (b : Block) :
  generator_ok g →
  Forall (λ c, 0 ≤ PathORAM.call_blk c) calls →
  0 ≤ blk < block_count_N →
  let st := run calls (PathORAM_new g) in
  let pos := position_map st !!! Z.to_nat blk in
  length (position_map st) = Z.to_nat block_count_N
  ∧ length (buckets st) = Z.to_nat bucket_count
  ∧ (∀ i p, position_map st !! i = Some p → 0 ≤ p < leaf_count)
  ∧ (∀ k v, PathORAM.holds st k v →
            0 ≤ k ∧ (Z.to_nat k < length (position_map st))%nat)
  ∧ (Z.to_nat blk < length (position_map st))%nat
  ∧ (∀ l, 0 ≤ l ≤ HeightL →
          0 ≤ getNodeOnPath pos l
          ∧ (Z.to_nat (getNodeOnPath pos l) < length (buckets st))%nat)
  ∧ (∀ ls, ls `prefix_of` reverse levels →
       let mid :=
         foldl (PathORAM.writePath_level HeightL BlockSizeB BucketSizeZ pos)
               (PathORAM.apply_op BlockSizeB op blk b
                  (readPath pos (PathORAM.remap blk st))).2
               ls in
       length (position_map mid) = length (position_map st)
       ∧ length (buckets mid) = length (buckets st)
       ∧ ∀ k v, stash mid !! k = Some v →
                0 ≤ k ∧ (Z.to_nat k < length (position_map mid))%nat).
Proof.
  intros Hg Hcalls Hblk st pos.
  pose proof (run_wf g calls Hg Hcalls) as Hwf. fold st in Hwf.
  destruct (access_in_bounds st blk Hwf Hblk) as (Hpm & _ & Hnodes).
  fold pos in Hnodes.
  assert (0 ≤ pos < leaf_count) as Hpos by (by apply wf_leaf).
  pose proof (PathORAM.wf_position_map _ _ _ Hwf) as Hlen_pm.
  split; [done|].
  split; [apply (PathORAM.wf_buckets _ _ _ Hwf)|].
  split; [apply (PathORAM.wf_leaves _ _ _ Hwf)|].
  split; [|split; [done|split]].
  - intros k v Hk.
    assert (0 ≤ k < block_count_N) as Hrange.
    { destruct Hk as [Hk|(node & z & Hslot)].
      - by apply (PathORAM.wf_stash_ids _ _ _ Hwf k v).
      - by apply (PathORAM.wf_tree_ids _ _ _ Hwf node z k v). }
    rewrite Hlen_pm. lia.
  - intros l Hl. split; [|by apply Hnodes, elem_of_levels].
    by apply getNodeOnPath_range.
  - intros ls Hls. rewrite logical_op_unfold. cbv zeta. simpl snd.
    match goal with
    | |- context [foldl _ ?s ls] => set (st3 := s)
    end.
    destruct (foldl_writePath_level_effects pos ls st3)
      as (Hp & _ & _ & Hb & _).
    rewrite Hp, Hb. simpl. rewrite length_insert.
    split; [done|split; [done|]].
    intros k v Hk%foldl_writePath_level_stash.
    apply (stash_before_writePath blk pos _ st Hwf Hblk Hpos) in Hk.
    rewrite Hlen_pm. lia.
Qed.

End Properties.

(** * The properties on the small engine [PathORAM<2, 4, 2>] *)

Lemma Tiny_params : 0 ≤ Tiny.L ≤ 62.
Proof. unfold Tiny.L. lia. Qed.

Lemma Tiny_gen_ok : PathORAM.generator_ok Tiny.L Tiny.gen.
Proof.
  intros k. change (PathORAM.leaf_dist_min) with 0.
  change (PathORAM.leaf_dist_max Tiny.L) with 3. unfold Tiny.gen.
  pose proof (Z.mod_pos_bound (Z.of_nat k) 4). lia.
Qed.

Lemma Tiny_gen'_ok : PathORAM.generator_ok Tiny.L Tiny.gen'.
Proof.
  intros k. change (PathORAM.leaf_dist_min) with 0.
  change (PathORAM.leaf_dist_max Tiny.L) with 3. unfold Tiny.gen'.
  pose proof (Z.mod_pos_bound (Z.of_nat k + 1) 4). lia.
Qed.

Ltac tiny_range :=
  repeat (apply Forall_cons; split); try apply Forall_nil;
  simpl; rewrite ?tiny_N; lia.

Lemma Tiny_calls_ids :
  Forall (λ c, 0 ≤ PathORAM.call_blk c) [Tiny.write_0; Tiny.read_13].
Proof. repeat (apply Forall_cons; split); try apply Forall_nil; simpl; lia. Qed.

Lemma path_index_laws_witness :
  0 ≤ Tiny.L ≤ 62
  ∧ 0 ≤ 1 < PathORAM.leaf_count Tiny.L
  ∧ 0 ≤ 1 ≤ Tiny.L
  ∧ (PathORAM.getNodeOnPath Tiny.L 1 Tiny.L = 1 + PathORAM.leaf_count Tiny.L - 1
     ∧ PathORAM.getNodeOnPath Tiny.L 1 0 = 0
     ∧ (1 < Tiny.L →
        PathORAM.getNodeOnPath Tiny.L 1 1
        = (PathORAM.getNodeOnPath Tiny.L 1 (1 + 1) - 1) `div` 2)).
Proof.
  assert (0 ≤ Tiny.L ≤ 62) as H1 by (unfold Tiny.L; lia).
  assert (0 ≤ 1 < PathORAM.leaf_count Tiny.L) as H2 by (vm_compute; done).
  assert (0 ≤ 1 ≤ Tiny.L) as H3 by (unfold Tiny.L; lia).
  exact (conj H1 (conj H2 (conj H3 (path_index_laws Tiny.L H1 1 1 H2 H3)))).
Defined.

Lemma read_returns_last_write_witness :
  PathORAM.generator_ok Tiny.L Tiny.gen
  ∧ Forall (λ c, 0 ≤ PathORAM.call_blk c) [Tiny.write_0; Tiny.read_13]
  ∧ Forall (λ w, 0 ≤ w.1 < PathORAM.block_count_N Tiny.L Tiny.Zc) Tiny.W
  ∧ Forall (λ k, 0 ≤ k < PathORAM.block_count_N Tiny.L Tiny.Zc) Tiny.R
  ∧ 0 ∈ Tiny.W.*1
  ∧ ∃ v, PathORAM.last_write Tiny.W 0 = Some v
         ∧ (PathORAM.read Tiny.L Tiny.B Tiny.Zc 0
              (PathORAM.run Tiny.L Tiny.B Tiny.Zc
                 ([Tiny.write_0; Tiny.read_13] ++ PathORAM.writes Tiny.W
                    ++ PathORAM.reads Tiny.B Tiny.R)
                 (PathORAM.new Tiny.L Tiny.B Tiny.Zc Tiny.gen))).1
           = Returned v.
Proof.
  assert (Forall (λ w, 0 ≤ w.1 < PathORAM.block_count_N Tiny.L Tiny.Zc) Tiny.W)
    as HW by tiny_range.
  assert (Forall (λ k, 0 ≤ k < PathORAM.block_count_N Tiny.L Tiny.Zc) Tiny.R)
    as HR by tiny_range.
  assert (0 ∈ Tiny.W.*1) as Hid by (simpl; left).
  exact (conj Tiny_gen_ok (conj Tiny_calls_ids (conj HW (conj HR (conj Hid
           (read_returns_last_write Tiny.L Tiny.B Tiny.Zc
              Tiny_params
              Tiny.gen [Tiny.write_0; Tiny.read_13] Tiny.W Tiny.R 0
              Tiny_gen_ok Tiny_calls_ids HW HR Hid)))))).
Defined.

Lemma trace_distribution_independent_witness :
  length [Tiny.write_0] = length [Tiny.read_13]
  ∧ Forall (λ c, 0 ≤ PathORAM.call_blk c
                 < PathORAM.block_count_N Tiny.L Tiny.Zc) [Tiny.write_0]
  ∧ Forall (λ c, 0 ≤ PathORAM.call_blk c
                 < PathORAM.block_count_N Tiny.L Tiny.Zc) [Tiny.read_13]
  ∧ PathORAM.trace_count Tiny.L Tiny.B Tiny.Zc [Tiny.write_0] [0; 1; 3; 3; 1; 0]
    = PathORAM.trace_count Tiny.L Tiny.B Tiny.Zc [Tiny.read_13] [0; 1; 3; 3; 1; 0].
Proof.
  assert (Forall (λ c, 0 ≤ PathORAM.call_blk c
                       < PathORAM.block_count_N Tiny.L Tiny.Zc) [Tiny.write_0])
    as H1 by tiny_range.
  assert (Forall (λ c, 0 ≤ PathORAM.call_blk c
                       < PathORAM.block_count_N Tiny.L Tiny.Zc) [Tiny.read_13])
    as H2 by tiny_range.
  exact (conj eq_refl (conj H1 (conj H2
           (trace_distribution_independent Tiny.L Tiny.B Tiny.Zc
              Tiny_params
              [Tiny.write_0] [Tiny.read_13] [0; 1; 3; 3; 1; 0]
              eq_refl H1 H2)))).
Defined.

Lemma block_path_invariant_witness :
  PathORAM.generator_ok Tiny.L Tiny.gen
  ∧ Forall (λ c, 0 ≤ PathORAM.call_blk c) [Tiny.write_0; Tiny.read_13]
  ∧ PathORAM.slot_holds (buckets Tiny.st2) 0 0 0 Tiny.d1
  ∧ 2 ^ 0 ≤ Z.of_nat 0 + 1 < 2 ^ (0 + 1)
  ∧ Z.of_nat 0
    = PathORAM.getNodeOnPath Tiny.L (position_map Tiny.st2 !!! Z.to_nat 0) 0.
Proof.
  unfold Tiny.st2, Tiny.init.
  assert (PathORAM.slot_holds
            (buckets (PathORAM.run Tiny.L Tiny.B Tiny.Zc
                        [Tiny.write_0; Tiny.read_13]
                        (PathORAM.new Tiny.L Tiny.B Tiny.Zc Tiny.gen)))
            0 0 0 Tiny.d1) as Hslot.
  { eexists. split; [vm_compute; reflexivity|]. split; [reflexivity|].
    vm_compute. discriminate. }
  assert (2 ^ 0 ≤ Z.of_nat 0 + 1 < 2 ^ (0 + 1)) as Hlevel by (simpl; lia).
  exact (conj Tiny_gen_ok (conj Tiny_calls_ids (conj Hslot (conj Hlevel
           (block_path_invariant Tiny.L Tiny.B Tiny.Zc
              Tiny_params
              Tiny.gen [Tiny.write_0; Tiny.read_13] 0%nat 0%nat 0 Tiny.d1 0
              Tiny_gen_ok Tiny_calls_ids Hslot Hlevel))))).
Defined.

Lemma no_duplication_witness :
  PathORAM.generator_ok Tiny.L Tiny.gen
  ∧ Forall (λ c, 0 ≤ PathORAM.call_blk c) [Tiny.write_0; Tiny.read_13]
  ∧ ((∀ k v node z v',
         stash Tiny.st2 !! k = Some v →
         ¬ PathORAM.slot_holds (buckets Tiny.st2) node z k v')
     ∧ NoDup (stash_keys (stash Tiny.st2))
     ∧ (∀ k node z v node' z' v',
           PathORAM.slot_holds (buckets Tiny.st2) node z k v →
           PathORAM.slot_holds (buckets Tiny.st2) node' z' k v' →
           node = node' ∧ z = z')).
Proof.
  unfold Tiny.st2, Tiny.init.
  exact (conj Tiny_gen_ok (conj Tiny_calls_ids
           (no_duplication Tiny.L Tiny.B Tiny.Zc
              Tiny_params
              Tiny.gen [Tiny.write_0; Tiny.read_13]
              Tiny_gen_ok Tiny_calls_ids))).
Defined.

Lemma Tiny_never_wrote_7 (c : PathORAM.Call) :
  c ∈ [Tiny.write_0; Tiny.read_13] →
  PathORAM.call_op c = Write → PathORAM.call_blk c ≠ 7.
Proof.
  intros Hc Hop.
  apply elem_of_cons in Hc as [->|Hc]; [simpl; lia|].
  apply elem_of_cons in Hc as [->|Hc]; [simpl; lia|].
  by apply elem_of_nil in Hc.
Qed.

Lemma first_touch_read_witness :
  PathORAM.generator_ok Tiny.L Tiny.gen
  ∧ Forall (λ c, 0 ≤ PathORAM.call_blk c) [Tiny.write_0; Tiny.read_13]
  ∧ (∀ c, c ∈ [Tiny.write_0; Tiny.read_13] →
          PathORAM.call_op c = Write → PathORAM.call_blk c ≠ 7)
  ∧ 0 ≤ 7 < PathORAM.block_count_N Tiny.L Tiny.Zc
  ∧ ((PathORAM.read Tiny.L Tiny.B Tiny.Zc 7 Tiny.st2).1
     = Returned (PathORAM.zero_block Tiny.B)
     ∧ stash (PathORAM.apply_op Tiny.B Read 7 (PathORAM.zero_block Tiny.B)
                (PathORAM.readPath Tiny.L
                   (position_map Tiny.st2 !!! Z.to_nat 7)
                   (PathORAM.remap 7 Tiny.st2))).2 !! 7
       = Some (PathORAM.zero_block Tiny.B)
     ∧ PathORAM.holds (PathORAM.read Tiny.L Tiny.B Tiny.Zc 7 Tiny.st2).2 7
         (PathORAM.zero_block Tiny.B)).
Proof.
  unfold Tiny.st2, Tiny.init.
  assert (0 ≤ 7 < PathORAM.block_count_N Tiny.L Tiny.Zc) as Hid
    by (rewrite tiny_N; lia).
  exact (conj Tiny_gen_ok (conj Tiny_calls_ids (conj Tiny_never_wrote_7 (conj Hid
           (first_touch_read Tiny.L Tiny.B Tiny.Zc
              Tiny_params
              Tiny.gen [Tiny.write_0; Tiny.read_13] 7
              Tiny_gen_ok Tiny_calls_ids Tiny_never_wrote_7 Hid))))).
Defined.

Lemma out_of_range_calls_witness :
  (PathORAM.access Tiny.L Tiny.B Tiny.Zc Read 14 [] Tiny.init
   = (Throw_out_of_range, Tiny.init)
   ∧ PathORAM.read Tiny.L Tiny.B Tiny.Zc 14 Tiny.init
     = (Throw_out_of_range, Tiny.init)
   ∧ PathORAM.write Tiny.L Tiny.B Tiny.Zc 14 Tiny.d1 Tiny.init
     = (Throw_out_of_range, Tiny.init))
  ∧ (PathORAM.write Tiny.L Tiny.B Tiny.Zc 13 Tiny.d1 Tiny.init).1 = Returned tt.
Proof.
  assert (PathORAM.block_count_N Tiny.L Tiny.Zc ≤ 14) as Hout
    by (rewrite tiny_N; lia).
  assert (13 < PathORAM.block_count_N Tiny.L Tiny.Zc) as Hin
    by (rewrite tiny_N; lia).
  split.
  - pose proof (proj1 (out_of_range_calls Tiny.L Tiny.B Tiny.Zc Read 14
                         Tiny.d1 Tiny.init) Hout) as (_ & Hr & Hw).
    pose proof (proj1 (out_of_range_calls Tiny.L Tiny.B Tiny.Zc Read 14
                         [] Tiny.init) Hout) as (Ha & _).
    exact (conj Ha (conj Hr Hw)).
  - exact (proj2 (proj2 (proj1 (proj2
             (out_of_range_calls Tiny.L Tiny.B Tiny.Zc Write 13 Tiny.d1
                Tiny.init)) Hin))).
Defined.

Lemma leaf_draws_uniform_witness :
  0 ≤ Tiny.L ≤ 62
  ∧ (∀ v, v ∈ PathORAM.leaf_dist_support Tiny.L
          ↔ 0 ≤ v < PathORAM.leaf_count Tiny.L)
  ∧ NoDup (PathORAM.leaf_dist_support Tiny.L)
  ∧ Z.of_nat (length (PathORAM.leaf_dist_support Tiny.L))
    = PathORAM.leaf_count Tiny.L
  ∧ (∀ (n j : nat) (v : Z), (j < n)%nat →
       length (filter (λ tape, tape !! j = Some v) (PathORAM.tapes Tiny.L n))
       = if decide (0 ≤ v < PathORAM.leaf_count Tiny.L)
         then (Z.to_nat (PathORAM.leaf_count Tiny.L) ^ (n - 1))%nat
         else 0%nat).
Proof.
  pose proof (leaf_draws_uniform Tiny.L Tiny.B Tiny.Zc
                Tiny_params
                Tiny.gen Tiny.init Read 0 [] 0%nat) as (H1 & H2 & H3 & H4 & _).
  exact (conj Tiny_params (conj H1 (conj H2 (conj H3 H4)))).
Defined.


Lemma Tiny_gen15_agrees (k : nat) :
  (k < Z.to_nat (PathORAM.block_count_N Tiny.L Tiny.Zc)
       + length [Tiny.read_0])%nat →
  Tiny.gen k = Tiny.gen15 k.
Proof.
  rewrite tiny_N. simpl. intros Hk. unfold Tiny.gen15.
  apply Nat.ltb_lt in Hk. by rewrite Hk.
Qed.



(** * The further properties on the small engine, and [main] *)

Lemma Tiny_gen0_ok : PathORAM.generator_ok Tiny.L Tiny.gen0.
Proof.
  intros k. change (PathORAM.leaf_dist_min) with 0.
  change (PathORAM.leaf_dist_max Tiny.L) with 3. unfold Tiny.gen0. lia.
Qed.

Lemma Tiny_two_writes_ids :
  Forall (λ c, 0 ≤ PathORAM.call_blk c) Tiny.two_writes.
Proof. repeat (apply Forall_cons; split); try apply Forall_nil; simpl; lia. Qed.

Lemma Tiny_seven_writes_ids :
  Forall (λ c, 0 ≤ PathORAM.call_blk c) Tiny.seven_writes.
Proof. repeat (apply Forall_cons; split); try apply Forall_nil; simpl; lia. Qed.

Lemma Tiny_st_two_wf : PathORAM.wf Tiny.L Tiny.Zc Tiny.st_two.
Proof.
  apply (run_wf Tiny.L Tiny.B Tiny.Zc Tiny_params Tiny.gen0 Tiny.two_writes
           Tiny_gen0_ok Tiny_two_writes_ids).
Qed.

Lemma shared_ancestor_witness :
  0 ≤ 0 < PathORAM.leaf_count Tiny.L
  ∧ 0 ≤ 1 < PathORAM.leaf_count Tiny.L
  ∧ 0 ≤ 1 ≤ Tiny.L
  ∧ (PathORAM.getNodeOnPath Tiny.L 0 1 = PathORAM.getNodeOnPath Tiny.L 1 1
     ↔ 0 `div` 2 ^ (Tiny.L - 1) = 1 `div` 2 ^ (Tiny.L - 1)).
Proof.
  assert (0 ≤ 0 < PathORAM.leaf_count Tiny.L) as H1 by (vm_compute; done).
  assert (0 ≤ 1 < PathORAM.leaf_count Tiny.L) as H2 by (vm_compute; done).
  assert (0 ≤ 1 ≤ Tiny.L) as H3 by (unfold Tiny.L; lia).
  exact (conj H1 (conj H2 (conj H3
           (shared_ancestor Tiny.L Tiny_params 0 1 1 H1 H2 H3)))).
Defined.

Lemma path_nodes_in_tree_witness :
  0 ≤ 1 < PathORAM.leaf_count Tiny.L
  ∧ 0 ≤ 2 < PathORAM.leaf_count Tiny.L
  ∧ 0 ≤ 1 ≤ Tiny.L
  ∧ 0 ≤ 2 ≤ Tiny.L
  ∧ (2 ^ 1 - 1 ≤ PathORAM.getNodeOnPath Tiny.L 1 1 ≤ 2 ^ (1 + 1) - 2
     ∧ 0 ≤ PathORAM.getNodeOnPath Tiny.L 1 1 < PathORAM.bucket_count Tiny.L
     ∧ (1 ≠ 2 →
        PathORAM.getNodeOnPath Tiny.L 1 1 ≠ PathORAM.getNodeOnPath Tiny.L 2 2)).
Proof.
  assert (0 ≤ 1 < PathORAM.leaf_count Tiny.L) as H1 by (vm_compute; done).
  assert (0 ≤ 2 < PathORAM.leaf_count Tiny.L) as H2 by (vm_compute; done).
  assert (0 ≤ 1 ≤ Tiny.L) as H3 by (unfold Tiny.L; lia).
  assert (0 ≤ 2 ≤ Tiny.L) as H4 by (unfold Tiny.L; lia).
  exact (conj H1 (conj H2 (conj H3 (conj H4
           (path_nodes_in_tree Tiny.L Tiny_params 1 2 1 2 H1 H2 H3 H4))))).
Defined.

Lemma side_effects_depend_on_ids_only_witness :
  PathORAM.call_blk <$> [Tiny.write_0; Tiny.read_13]
  = PathORAM.call_blk <$> [Tiny.read_0; Tiny.write_13]
  ∧ Forall (λ c, PathORAM.call_blk c < PathORAM.block_count_N Tiny.L Tiny.Zc)
           [Tiny.write_0; Tiny.read_13]
  ∧ PathORAM.touched_trace Tiny.L Tiny.B Tiny.Zc
      [Tiny.write_0; Tiny.read_13] Tiny.gen
    = PathORAM.touched_trace Tiny.L Tiny.B Tiny.Zc
        [Tiny.read_0; Tiny.write_13] Tiny.gen.
Proof.
  assert (Forall (λ c, PathORAM.call_blk c
                       < PathORAM.block_count_N Tiny.L Tiny.Zc)
                 [Tiny.write_0; Tiny.read_13]) as Hids by tiny_range.
  exact (conj eq_refl (conj Hids
           (proj1 (proj2 (proj2
              (side_effects_depend_on_ids_only Tiny.L Tiny.B Tiny.Zc
                 Tiny_params Tiny.gen
                 [Tiny.write_0; Tiny.read_13] [Tiny.read_0; Tiny.write_13]
                 eq_refl Hids)))))).
Defined.

Lemma engine_is_a_block_array_witness :
  PathORAM.generator_ok Tiny.L Tiny.gen
  ∧ Forall (λ c, 0 ≤ PathORAM.call_blk c) [Tiny.write_0; Tiny.read_13]
  ∧ PathORAM.results Tiny.L Tiny.B Tiny.Zc [Tiny.write_0; Tiny.read_13]
      (PathORAM.new Tiny.L Tiny.B Tiny.Zc Tiny.gen)
    = PathORAM.plain_results Tiny.L Tiny.B Tiny.Zc
        [Tiny.write_0; Tiny.read_13] ∅.
Proof.
  exact (conj Tiny_gen_ok (conj Tiny_calls_ids
           (engine_is_a_block_array Tiny.L Tiny.B Tiny.Zc Tiny_params
              Tiny.gen [Tiny.write_0; Tiny.read_13]
              Tiny_gen_ok Tiny_calls_ids))).
Defined.

Lemma stored_iff_accessed_witness :
  PathORAM.generator_ok Tiny.L Tiny.gen
  ∧ Forall (λ c, 0 ≤ PathORAM.call_blk c) [Tiny.write_0; Tiny.read_13]
  ∧ ((∃ v, PathORAM.holds
             (PathORAM.run Tiny.L Tiny.B Tiny.Zc [Tiny.write_0; Tiny.read_13]
                (PathORAM.new Tiny.L Tiny.B Tiny.Zc Tiny.gen)) 13 v)
     ↔ ∃ c, c ∈ [Tiny.write_0; Tiny.read_13]
            ∧ PathORAM.call_blk c = 13
            ∧ 13 < PathORAM.block_count_N Tiny.L Tiny.Zc).
Proof.
  exact (conj Tiny_gen_ok (conj Tiny_calls_ids
           (stored_iff_accessed Tiny.L Tiny.B Tiny.Zc Tiny_params
              Tiny.gen [Tiny.write_0; Tiny.read_13] 13
              Tiny_gen_ok Tiny_calls_ids))).
Defined.

Lemma buckets_stay_packed_witness :
  PathORAM.generator_ok Tiny.L Tiny.gen
  ∧ Forall (λ c, 0 ≤ PathORAM.call_blk c) [Tiny.write_0; Tiny.read_13]
  ∧ buckets (PathORAM.run Tiny.L Tiny.B Tiny.Zc [Tiny.write_0; Tiny.read_13]
               (PathORAM.new Tiny.L Tiny.B Tiny.Zc Tiny.gen)) !! 0%nat
    = Some [IDBlock.mk 0 Tiny.d1; IDBlock.mk 13 (PathORAM.zero_block Tiny.B)]
  ∧ PathORAM.bucket_packed Tiny.L Tiny.B Tiny.Zc
      [IDBlock.mk 0 Tiny.d1; IDBlock.mk 13 (PathORAM.zero_block Tiny.B)].
Proof.
  assert (buckets (PathORAM.run Tiny.L Tiny.B Tiny.Zc
                     [Tiny.write_0; Tiny.read_13]
                     (PathORAM.new Tiny.L Tiny.B Tiny.Zc Tiny.gen)) !! 0%nat
          = Some [IDBlock.mk 0 Tiny.d1;
                  IDBlock.mk 13 (PathORAM.zero_block Tiny.B)]) as Hb
    by (vm_compute; reflexivity).
  exact (conj Tiny_gen_ok (conj Tiny_calls_ids (conj Hb
           (buckets_stay_packed Tiny.L Tiny.B Tiny.Zc Tiny_params
              Tiny.gen [Tiny.write_0; Tiny.read_13] 0%nat _
              Tiny_gen_ok Tiny_calls_ids Hb)))).
Defined.

Lemma eviction_is_greedy_witness :
  PathORAM.wf Tiny.L Tiny.Zc Tiny.st_two
  ∧ 0 ≤ 2 < PathORAM.block_count_N Tiny.L Tiny.Zc
  ∧ 0 ≤ 2 ≤ Tiny.L
  ∧ PathORAM.slot_holds
      (buckets (PathORAM.access Tiny.L Tiny.B Tiny.Zc Write 2 Tiny.d5
                  Tiny.st_two).2)
      (PathORAM.path_node Tiny.L (position_map Tiny.st_two !!! Z.to_nat 2) 1)
      0 2 Tiny.d5
  ∧ PathORAM.getNodeOnPath Tiny.L
      (position_map (PathORAM.access Tiny.L Tiny.B Tiny.Zc Write 2 Tiny.d5
                       Tiny.st_two).2 !!! Z.to_nat 2) 2
    = PathORAM.getNodeOnPath Tiny.L
        (position_map Tiny.st_two !!! Z.to_nat 2) 2
  ∧ ∃ bucket,
      buckets (PathORAM.access Tiny.L Tiny.B Tiny.Zc Write 2 Tiny.d5
                 Tiny.st_two).2
      !! PathORAM.path_node Tiny.L (position_map Tiny.st_two !!! Z.to_nat 2) 2
      = Some bucket
      ∧ PathORAM.bucket_full Tiny.Zc bucket.
Proof.
  assert (0 ≤ 2 < PathORAM.block_count_N Tiny.L Tiny.Zc) as Hblk
    by (rewrite tiny_N; lia).
  assert (0 ≤ 2 ≤ Tiny.L) as Hl by (unfold Tiny.L; lia).
  assert (PathORAM.slot_holds
            (buckets (PathORAM.access Tiny.L Tiny.B Tiny.Zc Write 2 Tiny.d5
                        Tiny.st_two).2)
            (PathORAM.path_node Tiny.L
               (position_map Tiny.st_two !!! Z.to_nat 2) 1)
            0 2 Tiny.d5) as Hslot.
  { eexists. split; [vm_compute; reflexivity|]. split; [reflexivity|].
    vm_compute. discriminate. }
  assert (PathORAM.getNodeOnPath Tiny.L
            (position_map (PathORAM.access Tiny.L Tiny.B Tiny.Zc Write 2
                             Tiny.d5 Tiny.st_two).2 !!! Z.to_nat 2) 2
          = PathORAM.getNodeOnPath Tiny.L
              (position_map Tiny.st_two !!! Z.to_nat 2) 2) as Hnode
    by (vm_compute; reflexivity).
  exact (conj Tiny_st_two_wf (conj Hblk (conj Hl (conj Hslot (conj Hnode
           (eviction_is_greedy Tiny.L Tiny.B Tiny.Zc Tiny_params
              Write 2 Tiny.d5 Tiny.st_two 2 2 Tiny_st_two_wf Hblk Hl
              (or_intror (ex_intro _ 1 (ex_intro _ 0%nat (ex_intro _ Tiny.d5
                 (conj (conj (Z.le_0_1) (Z.lt_1_2)) Hslot)))))
              Hnode)))))).
Defined.

Lemma stash_only_when_root_full_witness :
  PathORAM.generator_ok Tiny.L Tiny.gen0
  ∧ Forall (λ c, 0 ≤ PathORAM.call_blk c) Tiny.seven_writes
  ∧ is_Some (stash (PathORAM.run Tiny.L Tiny.B Tiny.Zc Tiny.seven_writes
                      (PathORAM.new Tiny.L Tiny.B Tiny.Zc Tiny.gen0)) !! 6)
  ∧ ∃ root,
      buckets (PathORAM.run Tiny.L Tiny.B Tiny.Zc Tiny.seven_writes
                 (PathORAM.new Tiny.L Tiny.B Tiny.Zc Tiny.gen0)) !! 0%nat
      = Some root
      ∧ PathORAM.bucket_full Tiny.Zc root.
Proof.
  assert (is_Some (stash (PathORAM.run Tiny.L Tiny.B Tiny.Zc Tiny.seven_writes
                            (PathORAM.new Tiny.L Tiny.B Tiny.Zc Tiny.gen0))
                   !! 6)) as Hk.
  { exists Tiny.d1. vm_compute. reflexivity. }
  exact (conj Tiny_gen0_ok (conj Tiny_seven_writes_ids (conj Hk
           (stash_only_when_root_full Tiny.L Tiny.B Tiny.Zc Tiny_params
              Tiny.gen0 Tiny.seven_writes 6
              Tiny_gen0_ok Tiny_seven_writes_ids Hk)))).
Defined.

(** ** [main] *)

Lemma main_parameters :
  PathORAM.block_count_N 12 4 = 32764 ∧ PathORAM.leaf_dist_max 12 = 4095.
Proof. split; reflexivity. Qed.

(** X13: [main] passes. Whatever the random devices draw and in whatever
    order the map is iterated, no call of the engine throws, every block
    read back equals the block written, and [main] returns 0 after printing
    the metadata of the engine, the three progress lines and a summary with
    as many successful tests as [input_map] has entries, between 1 and
    32764, and 0 failed tests. *)
Theorem main_passes (e : Main.Env) :
  Main.env_ok 12 4 e →
  let n := Z.of_nat (size (Main.generate_inputs 12 16 4 e)) in
  1 ≤ n ≤ 32764
  ∧ Main.main e
    = (Returned 0,
       "Height: 12" +:+ Main.nl
       +:+ "Bucket Count: 8191" +:+ Main.nl
       +:+ Main.nl
       +:+ "Generating inputs" +:+ Main.nl
       +:+ "Writing data" +:+ Main.nl
       +:+ "Reading data" +:+ Main.nl
       +:+ "Successful tests: " +:+ pretty n +:+ Main.nl
       +:+ "Failed tests: 0" +:+ Main.nl).
Proof.
  intros Henv n. split.
  - destruct (generate_inputs_size 12 16 4 e) as [Hle Hge].
    destruct main_parameters as [HN _]. rewrite HN in Hle, Hge.
    unfold n. lia.
  - unfold Main.main.
    rewrite (run_test_passes 12 16 4 ltac:(lia) e Henv).
    fold n. unfold Main.summary.
    change (Main.successes (Main.mkCounters 0 n)) with n.
    change (Main.failures (Main.mkCounters 0 n)) with 0.
    assert (Main.metadata 12
            = "Height: 12" +:+ Main.nl +:+ "Bucket Count: 8191" +:+ Main.nl
              +:+ Main.nl) as -> by (vm_compute; reflexivity).
    generalize (pretty n). intros s. vm_compute. reflexivity.
Qed.

Lemma sample_env_ok : Main.env_ok 12 4 Main.sample_env.
Proof.
  destruct main_parameters as [HN Hmax].
  split; [|split; [|split]]; simpl.
  - intros k. rewrite Hmax. unfold PathORAM.leaf_dist_min. lia.
  - intros i. rewrite HN. change (wrap64 (32764 - 1)) with 32763.
    pose proof (Z.mod_pos_bound (Z.of_nat i) 32764). lia.
  - intros i. pose proof (Z.mod_pos_bound (Z.of_nat i) 256). lia.
  - done.
Qed.

Lemma main_passes_witness :
  Main.env_ok 12 4 Main.sample_env
  ∧ (let n := Z.of_nat (size (Main.generate_inputs 12 16 4 Main.sample_env)) in
     1 ≤ n ≤ 32764
     ∧ Main.main Main.sample_env
       = (Returned 0,
          "Height: 12" +:+ Main.nl
          +:+ "Bucket Count: 8191" +:+ Main.nl
          +:+ Main.nl
          +:+ "Generating inputs" +:+ Main.nl
          +:+ "Writing data" +:+ Main.nl
          +:+ "Reading data" +:+ Main.nl
          +:+ "Successful tests: " +:+ pretty n +:+ Main.nl
          +:+ "Failed tests: 0" +:+ Main.nl)).
Proof.
  exact (conj sample_env_ok (main_passes Main.sample_env sample_env_ok)).
Defined.

Lemma write_then_read_witness :
  PathORAM.wf Tiny.L Tiny.Zc Tiny.st_two
  ∧ 0 ≤ 2 < PathORAM.block_count_N Tiny.L Tiny.Zc
  ∧ 0 ≤ 0 < PathORAM.block_count_N Tiny.L Tiny.Zc
  ∧ ∃ st1,
      PathORAM.write Tiny.L Tiny.B Tiny.Zc 2 Tiny.d5 Tiny.st_two
      = (Returned tt, st1)
      ∧ PathORAM.wf Tiny.L Tiny.Zc st1
      ∧ (PathORAM.read Tiny.L Tiny.B Tiny.Zc 0 st1).1
        = if decide (0 = 2) then Returned Tiny.d5
          else (PathORAM.read Tiny.L Tiny.B Tiny.Zc 0 Tiny.st_two).1.
Proof.
  assert (0 ≤ 2 < PathORAM.block_count_N Tiny.L Tiny.Zc) as Hblk
    by (rewrite tiny_N; lia).
  assert (0 ≤ 0 < PathORAM.block_count_N Tiny.L Tiny.Zc) as Hk
    by (rewrite tiny_N; lia).
  exact (conj Tiny_st_two_wf (conj Hblk (conj Hk
           (write_then_read Tiny.L Tiny.B Tiny.Zc Tiny_params
              Tiny.st_two 2 0 Tiny.d5 Tiny_st_two_wf Hblk Hk)))).
Defined.

Lemma reachable_in_bounds_witness :
  PathORAM.generator_ok Tiny.L Tiny.gen
  ∧ Forall (λ c, 0 ≤ PathORAM.call_blk c) [Tiny.write_0; Tiny.read_13]
  ∧ 0 ≤ 13 < PathORAM.block_count_N Tiny.L Tiny.Zc
  ∧ length (position_map
              (PathORAM.run Tiny.L Tiny.B Tiny.Zc [Tiny.write_0; Tiny.read_13]
                 (PathORAM.new Tiny.L Tiny.B Tiny.Zc Tiny.gen)))
    = Z.to_nat (PathORAM.block_count_N Tiny.L Tiny.Zc)
  ∧ length (buckets
              (PathORAM.run Tiny.L Tiny.B Tiny.Zc [Tiny.write_0; Tiny.read_13]
                 (PathORAM.new Tiny.L Tiny.B Tiny.Zc Tiny.gen)))
    = Z.to_nat (PathORAM.bucket_count Tiny.L).
Proof.
  assert (0 ≤ 13 < PathORAM.block_count_N Tiny.L Tiny.Zc) as Hblk
    by (rewrite tiny_N; lia).
  exact (conj Tiny_gen_ok (conj Tiny_calls_ids (conj Hblk
           (let H := reachable_in_bounds Tiny.L Tiny.B Tiny.Zc Tiny_params
                       Tiny.gen [Tiny.write_0; Tiny.read_13]
                       Write 13 Tiny.d9
                       Tiny_gen_ok Tiny_calls_ids Hblk in
            conj (proj1 H) (proj1 (proj2 H)))))).
Defined.
